(** * Expense splitter: the debt-ledger engine of package [groups]

    A shallow embedding of [groups/group.go], [groups/graph.go],
    [groups/names.go] and the group store of the package: the split
    engine ([splitEqual], [splitByPercent], [splitByWeights]), the
    membership store ([NewGroup], [AddPerson], [GetPeople]), expense
    ingestion ([AddExpense]), the settlement calculator
    ([getMoneyTobePaid], [GetExpenseDetails]), the DOT exporter
    ([GetGraphDOT]) and the registry of groups ([Create], [Get], [List],
    [ListGroups], [Delete]); and of the amount parser of the add_expense
    tool ([parseDollarsToMicroCents]).

    Conventions of the embedding.
    - [int64] (and [int]) values are integers of [Z]; every arithmetic
      operation of the source is followed by [wrap64], its two's-complement
      wrap-around.  Go's [/] and [%] truncate towards zero: [Z.quot], [Z.rem].
    - [float64] values are the kernel's binary64 floats ([PrimFloat]), so
      the rounding of every operation is the one the machine performs.
    - A Go [map[string]float64] that the code only ranges over is an
      association list with distinct keys; the order of the list is the
      order in which the runtime happens to enumerate the map, and the
      theorems quantify over it.  Maps that are looked up ([people],
      [nodes], [expenses], the share maps) are [gmap]s.
    - Mutation of the receiver is explicit state passing: a method returns
      the new state next to its error. *)

From Stdlib Require Import ZArith String Ascii List Lia Bool Permutation Sorted.
From Stdlib Require Import Floats Uint63.
From stdpp Require Import gmap strings list fin_maps pretty.

#[local] Set Warnings "-inexact-float".
#[local] Open Scope Z_scope.

(** ** Machine integers *)

Definition int64_min : Z := -9223372036854775808.
Definition int64_max : Z := 9223372036854775807.

Definition in_int64 (z : Z) : Prop := int64_min <= z <= int64_max.

(** Two's-complement reduction of an integer to 64 bits. *)
Definition wrap64 (z : Z) : Z := (z + 2 ^ 63) mod 2 ^ 64 - 2 ^ 63.

Definition add64 (a b : Z) : Z := wrap64 (a + b).
Definition sub64 (a b : Z) : Z := wrap64 (a - b).
(** Go's integer division and remainder truncate towards zero. *)
Definition quot64 (a b : Z) : Z := wrap64 (Z.quot a b).
Definition rem64 (a b : Z) : Z := Z.rem a b.

(** ** Results and errors

    The source reports failures as [fmt.Errorf] values; the constructors
    below name the failure sites.  [PanicDivideByZero] is the run-time panic
    of [i % int64(len(items))] on an empty slice. *)

Inductive Error : Type :=
  | NonPositiveTotal
  | EmptyDescription
  | InvalidSplitMethod
  | InsufficientGroupSize
  | UnknownPayer
  | EmptySplitName
  | DuplicateSplitName (name : string)
  | UnknownParticipant (name : string)
  | InsufficientParticipants (size : nat)
  | PercentageSumMismatch (sum : float)
  | NegativeWeight
  | NonPositiveWeightSum
  | InvariantViolation
  | UnknownNode (name : string)
  | InvalidName
  | DuplicateMember (name : string)
  | EmptyNodeName
  | NodeExists (name : string)
  | PanicDivideByZero.

Inductive result (A : Type) : Type :=
  | Ok (a : A)
  | Err (e : Error).
Arguments Ok {A} a.
Arguments Err {A} e.

Definition is_Ok {A} (r : result A) : bool :=
  match r with Ok _ => true | Err _ => false end.

(** ** Sorting

    [sort.Strings] and [sort.Slice] are modelled by one insertion sort over
    the comparison [less] the source passes.  For a strict total order on
    pairwise distinct elements every sorting algorithm returns the same
    slice, so the choice of algorithm is not observable there. *)

Section Sorting.
Context {A : Type} (less : A -> A -> bool).

Fixpoint insertSorted (x : A) (l : list A) : list A :=
  match l with
  | [] => [x]
  | y :: l' => if less x y then x :: y :: l' else y :: insertSorted x l'
  end.

Definition sortSlice (l : list A) : list A := foldr insertSorted [] l.
End Sorting.

(** Byte-wise lexicographic order of Go strings. *)
Definition sortStrings (names : list string) : list string :=
  sortSlice String.ltb names.

(** ** Split engine: equal shares ([splitEqual], group.go 362-385) *)

(** The loop [for i, p := range sorted { ... shares[p] = share }]. *)
Fixpoint assignEqual (base rem : Z) (i : Z) (sorted : list string)
    (shares : gmap string Z) : gmap string Z :=
  match sorted with
  | [] => shares
  | p :: rest =>
      let share := if i <? rem then add64 base 1 else base in
      assignEqual base rem (i + 1) rest (<[p := share]> shares)
  end.

Definition splitEqual (totalMicroCents : Z) (names : list string)
    : result (gmap string Z) :=
  let n := Z.of_nat (length names) in
  if n <=? 1 then Err (InsufficientParticipants (length names))
  else
    let base := quot64 totalMicroCents n in
    let rem := rem64 totalMicroCents n in
    let sorted := sortStrings names in
    Ok (assignEqual base rem 0 sorted ∅).

(** The sum of [f] over the values of a map. *)
Definition mapSum `{Countable K} {V : Type} (f : V -> Z) (m : gmap K V) : Z :=
  map_fold (fun _ v acc => f v + acc) 0 m.

(** The sum of the values of a share map. *)
Definition sumShares (shares : gmap string Z) : Z := mapSum (fun v => v) shares.

(** The number of participants whose key is strictly smaller than [k]. *)
Definition rank (names : list string) (k : string) : Z :=
  Z.of_nat (length (filter (fun x => String.ltb x k = true) names)).


(** ** Conversions between [int64] and [float64] *)

(** [float64(z)] for an [int64] [z]: the nearest binary64 value, ties to
    even.  [of_uint63] rounds that way on [0 .. 2^63-1]; the conversion is
    odd, and [-2^63] is a power of two. *)
Definition float64_of_int64 (z : Z) : float :=
  if z =? int64_min then (-0x1p63)%float
  else if z <? 0 then PrimFloat.opp (PrimFloat.of_uint63 (Uint63.of_Z (- z)))
  else PrimFloat.of_uint63 (Uint63.of_Z z).

(** The integer [math.Floor(f)] of a finite float; [None] for NaN and the
    infinities. *)
Definition floorZ (f : float) : option Z :=
  match Prim2SF f with
  | S754_zero _ => Some 0
  | S754_finite s m e =>
      let v := if s then Z.neg m else Z.pos m in
      Some (if 0 <=? e then v * 2 ^ e else v / 2 ^ (- e))
  | S754_infinity _ | S754_nan => None
  end.

(** [int64(math.Floor(f))].  When the floor is representable the conversion
    is exact.  Otherwise Go leaves the result to the implementation; the
    value taken here is the one amd64 produces (the "integer indefinite"
    [-2^63]). *)
Definition int64_of_floor (f : float) : Z :=
  match floorZ f with
  | Some z => if (int64_min <=? z) && (z <=? int64_max) then z else int64_min
  | None => int64_min
  end.

(** ** Split engine: largest-remainder distribution
    ([splitByPercent], group.go 387-434; [splitByWeights], 436-484) *)

Record item : Type := mkItem {
  item_name : string;
  item_raw : float;
  item_base : Z;
  item_frac : float
}.

(** [item{name, raw, base: int64(math.Floor(raw)), frac: raw - float64(base)}] *)
Definition newItem (name : string) (raw : float) : item :=
  let base := int64_of_floor raw in
  mkItem name raw base (PrimFloat.sub raw (float64_of_int64 base)).

(** The comparison passed to [sort.Slice]: descending fractional part,
    ties by ascending name. *)
Definition itemLess (a b : item) : bool :=
  if PrimFloat.eqb (item_frac a) (item_frac b)
  then String.ltb (item_name a) (item_name b)
  else PrimFloat.ltb (item_frac b) (item_frac a).

(** [used += base] over the items. *)
Definition usedOf (items : list item) : Z :=
  fold_left (fun used it => add64 used (item_base it)) items 0.

(** [for _, it := range items { shares[it.name] = it.base }] *)
Definition baseShares (items : list item) : gmap string Z :=
  fold_left (fun shares it => <[item_name it := item_base it]> shares) items ∅.

(** [for i := int64(0); i < rem; i++ { shares[items[i%len(items)].name]++ }],
    with [n] the number of iterations that remain. *)
Fixpoint distribute (items : list item) (n : nat) (i : Z)
    (shares : gmap string Z) : result (gmap string Z) :=
  match n with
  | O => Ok shares
  | S n' =>
      match items with
      | [] => Err PanicDivideByZero
      | d :: _ =>
          let it := nth (Z.to_nat (rem64 i (Z.of_nat (length items)))) items d in
          let cur := default 0 (shares !! item_name it) in
          distribute items n' (i + 1) (<[item_name it := add64 cur 1]> shares)
      end
  end.

(** The common tail of both strategies, from [rem := total - used] on. *)
Definition largestRemainder (totalMicroCents : Z) (items : list item)
    : result (gmap string Z) :=
  let used := usedOf items in
  let rem := sub64 totalMicroCents used in
  let sorted := sortSlice itemLess items in
  distribute sorted (Z.to_nat rem) 0 (baseShares sorted).

(** [sum += v] over the map, starting from [0.0]. *)
Definition sumValues (m : list (string * float)) : float :=
  fold_left (fun sum kv => PrimFloat.add sum (snd kv)) m 0%float.

Definition percentItems (totalMicroCents : Z) (perc : list (string * float))
    : list item :=
  map (fun kv =>
         newItem (fst kv)
           (PrimFloat.mul (PrimFloat.div (snd kv) 100%float)
                          (float64_of_int64 totalMicroCents))) perc.

Definition splitByPercent (totalMicroCents : Z) (perc : list (string * float))
    : result (gmap string Z) :=
  let sum := sumValues perc in
  if PrimFloat.ltb 0.01%float (PrimFloat.abs (PrimFloat.sub sum 100%float))
  then Err (PercentageSumMismatch sum)
  else largestRemainder totalMicroCents (percentItems totalMicroCents perc).

(** The first loop of [splitByWeights]: it returns at the first negative
    weight it meets, and otherwise the sum. *)
Fixpoint sumWeights (w : list (string * float)) (sumW : float) : result float :=
  match w with
  | [] => Ok sumW
  | (_, v) :: rest =>
      if PrimFloat.ltb v 0%float then Err NegativeWeight
      else sumWeights rest (PrimFloat.add sumW v)
  end.

(** The second loop: zero weights are skipped ([continue]). *)
Definition weightItems (totalMicroCents : Z) (sumW : float)
    (w : list (string * float)) : list item :=
  map (fun kv =>
         newItem (fst kv)
           (PrimFloat.mul (PrimFloat.div (snd kv) sumW)
                          (float64_of_int64 totalMicroCents)))
      (filter (fun kv => PrimFloat.eqb (snd kv) 0%float = false) w).

Definition splitByWeights (totalMicroCents : Z) (w : list (string * float))
    : result (gmap string Z) :=
  match sumWeights w 0%float with
  | Err e => Err e
  | Ok sumW =>
      if PrimFloat.leb sumW 0%float then Err NonPositiveWeightSum
      else largestRemainder totalMicroCents (weightItems totalMicroCents sumW w)
  end.

(** ** Identity normalizer ([normalizeName], names.go)

    Strings are byte strings, in UTF-8 where they hold text.

    [strings.TrimSpace] removes the leading and the trailing white space
    of [unicode.IsSpace]: the six ASCII characters and, in UTF-8, U+0085,
    U+00A0, U+1680, U+2000 to U+200A, U+2028, U+2029, U+202F, U+205F and
    U+3000.  The rune at the head of a string is decoded from its first
    bytes, and the rune at the end of a string is the one whose encoding
    ends the string; a byte that begins no valid encoding is no white
    space.

    [strings.ToLower] is modelled on strings of ASCII bytes, which is
    where every name accepted by [personNamePattern] or [groupNamePattern]
    lives: there it maps [A-Z] to [a-z] byte by byte.  On a string with a
    byte from 128 on the source maps every rune through
    [unicode.ToLower]; the model leaves such bytes as they are. *)

Definition isSpace (c : ascii) : bool :=
  let n := N_of_ascii c in
  (((9 <=? n) && (n <=? 13)) || (n =? 32))%N.

Definition byteIs (n : N) (c : ascii) : bool := (N_of_ascii c =? n)%N.
Definition byteIn (lo hi : N) (c : ascii) : bool :=
  ((lo <=? N_of_ascii c) && (N_of_ascii c <=? hi))%N.

(** [s] is the UTF-8 encoding of one white-space rune. *)
Definition isSpaceRune (s : string) : bool :=
  match s with
  | String c1 EmptyString => isSpace c1
  | String c1 (String c2 EmptyString) =>
      byteIs 194 c1 && (byteIs 133 c2 || byteIs 160 c2)
  | String c1 (String c2 (String c3 EmptyString)) =>
      (byteIs 225 c1 && byteIs 154 c2 && byteIs 128 c3)
      || (byteIs 226 c1 && byteIs 128 c2
          && (byteIn 128 138 c3
              || byteIs 168 c3 || byteIs 169 c3 || byteIs 175 c3))
      || (byteIs 226 c1 && byteIs 129 c2 && byteIs 159 c3)
      || (byteIs 227 c1 && byteIs 128 c2 && byteIs 128 c3)
  | _ => false
  end.

(** [strings.TrimLeftFunc(s, unicode.IsSpace)] *)
Fixpoint trimLeft (s : string) : string :=
  match s with
  | EmptyString => EmptyString
  | String c1 s1 =>
      if isSpace c1 then trimLeft s1
      else
        match s1 with
        | EmptyString => s
        | String c2 s2 =>
            if isSpaceRune (String c1 (String c2 EmptyString))
            then trimLeft s2
            else
              match s2 with
              | EmptyString => s
              | String c3 s3 =>
                  if isSpaceRune (String c1 (String c2 (String c3 EmptyString)))
                  then trimLeft s3
                  else s
              end
        end
  end.

(** [strings.TrimRightFunc(s, unicode.IsSpace)]: what is left of [s']
    is extended by [c], and dropped when the two make up one white-space
    rune. *)
Fixpoint trimRight (s : string) : string :=
  match s with
  | EmptyString => EmptyString
  | String c s' =>
      let t := String c (trimRight s') in
      if isSpaceRune t then EmptyString else t
  end.

Definition TrimSpace (s : string) : string := trimRight (trimLeft s).

Definition isUpper (c : ascii) : bool :=
  let n := N_of_ascii c in ((65 <=? n) && (n <=? 90))%N.
Definition isLower (c : ascii) : bool :=
  let n := N_of_ascii c in ((97 <=? n) && (n <=? 122))%N.
Definition isLetter (c : ascii) : bool := isUpper c || isLower c.

Definition toLowerAscii (c : ascii) : ascii :=
  if isUpper c then ascii_of_N (N_of_ascii c + 32) else c.

Fixpoint ToLower (s : string) : string :=
  match s with
  | String c s' => String (toLowerAscii c) (ToLower s')
  | EmptyString => EmptyString
  end.

Definition normalizeName (name : string) : string := ToLower (TrimSpace name).

Fixpoint allChars (p : ascii -> bool) (s : string) : bool :=
  match s with
  | String c s' => p c && allChars p s'
  | EmptyString => true
  end.

(** [^[A-Za-z][A-Za-z_-]{0,31}$] *)
Definition groupNamePattern (s : string) : bool :=
  match s with
  | String c rest =>
      isLetter c
      && allChars (fun c => isLetter c || (N_of_ascii c =? 95)%N
                            || (N_of_ascii c =? 45)%N) rest
      && (String.length rest <=? 31)%nat
  | EmptyString => false
  end.

(** [^[A-Za-z][A-Za-z_ -]{0,31}$] *)
Definition personNamePattern (s : string) : bool :=
  match s with
  | String c rest =>
      isLetter c
      && allChars (fun c => isLetter c || (N_of_ascii c =? 95)%N
                            || (N_of_ascii c =? 32)%N
                            || (N_of_ascii c =? 45)%N) rest
      && (String.length rest <=? 31)%nat
  | EmptyString => false
  end.

(** ** Data model (group.go 18-51, graph.go)

    [CreatedAt] fields hold the wall clock and are never read by the code
    modelled here; they are left out. *)

Record Person : Type := mkPerson { person_Name : string }.

Record EdgeMetadata : Type := mkEdgeMetadata {
  AmountInMicroCents : Z;
  ExpenseID : Z
}.

Record edge : Type := mkEdge {
  To : string;
  Metadata : EdgeMetadata
}.

Record graph : Type := mkGraph {
  graph_Name : string;
  nodes : gmap string (list edge)
}.

Record Expense : Type := mkExpense {
  ID : Z;
  TotalMicroCents : Z;
  PaidBy : string;
  Description : string;
  SplitMethod : string;
  SplitPercentages : list (string * float);
  SplitWeights : list (string * float)
}.

Record Group : Type := mkGroup {
  group_Name : string;
  group_graph : graph;
  people : gmap string Person;
  expenses : gmap Z Expense;
  expenseIdCounter : Z
}.

(** ** Debt graph (graph.go) *)

Definition newGraph (name : string) : graph := mkGraph name ∅.

Definition addNode (g : graph) (node : string) : graph * option Error :=
  let node := TrimSpace node in
  if String.eqb node "" then (g, Some EmptyNodeName)
  else match nodes g !! node with
       | Some _ => (g, Some (NodeExists node))
       | None => (mkGraph (graph_Name g) (<[node := []]> (nodes g)), None)
       end.

Definition addEdge (g : graph) (from to : string) (metadata : EdgeMetadata)
    : graph * option Error :=
  match nodes g !! from with
  | None => (g, Some (UnknownNode from))
  | Some edgeSlice =>
      match nodes g !! to with
      | None => (g, Some (UnknownNode to))
      | Some _ =>
          let newEdge := mkEdge to metadata in
          (mkGraph (graph_Name g) (<[from := edgeSlice ++ [newEdge]]> (nodes g)),
           None)
      end
  end.

(** ** Membership store ([NewGroup], [AddPerson], group.go 55-99) *)

Definition NewGroup (name : string) : result Group :=
  let name := TrimSpace name in
  if groupNamePattern name
  then Ok (mkGroup name (newGraph name) ∅ ∅ 0)
  else Err InvalidName.

Definition AddPerson (g : Group) (name : string) : Group * option Error :=
  let displayName := TrimSpace name in
  if negb (personNamePattern displayName) then (g, Some InvalidName)
  else
    let key := normalizeName displayName in
    match people g !! key with
    | Some existing => (g, Some (DuplicateMember (person_Name existing)))
    | None =>
        match addNode (group_graph g) key with
        | (gr, Some err) => (g, Some err)
        | (gr, None) =>
            (mkGroup (group_Name g) gr (<[key := mkPerson displayName]> (people g))
                     (expenses g) (expenseIdCounter g), None)
        end
    end.

(** ** Expense ingestion ([AddExpense], group.go 111-238) *)

(** The loop of [normalizeSplitMap] (group.go 339-355); [out] is the map
    built so far, kept in insertion order. *)
Fixpoint normalizeSplitLoop (input out : list (string * float))
    : result (list (string * float)) :=
  match input with
  | [] => Ok out
  | (name, value) :: rest =>
      let key := normalizeName name in
      if String.eqb key "" then Err EmptySplitName
      else if existsb (fun kv => String.eqb (fst kv) key) out
           then Err (DuplicateSplitName name)
           else normalizeSplitLoop rest (out ++ [(key, value)])
  end.

Definition normalizeSplitMap (input : list (string * float))
    : result (list (string * float)) :=
  normalizeSplitLoop input [].

Definition validateSplitMethod (splitMethod : string) : option Error :=
  if existsb (String.eqb splitMethod) ["equal"; "percentage"; "weights"]
  then None else Some InvalidSplitMethod.

(** [for name := range m { if _, exists := g.people[name]; !exists ... }] *)
Definition firstNonMember (g : Group) (m : list (string * float))
    : option string :=
  find (fun name => negb (bool_decide (is_Some (people g !! name)))) (map fst m).

(** The keys of a map, in the order the model enumerates it. *)
Definition keysOf {V : Type} (m : gmap string V) : list string :=
  map fst (map_to_list m).

(** The defensive consistency check of lines 201-213. *)
Definition graphInSync (g : Group) : bool :=
  (size (people g) =? size (nodes (group_graph g)))%nat
  && forallb (fun name => bool_decide (is_Some (nodes (group_graph g) !! name)))
             (keysOf (people g))
  && forallb (fun name => bool_decide (is_Some (people g !! name)))
             (keysOf (nodes (group_graph g))).

(** The edge loop of lines 220-235 over the member keys still to visit.
    It returns the graph as mutated so far together with the error that
    stopped it, if any. *)
Fixpoint addEdges (gr : graph) (fromKeys : list string) (paidByKey : string)
    (shares : gmap string Z) (id : Z) : graph * option Error :=
  match fromKeys with
  | [] => (gr, None)
  | fromKey :: rest =>
      if String.eqb fromKey paidByKey then addEdges gr rest paidByKey shares id
      else match shares !! fromKey with
           | None => addEdges gr rest paidByKey shares id
           | Some owed =>
               match addEdge gr fromKey paidByKey (mkEdgeMetadata owed id) with
               | (gr', Some err) => (gr', Some err)
               | (gr', None) => addEdges gr' rest paidByKey shares id
               end
           end
  end.

(** The [switch e.SplitMethod] of lines 175-199. After
    [validateSplitMethod] no other tag reaches it; the zero value of
    [shares] (a nil map) is the empty map. *)
Definition computeShares (g : Group) (e : Expense) : result (gmap string Z) :=
  if String.eqb (SplitMethod e) "equal"
  then splitEqual (TotalMicroCents e) (keysOf (people g))
  else if String.eqb (SplitMethod e) "percentage"
  then splitByPercent (TotalMicroCents e) (SplitPercentages e)
  else if String.eqb (SplitMethod e) "weights"
  then splitByWeights (TotalMicroCents e) (SplitWeights e)
  else Ok ∅.

Definition setDescription (e : Expense) (d : string) : Expense :=
  mkExpense (ID e) (TotalMicroCents e) (PaidBy e) d (SplitMethod e)
            (SplitPercentages e) (SplitWeights e).

(** [AddExpense] returns the group and the expense as the call leaves them
    (the expense is passed by pointer and rewritten in place) and the
    error, if any. *)
Definition AddExpense (g : Group) (e : Expense)
    : Group * Expense * option Error :=
  if TotalMicroCents e <=? 0 then (g, e, Some NonPositiveTotal)
  else
    let e := setDescription e (TrimSpace (Description e)) in
    if String.eqb (Description e) "" then (g, e, Some EmptyDescription)
    else match validateSplitMethod (SplitMethod e) with
    | Some err => (g, e, Some err)
    | None =>
    if (size (people g) <=? 1)%nat then (g, e, Some InsufficientGroupSize)
    else
    let paidByKey := normalizeName (PaidBy e) in
    match people g !! paidByKey with
    | None => (g, e, Some UnknownPayer)
    | Some to =>
    match normalizeSplitMap (SplitPercentages e) with
    | Err err => (g, e, Some err)
    | Ok normalizedPercentages =>
    match firstNonMember g normalizedPercentages with
    | Some name => (g, e, Some (UnknownParticipant name))
    | None =>
    match normalizeSplitMap (SplitWeights e) with
    | Err err => (g, e, Some err)
    | Ok normalizedWeights =>
    match firstNonMember g normalizedWeights with
    | Some name => (g, e, Some (UnknownParticipant name))
    | None =>
    let e := mkExpense (ID e) (TotalMicroCents e) (person_Name to)
                       (Description e) (SplitMethod e)
                       normalizedPercentages normalizedWeights in
    match computeShares g e with
    | Err err => (g, e, Some err)
    | Ok shares =>
    if negb (graphInSync g) then (g, e, Some InvariantViolation)
    else
    let id := add64 (expenseIdCounter g) 1 in
    let e := mkExpense id (TotalMicroCents e) (PaidBy e) (Description e)
                       (SplitMethod e) (SplitPercentages e) (SplitWeights e) in
    let exps := <[id := e]> (expenses g) in
    let '(gr, err) := addEdges (group_graph g) (keysOf (people g)) paidByKey
                               shares id in
    (mkGroup (group_Name g) gr (people g) exps id, e, err)
    end end end end end end end.

(** ** Settlement calculator ([getMoneyTobePaid], group.go 488-514;
    [GetExpenseDetails], 240-263) *)

(** [g.graph.nodes[k]]: the nil slice when [k] is no node. *)
Definition edgesOf (gr : graph) (k : string) : list edge :=
  default [] (nodes gr !! k).

(** [for _, edge := range edges { if edge.To == to { sum += amount } }] *)
Definition sumEdgesTo (edges : list edge) (to : string) : Z :=
  fold_left
    (fun sum ed =>
       if String.eqb (To ed) to
       then add64 sum (AmountInMicroCents (Metadata ed)) else sum)
    edges 0.

(** The integer [sum - sum2] of [getMoneyTobePaid]. *)
Definition netBalance (g : Group) (from to : string) : Z :=
  sub64 (sumEdgesTo (edgesOf (group_graph g) from) to)
        (sumEdgesTo (edgesOf (group_graph g) to) from).

Definition getMoneyTobePaid (g : Group) (from to : string) : float :=
  let cents := PrimFloat.div (float64_of_int64 (netBalance g from to))
                             1000%float in
  let cents := if PrimFloat.ltb cents 1%float then 0%float else cents in
  PrimFloat.div cents 100%float.

Definition displayName (g : Group) (key : string) : string :=
  match people g !! key with
  | Some p => person_Name p
  | None => key
  end.

(** [fmt.Sprintf("%s to pay %s", ...)] *)
Definition settlementKey (g : Group) (from to : string) : string :=
  String.append (displayName g from)
                (String.append " to pay " (displayName g to)).

(** The assignments [result[key] = amount] that [GetExpenseDetails]
    performs, in order, each tagged with the pair of node keys it is for. *)
Definition settlementEntries (g : Group) : list (string * string * float) :=
  let people := keysOf (nodes (group_graph g)) in
  flat_map
    (fun from =>
       flat_map
         (fun to =>
            if String.eqb from to then []
            else
              let amount := getMoneyTobePaid g from to in
              if PrimFloat.ltb 0%float amount then [(from, to, amount)] else [])
         people)
    people.

Definition GetExpenseDetails (g : Group) : gmap string float :=
  fold_left
    (fun result entry =>
       <[settlementKey g (fst (fst entry)) (snd (fst entry)) := snd entry]> result)
    (settlementEntries g) ∅.

(** ** Graph exporter ([GetGraphDOT], group.go 281-330;
    [formatMicroCentsAsDollars], 357-360) *)

Definition newline : string := String "010"%char EmptyString.
Definition dquote : string := String "034"%char EmptyString.
Definition backslash : string := String "092"%char EmptyString.

Definition hexDigit (n : N) : string :=
  String (ascii_of_N (if (n <? 10)%N then 48 + n else 87 + n)) EmptyString.

(** One byte under [%q].  Bytes from 128 on are taken to belong to valid
    printable UTF-8 and are copied. *)
Definition quoteByte (c : ascii) : string :=
  let n := N_of_ascii c in
  if (n =? 34)%N then String.append backslash dquote
  else if (n =? 92)%N then String.append backslash backslash
  else if (n =? 7)%N then String.append backslash "a"
  else if (n =? 8)%N then String.append backslash "b"
  else if (n =? 12)%N then String.append backslash "f"
  else if (n =? 10)%N then String.append backslash "n"
  else if (n =? 13)%N then String.append backslash "r"
  else if (n =? 9)%N then String.append backslash "t"
  else if (n =? 11)%N then String.append backslash "v"
  else if ((n <? 32) || (n =? 127))%N
       then String.append backslash
              (String.append "x" (String.append (hexDigit (n / 16))
                                                (hexDigit (n mod 16))))
  else String c EmptyString.

Fixpoint quoteBody (s : string) : string :=
  match s with
  | String c s' => String.append (quoteByte c) (quoteBody s')
  | EmptyString => EmptyString
  end.

(** [fmt.Sprintf("%q", s)] *)
Definition quote (s : string) : string :=
  String.append dquote (String.append (quoteBody s) dquote).

(** The nearest integer to [num / den], ties to even. *)
Definition roundHalfEven (num den : Z) : Z :=
  let q := num / den in
  match (2 * (num mod den)) ?= den with
  | Lt => q
  | Gt => q + 1
  | Eq => if Z.even q then q else q + 1
  end.

(** [m * 2^e] in hundredths, correctly rounded. *)
Definition hundredths (m : positive) (e : Z) : Z :=
  if 0 <=? e then Z.pos m * 2 ^ e * 100
  else roundHalfEven (Z.pos m * 100) (2 ^ (- e)).

Definition decimal (z : Z) : string := pretty z.

(** [fmt.Sprintf("%.2f", f)] *)
Definition formatFixed2 (f : float) : string :=
  match Prim2SF f with
  | S754_nan => "NaN"
  | S754_infinity false => "+Inf"
  | S754_infinity true => "-Inf"
  | S754_zero s => String.append (if s then "-" else "") "0.00"
  | S754_finite s m e =>
      let r := hundredths m e in
      String.append (if s then "-" else "")
        (String.append (decimal (r / 100))
           (String.append "."
              (String.append (decimal (r mod 100 / 10))
                             (decimal (r mod 10)))))
  end.

Definition formatMicroCentsAsDollars (micro : Z) : string :=
  let roundedCents := quot64 (add64 micro 500) 1000 in
  String.append "$"
    (formatFixed2 (PrimFloat.div (float64_of_int64 roundedCents) 100%float)).

(** [edgeSums[edgeKey{from, edge.To}] += amount] over the edges of [from]. *)
Definition addEdgeSums (from : string) (edges : list edge)
    (edgeSums : gmap (string * string) Z) : gmap (string * string) Z :=
  fold_left
    (fun sums ed =>
       let k := (from, To ed) in
       <[k := add64 (default 0 (sums !! k))
                    (AmountInMicroCents (Metadata ed))]> sums)
    edges edgeSums.

Definition edgeSumsOf (gr : graph) : gmap (string * string) Z :=
  fold_left (fun sums kv => addEdgeSums (fst kv) (snd kv) sums)
            (map_to_list (nodes gr)) ∅.

(** The comparison passed to [sort.Slice(keys, ...)]. *)
Definition edgeKeyLess (a b : string * string) : bool :=
  if String.eqb (fst a) (fst b) then String.ltb (snd a) (snd b)
  else String.ltb (fst a) (fst b).

Definition dotHeader (g : Group) : string :=
  String.append "digraph "
    (String.append (quote (group_Name g)) (String.append " {" newline)).

Definition dotFooter : string := String.append "}" newline.

(** [fmt.Fprintf(&b, "  %q [label=%q];\n", key, label)] *)
Definition nodeDecl (key label : string) : string :=
  String.append "  "
    (String.append (quote key)
       (String.append " [label="
          (String.append (quote label) (String.append "];" newline)))).

(** [fmt.Fprintf(&b, "  %q -> %q [label=%q];\n", k.from, k.to, label)] *)
Definition edgeDecl (from to label : string) : string :=
  String.append "  "
    (String.append (quote from)
       (String.append " -> "
          (String.append (quote to)
             (String.append " [label="
                (String.append (quote label) (String.append "];" newline)))))).

Definition concatStrings (l : list string) : string :=
  fold_right String.append EmptyString l.

Definition GetGraphDOT (g : Group) : string :=
  let names := sortStrings (keysOf (people g)) in
  let edgeSums := edgeSumsOf (group_graph g) in
  let keys := sortSlice edgeKeyLess (map fst (map_to_list edgeSums)) in
  String.append (dotHeader g)
    (String.append
       (concatStrings (map (fun key => nodeDecl key (displayName g key)) names))
       (String.append
          (concatStrings
             (map (fun k =>
                     let micro := default 0 (edgeSums !! k) in
                     if micro <=? 0 then EmptyString
                     else edgeDecl (fst k) (snd k)
                                   (formatMicroCentsAsDollars micro))
                  keys))
          dotFooter)).

(** ** The scenario of the specification: group "trip" of three members *)

Definition addPeople (g : Group) (names : list string) : Group :=
  fold_left (fun g name => fst (AddPerson g name)) names g.

Definition tripGroup : Group :=
  match NewGroup "trip" with
  | Ok g => addPeople g ["Alice"; "Bob"; "Charlie"]
  | Err _ => mkGroup "" (newGraph "") ∅ ∅ 0
  end.

Definition equalExpense (total : Z) (payer : string) : Expense :=
  mkExpense 0 total payer "show tickets" "equal" [] [].


(** ** Observations of a group used by the specification *)

(** The number of edges of the graph. *)
Definition edgeCount (gr : graph) : Z :=
  mapSum (fun es : list edge => Z.of_nat (length es)) (nodes gr).

(** The amounts of the edges of a slice that carry expense id [id]. *)
Definition amountsOfExpense (id : Z) (es : list edge) : Z :=
  foldr (fun ed acc =>
           if ExpenseID (Metadata ed) =? id
           then AmountInMicroCents (Metadata ed) + acc else acc) 0 es.

(** The sum of the amounts of all edges of the graph that carry [id]. *)
Definition expenseEdgeSum (gr : graph) (id : Z) : Z :=
  mapSum (amountsOfExpense id) (nodes gr).

(** ** Definitions used to state the properties *)

Ltac int64_lia := unfold in_int64, int64_min, int64_max in *; lia.

Definition equalShare (base rem i : Z) : Z :=
  if i <? rem then add64 base 1 else base.

(** The number of indices of [[i, i+n)] below [rem]. *)
Definition extras (rem i n : Z) : Z := Z.max 0 (Z.min rem (i + n) - i).

(** The claim of the specification about [splitEqual], for a total [T] and
    participants [names]. *)
Definition splitEqual_claim (T : Z) (names : list string) : Prop :=
  let n := Z.of_nat (length names) in
  (n <= 1 -> splitEqual T names = Err (InsufficientParticipants (length names)))
  /\ (2 <= n ->
      exists shares,
        splitEqual T names = Ok shares
        /\ dom shares = list_to_set names
        /\ (forall k, k ∈ names ->
              shares !! k
              = Some (if rank names k <? T mod n then T / n + 1 else T / n))
        /\ Z.of_nat (length (filter (fun k => shares !! k = Some (T / n + 1)) names))
           = T mod n
        /\ sumShares shares = T).

(** The exact sum of the floored raw shares. *)
Definition sumBases (items : list item) : Z :=
  foldr (fun it acc => item_base it + acc) 0 items.

Definition nonnegShares (shares : gmap string Z) : Prop :=
  map_Forall (fun _ v => 0 <= v) shares.

Definition negativeWeight (kv : string * float) : Prop :=
  PrimFloat.ltb (snd kv) 0%float = true.

Definition zeroWeight (kv : string * float) : Prop :=
  PrimFloat.eqb (snd kv) 0%float = true.

(** No floor is negative, and the floors together stay within the total. *)
Definition floorsWithin (T : Z) (items : list item) : Prop :=
  Forall (fun it => 0 <= item_base it) items /\ sumBases items <= T.


(** The test [math.Abs(sum-100.0) > 0.01] of the source. *)
Definition percentSumOff (perc : list (string * float)) : bool :=
  PrimFloat.ltb 0.01%float
    (PrimFloat.abs (PrimFloat.sub (sumValues perc) 100%float)).

(** What the edge loop adds for expense [id]: the share of every visited
    key other than the payer. *)
Definition owedSum (fromKeys : list string) (paidByKey : string)
    (shares : gmap string Z) : Z :=
  foldr (fun k acc =>
           (if String.eqb k paidByKey then 0 else default 0 (shares !! k)) + acc)
        0 fromKeys.

(** No edge of the graph carries expense id [id]. *)
Definition idUnused (gr : graph) (id : Z) : Prop :=
  map_Forall (fun _ es => Forall (fun ed => ExpenseID (Metadata ed) <> id) es)
             (nodes gr).

(** The claim of the specification: the edges of an ingested expense sum
    to its total. *)
Definition edgesSumToTotal (g : Group) (e : Expense) : Prop :=
  forall g' e',
    AddExpense g e = (g', e', None) ->
    expenseEdgeSum (group_graph g') (ID e') = TotalMicroCents e'.

Definition tripAfterEqual : Group * Expense * option Error :=
  AddExpense tripGroup (equalExpense 10000000 "Alice").

Definition tripAfterBadPercent : Group * Expense * option Error :=
  AddExpense (fst (fst tripAfterEqual))
    (mkExpense 0 5000000 "bob" "dinner" "percentage"
               [("Alice", 50%float); ("Bob", 40%float)] []).

(** The sign of a spec float that is not NaN. *)
Definition has_sign (s : bool) (f : spec_float) : Prop :=
  match f with
  | S754_zero s' | S754_infinity s' | S754_finite s' _ _ => s' = s
  | S754_nan => False
  end.

(** A float that is positive and not zero, of exponent at least [lo]. *)
Definition positive_from (lo : Z) (f : spec_float) : Prop :=
  f = S754_infinity false \/ exists m e, f = S754_finite false m e /\ lo <= e.

(** [float64(z) / 1000.0] *)
Definition centsOf (z : Z) : float :=
  PrimFloat.div (float64_of_int64 z) 1000%float.

Definition belowOneCent (z : Z) : bool := PrimFloat.ltb (centsOf z) 1%float.

Definition positiveDollars (z : Z) : bool :=
  PrimFloat.ltb 0%float (PrimFloat.div (centsOf z) 100%float).

(** The amounts of the edges of a slice that point to [to]. *)
Definition pairSum (es : list edge) (to : string) : Z :=
  foldr (fun ed acc =>
           if String.eqb (To ed) to
           then AmountInMicroCents (Metadata ed) + acc else acc) 0 es.

(** The exact sum of the amounts of the edges [from -> to]. *)
Definition pairTotal (gr : graph) (from to : string) : Z :=
  pairSum (edgesOf gr from) to.



(** ** Group size and member list ([Size], group.go 101-107; [GetPeople],
    265-277; [size], graph.go) *)

Definition Size (g : Group) : Z := Z.of_nat (size (people g)).

Definition graph_size (gr : graph) : Z := Z.of_nat (size (nodes gr)).

(** The comparison [strings.ToLower(x) < strings.ToLower(y)] that
    [GetPeople], [List] and [ListGroups] pass to [sort.Slice]. *)
Definition lowerLess (a b : string) : bool :=
  String.ltb (ToLower a) (ToLower b).

Definition GetPeople (g : Group) : list string :=
  sortSlice lowerLess
    (map (fun kv => person_Name (snd kv)) (map_to_list (people g))).

(** ** Histories of a group

    The groups that calls of [NewGroup], [AddPerson] and [AddExpense] can
    produce, whatever the calls return. *)

Inductive reachable : Group -> Prop :=
  | reachable_NewGroup name g :
      NewGroup name = Ok g -> reachable g
  | reachable_AddPerson g name g' err :
      reachable g -> AddPerson g name = (g', err) -> reachable g'
  | reachable_AddExpense g e g' e' err :
      reachable g -> AddExpense g e = (g', e', err) -> reachable g'.

(** ** Group store ([Create], [Get], [List], [ListGroups], [Delete])

    [groupMgr.store] maps a key to a pointer to a group.  The store of the
    model maps the key to the group the pointer refers to; a method called
    on a group obtained from the store mutates the group in the store
    ([updateGroup]). *)

Inductive CreateError : Type :=
  | GroupExists (name : string)
  | GroupRejected (e : Error).

Definition Create (store : gmap string Group) (name : string)
    : gmap string Group * (Group + CreateError) :=
  let displayName := TrimSpace name in
  let key := normalizeName displayName in
  match store !! key with
  | Some existing => (store, inr (GroupExists (group_Name existing)))
  | None =>
      match NewGroup displayName with
      | Err e => (store, inr (GroupRejected e))
      | Ok group => (<[key := group]> store, inl group)
      end
  end.

Definition Get (store : gmap string Group) (name : string) : option Group :=
  store !! normalizeName name.

Definition List (store : gmap string Group) : list string :=
  sortSlice lowerLess
    (map (fun kv => group_Name (snd kv)) (map_to_list store)).

Definition ListGroups (store : gmap string Group) : list Group :=
  sortSlice (fun a b => lowerLess (group_Name a) (group_Name b))
    (map snd (map_to_list store)).

Definition Delete (store : gmap string Group) (name : string)
    : gmap string Group * bool :=
  let name := TrimSpace name in
  if String.eqb name "" then (store, false)
  else
    let key := normalizeName name in
    match store !! key with
    | None => (store, false)
    | Some _ => (delete key store, true)
    end.

(** A method that mutates the group registered under [key]. *)
Definition updateGroup (store : gmap string Group) (key : string)
    (f : Group -> Group) : gmap string Group :=
  match store !! key with
  | Some g => <[key := f g]> store
  | None => store
  end.

(** The stores that calls of [Create] and [Delete] and of the methods of
    the registered groups can produce from the empty store of [init]. *)
Inductive storeReachable : gmap string Group -> Prop :=
  | storeReachable_init : storeReachable ∅
  | storeReachable_Create store name store' r :
      storeReachable store -> Create store name = (store', r) ->
      storeReachable store'
  | storeReachable_Delete store name store' deleted :
      storeReachable store -> Delete store name = (store', deleted) ->
      storeReachable store'
  | storeReachable_AddPerson store key name :
      storeReachable store ->
      storeReachable (updateGroup store key (fun g => fst (AddPerson g name)))
  | storeReachable_AddExpense store key e :
      storeReachable store ->
      storeReachable
        (updateGroup store key (fun g => fst (fst (AddExpense g e)))).

(** Every group of the store is registered under the key of its name. *)
Definition storeKeyed (store : gmap string Group) : Prop :=
  map_Forall
    (fun key g => key = normalizeName (group_Name g)
                  /\ groupNamePattern (group_Name g) = true
                  /\ reachable g)
    store.

(** The name of the group registered under [key]. *)
Definition groupNameAt (store : gmap string Group) (key : string) : string :=
  match store !! key with
  | Some g => group_Name g
  | None => key
  end.

(** ** Amount parser ([parseDollarsToMicroCents], with the add_expense tool)

    [strconv.ParseInt(s, 10, 64)] accepts an optional sign followed by one
    or more decimal digits whose value fits an [int64]; the function treats
    its syntax and its range error alike, and so does [None] here. *)

Definition mul64 (a b : Z) : Z := wrap64 (a * b).

Definition isDigit (c : ascii) : bool :=
  let n := N_of_ascii c in ((48 <=? n) && (n <=? 57))%N.

Definition digitValue (c : ascii) : Z := Z.of_N (N_of_ascii c) - 48.

(** The digit loop of [strconv.ParseUint], on unbounded integers. *)
Fixpoint parseDigits (s : string) (acc : Z) : option Z :=
  match s with
  | EmptyString => Some acc
  | String c s' =>
      if isDigit c then parseDigits s' (acc * 10 + digitValue c) else None
  end.

Definition ParseInt (s : string) : option Z :=
  match s with
  | EmptyString => None
  | String c rest =>
      let neg := Ascii.eqb c "-" in
      let body := if Ascii.eqb c "+" || neg then rest else s in
      match body with
      | EmptyString => None
      | String _ _ =>
          match parseDigits body 0 with
          | None => None
          | Some un =>
              if neg then (if un <=? 2 ^ 63 then Some (- un) else None)
              else (if un <? 2 ^ 63 then Some un else None)
          end
      end
  end.

(** [strings.SplitN(s, ".", 2)]: the text before the first dot and, when
    there is a dot, the text after it. *)
Fixpoint splitDot (s : string) : string * option string :=
  match s with
  | EmptyString => (EmptyString, None)
  | String c s' =>
      if Ascii.eqb c "." then (EmptyString, Some s')
      else let '(whole, frac) := splitDot s' in (String c whole, frac)
  end.

Inductive AmountError : Type :=
  | AmountEmpty
  | InvalidDollarAmount
  | TooManyDecimalPlaces
  | InvalidCents.

Definition parseDollarsToMicroCents (s : string) : Z + AmountError :=
  let s := TrimSpace s in
  if String.eqb s "" then inr AmountEmpty
  else
    let '(whole, fracPart) := splitDot s in
    match ParseInt whole with
    | None => inr InvalidDollarAmount
    | Some dollars =>
        if dollars <? 0 then inr InvalidDollarAmount
        else
          match fracPart with
          | None => inl (mul64 (add64 (mul64 dollars 100) 0) 1000)
          | Some frac =>
              if (2 <? String.length frac)%nat then inr TooManyDecimalPlaces
              else
                let frac := if (String.length frac =? 1)%nat
                            then String.append frac "0" else frac in
                match ParseInt frac with
                | None => inr InvalidCents
                | Some cents =>
                    inl (mul64 (add64 (mul64 dollars 100) cents) 1000)
                end
          end
    end.

(** ** Names

    Case analysis on the eight bits of a byte. *)
Ltac each_ascii c :=
  destruct c as [[|] [|] [|] [|] [|] [|] [|] [|]].

(** A byte of the ASCII range. *)
Definition isASCII (c : ascii) : bool := (N_of_ascii c <? 128)%N.

(** [s] begins with a white-space rune. *)
Definition headSpace (s : string) : bool :=
  match s with
  | String c1 s1 =>
      isSpace c1
      || match s1 with
         | String c2 s2 =>
             isSpaceRune (String c1 (String c2 EmptyString))
             || match s2 with
                | String c3 _ =>
                    isSpaceRune (String c1 (String c2 (String c3 EmptyString)))
                | EmptyString => false
                end
         | EmptyString => false
         end
  | EmptyString => false
  end.

(** Every member is registered under the key of its display name, and the
    display name is a trimmed name of the accepted form. *)
Definition membersCanonical (g : Group) : Prop :=
  map_Forall
    (fun key p =>
       normalizeName (person_Name p) = key
       /\ TrimSpace (person_Name p) = person_Name p
       /\ personNamePattern (person_Name p) = true)
    (people g).

(** Every edge joins two members, and no edge is a loop. *)
Definition edgesJoinMembers (g : Group) : Prop :=
  map_Forall
    (fun from es =>
       Forall (fun ed =>
                 is_Some (people g !! from)
                 /\ is_Some (people g !! To ed)
                 /\ To ed <> from) es)
    (nodes (group_graph g)).

(** Every edge carries the id of an expense of the log. *)
Definition edgeIdsLogged (g : Group) : Prop :=
  map_Forall
    (fun _ es =>
       Forall (fun ed => is_Some (expenses g !! ExpenseID (Metadata ed))) es)
    (nodes (group_graph g)).

(** The edge that the loop of lines 220-235 appends when it visits [k]. *)
Definition edgeFor (paidByKey : string) (shares : gmap string Z) (id : Z)
    (k : string) : list edge :=
  if String.eqb k paidByKey then []
  else match shares !! k with
       | Some owed => [mkEdge paidByKey (mkEdgeMetadata owed id)]
       | None => []
       end.

(** The edge that [AddExpense] appends to the edges of [k], if any. *)
Definition newEdgesOf (g : Group) (paidByKey : string)
    (shares : gmap string Z) (id : Z) (k : string) : list edge :=
  match people g !! k with
  | Some _ => edgeFor paidByKey shares id k
  | None => []
  end.

(** The errors [AddExpense] reports for a request it rejects. *)
Definition validationError (er : Error) : bool :=
  match er with
  | NonPositiveTotal | EmptyDescription | InvalidSplitMethod
  | InsufficientGroupSize | UnknownPayer | EmptySplitName
  | DuplicateSplitName _ | UnknownParticipant _ | PercentageSumMismatch _
  | NegativeWeight | NonPositiveWeightSum => true
  | _ => false
  end.

(** ** Largest-remainder distribution

    The number of iterations [t] of [i <= t < i + n] of the distribution
    loop that increment the share of the item at position [j] of a slice
    of length [len]. *)
Fixpoint hits (len i : Z) (n : nat) (j : Z) : Z :=
  match n with
  | O => 0
  | S n' => (if i mod len =? j then 1 else 0) + hits len (i + 1) n' j
  end.

(** The units that the item at position [j] of the sorted slice receives
    on top of its floor when [rem] units are left for [len] items. *)
Definition extraUnits (rem len j : Z) : Z :=
  rem / len + (if j <? rem mod len then 1 else 0).

(** [a] comes before [b] in the order of the distribution. *)
Definition itemBefore (a b : item) : Prop := itemLess a b = true.

(** The fractional part of an item is a number. *)
Definition fracIsNumber (it : item) : Prop :=
  PrimFloat.eqb (item_frac it) (item_frac it) = true.

(** The place of a float that is a number in the order of the floats:
    the comparison of two floats is the lexicographic comparison of their
    places. *)
Definition floatRank (f : spec_float) : Z * Z * Z :=
  match f with
  | S754_infinity true => (-2, 0, 0)
  | S754_finite true m e => (-1, - e, - Z.pos m)
  | S754_zero _ | S754_nan => (0, 0, 0)
  | S754_finite false m e => (1, e, Z.pos m)
  | S754_infinity false => (2, 0, 0)
  end.

Definition rankCompare (a b : Z * Z * Z) : comparison :=
  match fst (fst a) ?= fst (fst b) with
  | Eq => match snd (fst a) ?= snd (fst b) with
          | Eq => snd a ?= snd b
          | c => c
          end
  | c => c
  end.

Definition notNaN (f : spec_float) : Prop :=
  match f with S754_nan => False | _ => True end.

(** The lexicographic order of the places. *)
Definition rankLt (a b : Z * Z * Z) : Prop :=
  fst (fst a) < fst (fst b)
  \/ (fst (fst a) = fst (fst b)
      /\ (snd (fst a) < snd (fst b)
          \/ (snd (fst a) = snd (fst b) /\ snd a < snd b))).

(** The place of the fractional part of an item. *)
Definition fracRank (it : item) : Z * Z * Z := floatRank (Prim2SF (item_frac it)).

(** The bytes of a number, a dot and a sign are no spaces. *)
Definition amountByte (c : ascii) : bool :=
  isDigit c || Ascii.eqb c "." || Ascii.eqb c "-" || Ascii.eqb c "+".

(** A byte that [%q] copies unchanged. *)
Definition plainByte (c : ascii) : bool :=
  let n := N_of_ascii c in
  ((32 <=? n) && (n <? 127) && negb (n =? 34) && negb (n =? 92))%N.

(** The two digits of a number of cents below one hundred. *)
Definition twoDigits (c : Z) : string :=
  String.append (decimal (c / 10)) (decimal (c mod 10)).

(** The amount of [cents] in dollars, with two decimals. *)
Definition dollarsText (cents : Z) : string :=
  String.append (decimal (cents / 100))
    (String.append "." (twoDigits (cents mod 100))).

(** ** The keys of the settlements map

    The ordered pairs of distinct nodes, in the order in which the loops
    of [GetExpenseDetails] visit them. *)
Definition orderedPairs (g : Group) : list (string * string) :=
  let people := keysOf (nodes (group_graph g)) in
  flat_map
    (fun from =>
       flat_map (fun to => if String.eqb from to then [] else [(from, to)])
                people)
    people.

(** No two ordered pairs of distinct nodes have the same key
    ["<from> to pay <to>"]. *)
Definition settlementKeysDistinct (g : Group) : Prop :=
  NoDup (map (fun p => settlementKey g (fst p) (snd p)) (orderedPairs g)).

(** ** A group whose settlement keys collide

    Person names may contain spaces, so [x], [y to pay z], [x to pay y]
    and [z] are four members; the pairs [(x, y to pay z)] and
    [(x to pay y, z)] have the same key. *)
Definition weightsExpense (total : Z) (payer : string)
    (w : list (string * float)) : Expense :=
  mkExpense 0 total payer "dinner" "weights" [] w.

Definition pairsGroup : Group :=
  match NewGroup "trip" with
  | Ok g => addPeople g ["x"; "y to pay z"; "x to pay y"; "z"]
  | Err _ => mkGroup "" (newGraph "") ∅ ∅ 0
  end.

(** [x] owes [y to pay z] half of 100 dollars. *)
Definition pairsAfterFirst : Group * Expense * option Error :=
  AddExpense pairsGroup
    (weightsExpense 10000000 "y to pay z"
       [("x", 1%float); ("y to pay z", 1%float)]).

(** Then [z] owes [x to pay y] half of 60 dollars. *)
Definition pairsAfterSecond : Group * Expense * option Error :=
  AddExpense (fst (fst pairsAfterFirst))
    (weightsExpense 6000000 "x to pay y"
       [("z", 1%float); ("x to pay y", 1%float)]).

(** ** A group whose edge sums leave [int64]

    Two members, and twice an expense of [math.MaxInt64] micro-cents paid
    by [b] and split equally: [a] owes [b] [2^62] each time. *)
Definition twoGroup : Group :=
  match NewGroup "pair" with
  | Ok g => addPeople g ["a"; "b"]
  | Err _ => mkGroup "" (newGraph "") ∅ ∅ 0
  end.

Definition hugeAfterFirst : Group * Expense * option Error :=
  AddExpense twoGroup (equalExpense int64_max "b").

Definition hugeAfterSecond : Group * Expense * option Error :=
  AddExpense (fst (fst hugeAfterFirst)) (equalExpense int64_max "b").


(** * Facts about the embedding *)

(** ** Machine integers *)

Lemma wrap64_small z : in_int64 z -> wrap64 z = z.
Proof.
  unfold in_int64, int64_min, int64_max, wrap64. intros H.
  rewrite Z.mod_small; lia.
Qed.

Lemma wrap64_range z : in_int64 (wrap64 z).
Proof.
  unfold in_int64, int64_min, int64_max, wrap64.
  pose proof (Z.mod_pos_bound (z + 2 ^ 63) (2 ^ 64)). lia.
Qed.

(** ** Sorting *)

Section SortingFacts.
Context {A : Type} (less : A -> A -> bool).

Lemma insertSorted_perm x l : insertSorted less x l ≡ₚ x :: l.
Proof.
  induction l as [|y l IH]; simpl; [done|].
  destruct (less x y); [done|].
  rewrite IH. apply perm_swap.
Qed.

Lemma sortSlice_perm l : sortSlice less l ≡ₚ l.
Proof.
  induction l as [|x l IH]; simpl; [done|].
  rewrite insertSorted_perm. by rewrite IH.
Qed.

Hypothesis less_trans :
  forall a b c, less a b = true -> less b c = true -> less a c = true.
Hypothesis less_total :
  forall a b, a <> b -> less a b = true \/ less b a = true.

Lemma insertSorted_sorted x l :
  x ∉ l ->
  StronglySorted (fun a b => less a b = true) l ->
  StronglySorted (fun a b => less a b = true) (insertSorted less x l).
Proof.
  induction 2 as [|y l Hs IH Hy]; simpl.
  - repeat constructor.
  - destruct (less x y) eqn:Hxy.
    + constructor; [by constructor|].
      constructor; [done|].
      eapply Forall_impl; [exact Hy|]. intros z Hz. by eapply less_trans.
    + assert (less y x = true) as Hyx.
      { destruct (less_total x y) as [?|?]; [set_solver|congruence|done]. }
      constructor; [apply IH; set_solver|].
      rewrite insertSorted_perm. by constructor.
Qed.

Lemma sortSlice_sorted l :
  NoDup l -> StronglySorted (fun a b => less a b = true) (sortSlice less l).
Proof.
  induction 1 as [|x l Hx Hl IH]; simpl; [constructor|].
  apply insertSorted_sorted; [|done].
  by rewrite sortSlice_perm.
Qed.
End SortingFacts.

(** ** The byte-wise order of strings *)

Lemma ascii_compare_refl c : Ascii.compare c c = Eq.
Proof. unfold Ascii.compare. apply N.compare_refl. Qed.

Lemma string_compare_refl s : String.compare s s = Eq.
Proof. induction s as [|c s IH]; simpl; [done|]. by rewrite ascii_compare_refl. Qed.

Lemma string_compare_lt_trans s1 s2 s3 :
  String.compare s1 s2 = Lt -> String.compare s2 s3 = Lt ->
  String.compare s1 s3 = Lt.
Proof.
  revert s2 s3. induction s1 as [|c1 s1 IH]; intros [|c2 s2] [|c3 s3]; simpl;
    try done.
  unfold Ascii.compare.
  destruct (N.compare_spec (N_of_ascii c1) (N_of_ascii c2)) as [E12|L12|G12];
    try done;
  destruct (N.compare_spec (N_of_ascii c2) (N_of_ascii c3)) as [E23|L23|G23];
    try done; intros H12 H23.
  - rewrite E12, E23, N.compare_refl. eauto.
  - rewrite E12. by apply N.compare_lt_iff in L23 as ->.
  - rewrite <- E23. by apply N.compare_lt_iff in L12 as ->.
  - assert (N_of_ascii c1 < N_of_ascii c3)%N as L by lia.
    by apply N.compare_lt_iff in L as ->.
Qed.

Lemma string_ltb_irrefl s : String.ltb s s = false.
Proof. unfold String.ltb. by rewrite string_compare_refl. Qed.

Lemma string_ltb_trans a b c :
  String.ltb a b = true -> String.ltb b c = true -> String.ltb a c = true.
Proof.
  unfold String.ltb. intros Hab Hbc.
  destruct (String.compare a b) eqn:E1; try done.
  destruct (String.compare b c) eqn:E2; try done.
  by rewrite (string_compare_lt_trans _ _ _ E1 E2).
Qed.

Lemma string_ltb_total a b :
  a <> b -> String.ltb a b = true \/ String.ltb b a = true.
Proof.
  intros Hne. unfold String.ltb.
  rewrite (String.compare_antisym b a).
  destruct (String.compare a b) eqn:E; simpl; auto.
  by apply String.compare_eq_iff in E.
Qed.

Lemma string_ltb_asym a b : String.ltb a b = true -> String.ltb b a = false.
Proof.
  intros Hab. destruct (String.ltb b a) eqn:Hba; [|done].
  by rewrite <- (string_ltb_irrefl a), (string_ltb_trans _ _ _ Hab Hba).
Qed.

Lemma sortStrings_perm names : sortStrings names ≡ₚ names.
Proof. apply sortSlice_perm. Qed.

Lemma sortStrings_sorted names :
  NoDup names ->
  StronglySorted (fun a b => String.ltb a b = true) (sortStrings names).
Proof.
  apply sortSlice_sorted; [apply string_ltb_trans|apply string_ltb_total].
Qed.


(** ** Share maps *)

Section MapSum.
Context `{Countable K} {V : Type} (f : V -> Z).

Lemma mapSum_empty : mapSum f (∅ : gmap K V) = 0.
Proof. unfold mapSum. by rewrite map_fold_empty. Qed.

Lemma mapSum_insert (m : gmap K V) k v :
  m !! k = None -> mapSum f (<[k := v]> m) = f v + mapSum f m.
Proof.
  intros Hk. unfold mapSum.
  rewrite map_fold_insert_L; [done| |done]. intros. lia.
Qed.

Lemma mapSum_delete (m : gmap K V) k v :
  m !! k = Some v -> mapSum f m = f v + mapSum f (delete k m).
Proof.
  intros Hk. rewrite <- (insert_id m k v Hk) at 1.
  rewrite <- insert_delete_eq. apply mapSum_insert, lookup_delete_eq.
Qed.

Lemma mapSum_insert_Some (m : gmap K V) k v w :
  m !! k = Some w -> mapSum f (<[k := v]> m) = f v - f w + mapSum f m.
Proof.
  intros Hk. rewrite <- (insert_delete_eq m k v).
  rewrite mapSum_insert by apply lookup_delete_eq.
  rewrite (mapSum_delete m k w Hk). lia.
Qed.
End MapSum.

Lemma sumShares_empty : sumShares ∅ = 0.
Proof. apply mapSum_empty. Qed.

Lemma sumShares_insert (m : gmap string Z) k v :
  m !! k = None -> sumShares (<[k := v]> m) = v + sumShares m.
Proof. apply mapSum_insert. Qed.

Lemma sumShares_insert_Some (m : gmap string Z) k v w :
  m !! k = Some w -> sumShares (<[k := v]> m) = v - w + sumShares m.
Proof. apply (mapSum_insert_Some (fun v => v)). Qed.

Lemma sumShares_delete (m : gmap string Z) k v :
  m !! k = Some v -> sumShares m = v + sumShares (delete k m).
Proof. apply (mapSum_delete (fun v => v)). Qed.

(** ** Ranks in a sorted list *)

Lemma rank_nil k : rank [] k = 0.
Proof. done. Qed.

Lemma rank_cons x l k :
  rank (x :: l) k = (if String.ltb x k then 1 else 0) + rank l k.
Proof.
  unfold rank. rewrite filter_cons.
  destruct (String.ltb x k); case_decide; try done; simpl; lia.
Qed.

Lemma rank_perm l l' k : l ≡ₚ l' -> rank l k = rank l' k.
Proof. intros H. unfold rank. by rewrite H. Qed.

Lemma rank_nonneg l k : 0 <= rank l k.
Proof. unfold rank. lia. Qed.

Lemma rank_all_greater l k :
  Forall (fun y => String.ltb k y = true) l -> rank l k = 0.
Proof.
  induction 1 as [|y l Hy _ IH]; [done|].
  rewrite rank_cons, IH. by rewrite (string_ltb_asym _ _ Hy).
Qed.

Lemma rank_sorted_lookup l (j : nat) k :
  StronglySorted (fun a b => String.ltb a b = true) l ->
  l !! j = Some k -> rank l k = Z.of_nat j.
Proof.
  intros Hs. revert j. induction Hs as [|x l Hs IH Hx]; intros j Hj; [done|].
  rewrite rank_cons. destruct j as [|j]; simpl in Hj.
  - injection Hj as ->. rewrite string_ltb_irrefl, rank_all_greater; done.
  - rewrite (IH _ Hj).
    rewrite Forall_forall in Hx. rewrite (Hx k); [lia|].
    by eapply list_elem_of_lookup_2.
Qed.

(** ** [splitEqual] *)

Lemma assignEqual_lookup_notin base rem i l (acc : gmap string Z) k :
  k ∉ l -> assignEqual base rem i l acc !! k = acc !! k.
Proof.
  revert i acc. induction l as [|p l IH]; intros i acc Hk; simpl; [done|].
  rewrite IH by set_solver. apply lookup_insert_ne. set_solver.
Qed.

Lemma assignEqual_lookup base rem i l (acc : gmap string Z) (j : nat) k :
  NoDup l -> l !! j = Some k ->
  assignEqual base rem i l acc !! k = Some (equalShare base rem (i + Z.of_nat j)).
Proof.
  intros Hnd. revert i acc j.
  induction Hnd as [|p l Hp Hnd IH]; intros i acc j Hj; [done|].
  simpl. destruct j as [|j]; simpl in Hj.
  - injection Hj as ->. rewrite assignEqual_lookup_notin by done.
    rewrite lookup_insert_eq. unfold equalShare. by rewrite Z.add_0_r.
  - rewrite (IH _ _ _ Hj). f_equal. f_equal. lia.
Qed.

Lemma assignEqual_dom base rem i l (acc : gmap string Z) :
  dom (assignEqual base rem i l acc) = list_to_set l ∪ dom acc.
Proof.
  revert i acc. induction l as [|p l IH]; intros i acc; simpl.
  - set_solver.
  - rewrite IH, dom_insert_L. set_solver.
Qed.

Lemma assignEqual_sum base rem i l (acc : gmap string Z) :
  add64 base 1 = base + 1 ->
  NoDup l -> (forall k, k ∈ l -> acc !! k = None) ->
  sumShares (assignEqual base rem i l acc)
  = sumShares acc + Z.of_nat (length l) * base + extras rem i (Z.of_nat (length l)).
Proof.
  intros Hb Hnd. revert i acc.
  induction Hnd as [|p l Hp Hnd IH]; intros i acc Hacc.
  - simpl. unfold extras. lia.
  - cbn [assignEqual]. rewrite IH.
    + rewrite sumShares_insert by (apply Hacc; set_solver).
      rewrite Hb. unfold extras. cbn [length].
      destruct (i <? rem) eqn:Hi; lia.
    + intros k Hk. rewrite lookup_insert_ne by set_solver. apply Hacc. set_solver.
Qed.

Lemma filter_ext_elem_of {A} (P1 P2 : A -> Prop)
    `{!forall x, Decision (P1 x), !forall x, Decision (P2 x)} (l : list A) :
  (forall x, x ∈ l -> P1 x <-> P2 x) -> filter P1 l = filter P2 l.
Proof.
  induction l as [|a l IH]; intros Hext; [done|].
  rewrite !filter_cons.
  rewrite IH by (intros x Hx; apply Hext; by right).
  assert (P1 a <-> P2 a) as Ha by (apply Hext; by left).
  repeat case_decide; tauto.
Qed.

Lemma count_index_below (f : string -> Z) (s : list string) (off r : Z) :
  (forall (j : nat) k, s !! j = Some k -> f k = off + Z.of_nat j) ->
  Z.of_nat (length (filter (fun k => f k < r) s))
  = Z.max 0 (Z.min (r - off) (Z.of_nat (length s))).
Proof.
  revert off. induction s as [|x s IH]; intros off Hf.
  - simpl. lia.
  - rewrite filter_cons.
    pose proof (Hf 0%nat x eq_refl) as Hx. simpl in Hx.
    assert (forall (j : nat) k, s !! j = Some k -> f k = (off + 1) + Z.of_nat j) as Hf'.
    { intros j k Hj. rewrite (Hf (S j) k Hj). lia. }
    specialize (IH _ Hf').
    case_decide; cbn [length]; lia.
Qed.

(** The keys of rank below [r] are the first [r] of the sorted list. *)
Lemma count_rank_below (l : list string) (r : Z) :
  NoDup l -> 0 <= r <= Z.of_nat (length l) ->
  Z.of_nat (length (filter (fun k => rank l k < r) l)) = r.
Proof.
  intros Hnd Hr.
  pose proof (sortStrings_perm l) as Hp.
  pose proof (sortStrings_sorted l Hnd) as Hs.
  assert (length (filter (fun k => rank l k < r) l)
          = length (filter (fun k => rank l k < r) (sortStrings l))) as ->
    by (by rewrite Hp).
  rewrite (count_index_below (rank l) (sortStrings l) 0 r).
  - rewrite Hp. lia.
  - intros j k Hj. rewrite <- (rank_perm _ _ k Hp).
    rewrite (rank_sorted_lookup _ _ _ Hs Hj). lia.
Qed.

Lemma splitEqual_small total names :
  (length names <= 1)%nat ->
  splitEqual total names = Err (InsufficientParticipants (length names)).
Proof.
  intros H. unfold splitEqual.
  destruct (Z.of_nat (length names) <=? 1) eqn:E; [done|lia].
Qed.

Lemma splitEqual_shares (T : Z) (names : list string) :
  in_int64 T -> 0 <= T -> NoDup names -> splitEqual_claim T names.
Proof.
  intros HT Hpos Hnd. unfold splitEqual_claim. cbv zeta.
  set (n := Z.of_nat (length names)).
  split.
  { intros Hn. apply splitEqual_small. lia. }
  intros Hn.
  assert (0 <= T / n) as Hdiv0 by (apply Z.div_pos; lia).
  assert (T / n <= T / 2) as Hdiv2 by (apply Z.div_le_compat_l; lia).
  assert (T / 2 <= T) as Hhalf by (apply Z.div_le_upper_bound; lia).
  assert (T / 2 < int64_max) as Hmax.
  { unfold in_int64, int64_max in *. apply Z.div_lt_upper_bound; lia. }
  assert (quot64 T n = T / n) as Hq.
  { unfold quot64. rewrite Z.quot_div_nonneg by lia.
    apply wrap64_small. unfold in_int64, int64_min, int64_max in *. lia. }
  assert (rem64 T n = T mod n) as Hr.
  { unfold rem64. apply Z.rem_mod_nonneg; lia. }
  assert (0 <= T mod n < n) as Hmod by (apply Z.mod_pos_bound; lia).
  assert (add64 (T / n) 1 = T / n + 1) as Hadd.
  { unfold add64. apply wrap64_small.
    unfold in_int64, int64_min, int64_max in *. lia. }
  pose proof (sortStrings_perm names) as Hp.
  pose proof (sortStrings_sorted names Hnd) as Hs.
  assert (NoDup (sortStrings names)) as Hnd' by by rewrite Hp.
  exists (assignEqual (T / n) (T mod n) 0 (sortStrings names) ∅).
  assert (forall k, k ∈ names ->
            assignEqual (T / n) (T mod n) 0 (sortStrings names) ∅ !! k
            = Some (if rank names k <? T mod n then T / n + 1 else T / n)) as Hlook.
  { intros k Hk. rewrite <- Hp in Hk.
    apply list_elem_of_lookup_1 in Hk as [j Hj].
    rewrite (assignEqual_lookup _ _ _ _ _ j k Hnd' Hj).
    rewrite <- (rank_perm _ _ k Hp), (rank_sorted_lookup _ _ _ Hs Hj).
    unfold equalShare. rewrite Hadd, Z.add_0_l. done. }
  split; [|split; [|split; [|split]]].
  - unfold splitEqual. fold n.
    destruct (n <=? 1) eqn:E; [lia|]. by rewrite Hq, Hr.
  - rewrite assignEqual_dom, dom_empty_L, union_empty_r_L.
    apply set_eq. intros k. by rewrite !elem_of_list_to_set, Hp.
  - exact Hlook.
  - transitivity (Z.of_nat (length (filter (fun k => rank names k < T mod n) names)));
      [|apply count_rank_below; [done|fold n; lia]].
    f_equal. f_equal. apply filter_ext_elem_of. intros k Hk.
    rewrite (Hlook k Hk). destruct (rank names k <? T mod n) eqn:E.
    + split; [lia|done].
    + split; [|lia]. intros [=]. lia.
  - rewrite assignEqual_sum; [|done|done|done].
    rewrite sumShares_empty, Hp. fold n. unfold extras.
    pose proof (Z.div_mod T n). lia.
Qed.

(** C2, as amended: for every total [0 <= T] and every list of [n >= 2]
    distinct participant keys, [splitEqual] returns a share map over exactly
    these keys in which a key receives [T div n + 1] when fewer than
    [T mod n] keys are lexicographically smaller, and [T div n] otherwise;
    exactly [T mod n] keys receive the larger share and the shares sum to
    [T].  For [n <= 1] it fails with [InsufficientParticipants]. *)
Theorem splitEqual_correct (T : Z) (names : list string) :
  in_int64 T -> 0 <= T -> NoDup names -> splitEqual_claim T names.
Proof. apply splitEqual_shares. Qed.


(** ** Floating-point zeros *)

Lemma float_eqb_zero x :
  PrimFloat.eqb x 0%float = true -> x = 0%float \/ x = (-0)%float.
Proof.
  rewrite FloatAxioms.eqb_spec. intros H.
  rewrite <- (SF2Prim_Prim2SF x).
  destruct (Prim2SF x) as [[]|[]| |[] m e]; try discriminate H; auto.
Qed.

Lemma float_add_zeros a x :
  a = 0%float \/ a = (-0)%float ->
  PrimFloat.eqb x 0%float = true ->
  PrimFloat.add a x = 0%float \/ PrimFloat.add a x = (-0)%float.
Proof.
  intros Ha Hx. apply float_eqb_zero in Hx.
  destruct Ha as [->| ->], Hx as [->| ->]; auto.
Qed.

Lemma sumValues_zeros (w : list (string * float)) a :
  a = 0%float \/ a = (-0)%float ->
  Forall (fun kv => PrimFloat.eqb (snd kv) 0%float = true) w ->
  PrimFloat.leb (fold_left (fun sum kv => PrimFloat.add sum (snd kv)) w a) 0%float
  = true.
Proof.
  intros Ha Hw. revert a Ha. induction Hw as [|kv w Hkv _ IH]; intros a Ha; simpl.
  - by destruct Ha as [->| ->].
  - apply IH. by apply float_add_zeros.
Qed.

(** ** Largest-remainder distribution *)

Lemma sumShares_nonneg shares : nonnegShares shares -> 0 <= sumShares shares.
Proof.
  unfold nonnegShares.
  induction shares as [|k v m Hk IH] using map_ind; intros H.
  - by rewrite sumShares_empty.
  - rewrite sumShares_insert by done.
    apply map_Forall_insert in H as [Hv Hm]; [|done].
    specialize (IH Hm). lia.
Qed.

Lemma sumShares_lookup_le shares k v :
  nonnegShares shares -> shares !! k = Some v -> v <= sumShares shares.
Proof.
  intros Hnn Hk.
  rewrite (sumShares_delete _ _ _ Hk).
  assert (0 <= sumShares (delete k shares)); [|lia].
  apply sumShares_nonneg. intros j w Hj.
  apply lookup_delete_Some in Hj as [_ Hj]. by apply (Hnn j).
Qed.

Lemma sumBases_perm l l' : l ≡ₚ l' -> sumBases l = sumBases l'.
Proof.
  unfold sumBases. induction 1; simpl; lia.
Qed.

Lemma sumBases_nonneg items :
  Forall (fun it => 0 <= item_base it) items -> 0 <= sumBases items.
Proof.
  induction 1 as [|it items Hit _ IH]; simpl; [done|].
  fold (sumBases items). lia.
Qed.

Lemma usedOf_exact_acc items acc :
  Forall (fun it => 0 <= item_base it) items ->
  0 <= acc -> acc + sumBases items <= int64_max ->
  fold_left (fun used it => add64 used (item_base it)) items acc
  = acc + sumBases items.
Proof.
  intros Hnn. revert acc. induction Hnn as [|it items Hit Hnn IH]; intros acc Hacc Hle.
  - simpl. lia.
  - cbn [fold_left sumBases foldr] in *. fold (sumBases items) in *.
    assert (0 <= sumBases items) by by apply sumBases_nonneg.
    assert (add64 acc (item_base it) = acc + item_base it) as ->.
    { apply wrap64_small. unfold in_int64, int64_min, int64_max in *. lia. }
    rewrite IH; lia.
Qed.

Lemma usedOf_exact items :
  Forall (fun it => 0 <= item_base it) items ->
  sumBases items <= int64_max ->
  usedOf items = sumBases items.
Proof.
  intros Hnn Hle. unfold usedOf. rewrite usedOf_exact_acc by (done || lia). lia.
Qed.

Lemma baseShares_acc items (acc : gmap string Z) :
  NoDup (map item_name items) ->
  (forall it, it ∈ items -> acc !! item_name it = None) ->
  let shares := fold_left (fun shares it => <[item_name it := item_base it]> shares)
                          items acc in
  dom shares = list_to_set (map item_name items) ∪ dom acc
  /\ sumShares shares = sumShares acc + sumBases items
  /\ (forall it, it ∈ items -> shares !! item_name it = Some (item_base it))
  /\ (forall k, k ∉ map item_name items -> shares !! k = acc !! k).
Proof.
  revert acc. induction items as [|it items IH]; intros acc Hnd Hacc; cbn zeta.
  - simpl. split_and!; [set_solver|lia|by intros ? ?%elem_of_nil|done].
  - cbn [fold_left]. apply NoDup_cons in Hnd as [Hit Hnd].
    destruct (IH (<[item_name it := item_base it]> acc) Hnd) as (Hd & Hs & Hl & Ho).
    { intros it' Hit'. rewrite lookup_insert_ne; [apply Hacc; by right|].
      intros Heq. apply Hit. rewrite Heq. apply list_elem_of_fmap. eauto. }
    split_and!.
    + rewrite Hd, dom_insert_L. set_solver.
    + rewrite Hs, sumShares_insert by (apply Hacc; by left).
      cbn [sumBases foldr]. fold (sumBases items). lia.
    + intros it' [->|Hit']%elem_of_cons; [|by apply Hl].
      rewrite Ho by done. apply lookup_insert_eq.
    + intros k Hk. apply not_elem_of_cons in Hk as [Hne Hk].
      rewrite Ho by done. by apply lookup_insert_ne.
Qed.

Lemma baseShares_spec items :
  NoDup (map item_name items) ->
  dom (baseShares items) = list_to_set (map item_name items)
  /\ sumShares (baseShares items) = sumBases items
  /\ (forall it, it ∈ items -> baseShares items !! item_name it = Some (item_base it)).
Proof.
  intros Hnd.
  destruct (baseShares_acc items ∅ Hnd) as (Hd & Hs & Hl & _); [done|].
  unfold baseShares. rewrite Hd, Hs, sumShares_empty, dom_empty_L.
  split_and!; [set_solver|lia|done].
Qed.

Lemma distribute_ok items n i shares :
  items <> [] -> exists shares', distribute items n i shares = Ok shares'.
Proof.
  intros Hne. revert i shares. induction n as [|n IH]; intros i shares; simpl.
  - eauto.
  - destruct items as [|d items']; [done|]. apply IH.
Qed.

Lemma distribute_spec items n i shares :
  items <> [] -> 0 <= i ->
  (forall it, it ∈ items -> is_Some (shares !! item_name it)) ->
  nonnegShares shares ->
  sumShares shares + Z.of_nat n <= int64_max ->
  exists shares',
    distribute items n i shares = Ok shares'
    /\ dom shares' = dom shares
    /\ sumShares shares' = sumShares shares + Z.of_nat n
    /\ nonnegShares shares'.
Proof.
  intros Hne. revert i shares.
  induction n as [|n IH]; intros i shares Hi Hin Hnn Hmax; simpl.
  - exists shares. split_and!; [done|done|lia|done].
  - destruct items as [|d items'] eqn:Hitems; [done|]. rewrite <- Hitems in *.
    set (idx := Z.to_nat (rem64 i (Z.of_nat (length items)))).
    assert (nth idx items d ∈ items) as Hmem.
    { apply list_elem_of_In, nth_In. unfold idx, rem64.
      assert (0 < Z.of_nat (length items)) by (rewrite Hitems; simpl; lia).
      pose proof (Z.rem_bound_pos i (Z.of_nat (length items))). lia. }
    destruct (Hin _ Hmem) as [v Hv]. rewrite Hv. cbn [default from_option id].
    pose proof (Hnn _ _ Hv) as Hv0. cbn beta in Hv0.
    pose proof (sumShares_lookup_le _ _ _ Hnn Hv) as Hvle.
    assert (add64 v 1 = v + 1) as ->.
    { apply wrap64_small. unfold in_int64, int64_min, int64_max in *. lia. }
    destruct (IH (i + 1) (<[item_name (nth idx items d) := v + 1]> shares))
      as (shares' & Heq & Hd & Hs & Hnn').
    + lia.
    + intros it Hit. rewrite lookup_insert. case_decide; [eauto|by apply Hin].
    + apply map_Forall_insert_2; [lia|done].
    + rewrite (sumShares_insert_Some _ _ _ v) by done. lia.
    + exists shares'. rewrite Heq. split_and!; [done| | |done].
      * rewrite Hd. rewrite dom_insert_L.
        assert (item_name (nth idx items d) ∈ dom shares) by (apply elem_of_dom; eauto).
        set_solver.
      * rewrite Hs, (sumShares_insert_Some _ _ _ v) by done. lia.
Qed.

Lemma baseShares_nonneg items :
  NoDup (map item_name items) ->
  Forall (fun it => 0 <= item_base it) items ->
  nonnegShares (baseShares items).
Proof.
  intros Hnd Hnn k v Hk.
  destruct (baseShares_spec items Hnd) as (Hd & _ & Hl).
  assert (k ∈ dom (baseShares items)) as Hdom by (apply elem_of_dom; eauto).
  rewrite Hd, elem_of_list_to_set in Hdom.
  apply list_elem_of_fmap in Hdom as (it & -> & Hit).
  rewrite (Hl _ Hit) in Hk. injection Hk as <-.
  rewrite Forall_forall in Hnn. by apply Hnn.
Qed.

(** The shares sum to the total as soon as no floor is negative and the
    floors together do not exceed the total. *)
Lemma largestRemainder_sum T items :
  in_int64 T -> items <> [] ->
  NoDup (map item_name items) ->
  Forall (fun it => 0 <= item_base it) items ->
  sumBases items <= T ->
  exists shares,
    largestRemainder T items = Ok shares
    /\ dom shares = list_to_set (map item_name items)
    /\ sumShares shares = T
    /\ nonnegShares shares.
Proof.
  intros HT Hne Hnd Hnn Hle. unfold largestRemainder.
  pose proof (sortSlice_perm itemLess items) as Hp.
  set (sorted := sortSlice itemLess items) in *.
  assert (NoDup (map item_name sorted)) as Hnd' by by rewrite Hp.
  assert (Forall (fun it => 0 <= item_base it) sorted) as Hnn' by by rewrite Hp.
  assert (sorted <> []) as Hne'.
  { intros E. rewrite E in Hp. by apply Permutation_nil_l in Hp. }
  assert (0 <= sumBases items) as H0 by by apply sumBases_nonneg.
  rewrite usedOf_exact by (done || int64_lia).
  assert (sub64 T (sumBases items) = T - sumBases items) as ->.
  { apply wrap64_small. unfold in_int64, int64_min, int64_max in *. lia. }
  destruct (baseShares_spec sorted Hnd') as (Hd & Hs & Hl).
  destruct (distribute_spec sorted (Z.to_nat (T - sumBases items)) 0
              (baseShares sorted)) as (shares & Heq & Hd' & Hs' & Hnn'');
    [done|lia| |by apply baseShares_nonneg| |].
  - intros it Hit. rewrite (Hl _ Hit). eauto.
  - rewrite Hs, (sumBases_perm _ _ Hp). unfold in_int64 in HT. lia.
  - exists shares. split_and!; [done| | |done].
    + rewrite Hd', Hd. apply set_eq. intros k.
      by rewrite !elem_of_list_to_set, Hp.
    + rewrite Hs', Hs, (sumBases_perm _ _ Hp). lia.
Qed.

Lemma largestRemainder_ok T items :
  items <> [] -> exists shares, largestRemainder T items = Ok shares.
Proof.
  intros Hne. unfold largestRemainder. apply distribute_ok.
  intros E. pose proof (sortSlice_perm itemLess items) as Hp.
  rewrite E in Hp. by apply Permutation_nil_l in Hp.
Qed.

(** Whatever the floors are, the result has an entry for exactly the items. *)
Lemma distribute_dom items n i shares shares' :
  (forall it, it ∈ items -> is_Some (shares !! item_name it)) ->
  distribute items n i shares = Ok shares' -> dom shares' = dom shares.
Proof.
  revert i shares. induction n as [|n IH]; intros i shares Hin; simpl.
  - by intros [= ->].
  - destruct items as [|d items'] eqn:Hitems; [done|]. rewrite <- Hitems in *.
    set (idx := Z.to_nat (rem64 i (Z.of_nat (length items)))).
    intros Heq. apply IH in Heq.
    + rewrite Heq, dom_insert_L.
      assert (nth idx items d ∈ items) as Hmem.
      { destruct (nth_in_or_default idx items d) as [?| ->]; [by apply list_elem_of_In|].
        rewrite Hitems. by left. }
      assert (item_name (nth idx items d) ∈ dom shares)
        by (apply elem_of_dom; eauto).
      set_solver.
    + intros it Hit. rewrite lookup_insert. case_decide; [eauto|by apply Hin].
Qed.

Lemma largestRemainder_dom T items shares :
  NoDup (map item_name items) ->
  largestRemainder T items = Ok shares ->
  dom shares = list_to_set (map item_name items).
Proof.
  intros Hnd. unfold largestRemainder.
  pose proof (sortSlice_perm itemLess items) as Hp.
  set (sorted := sortSlice itemLess items) in *.
  assert (NoDup (map item_name sorted)) as Hnd' by by rewrite Hp.
  destruct (baseShares_spec sorted Hnd') as (Hd & Hs & Hl).
  intros Heq. apply distribute_dom in Heq.
  - rewrite Heq, Hd. apply set_eq. intros k.
    by rewrite !elem_of_list_to_set, Hp.
  - intros it Hit. rewrite (Hl _ Hit). eauto.
Qed.


(** ** [splitByWeights] *)


Lemma sumWeights_nonnegative w sumW :
  Forall (fun kv => ~ negativeWeight kv) w ->
  sumWeights w sumW
  = Ok (fold_left (fun sum kv => PrimFloat.add sum (snd kv)) w sumW).
Proof.
  intros H. revert sumW. induction H as [|[k v] w Hkv _ IH]; intros sumW; simpl.
  - done.
  - unfold negativeWeight in Hkv. simpl in Hkv.
    destruct (PrimFloat.ltb v 0); [done|apply IH].
Qed.

Lemma weightItems_names T sumW w :
  map item_name (weightItems T sumW w)
  = map fst (filter (fun kv => PrimFloat.eqb (snd kv) 0%float = false) w).
Proof.
  unfold weightItems. rewrite map_map. by apply map_ext.
Qed.

Lemma NoDup_map_fst_filter {A B} (P : A * B -> Prop) `{!forall x, Decision (P x)}
    (l : list (A * B)) :
  NoDup (map fst l) -> NoDup (map fst (filter P l)).
Proof.
  induction l as [|x l IH]; [done|].
  cbn [map]. intros [Hx Hl]%NoDup_cons. rewrite filter_cons.
  case_decide; [|by apply IH]. cbn [map]. apply NoDup_cons. split; [|by apply IH].
  intros Hin. apply Hx.
  apply list_elem_of_fmap in Hin as (y & -> & Hy).
  apply list_elem_of_fmap. exists y. split; [done|].
  by apply list_elem_of_filter in Hy as [_ ?].
Qed.




Lemma splitEqual_correct_witness : splitEqual_claim 10 ["carol"; "alice"; "bob"].
Proof.
  apply (splitEqual_correct 10 ["carol"; "alice"; "bob"]).
  - unfold in_int64, int64_min, int64_max. lia.
  - lia.
  - compute_done.
Defined.

(** C2 as stated fails for a negative total: the three shares of -7 are
    -2 each and sum to -6. *)
Lemma splitEqual_negative_total : ~ splitEqual_claim (-7) ["a"; "b"; "c"].
Proof.
  intros [_ H]. destruct H as (shares & Heq & _ & _ & _ & Hsum); [simpl; lia|].
  injection Heq as <-. vm_compute in Hsum. discriminate Hsum.
Qed.



(** ** [splitByPercent] *)

Lemma percentItems_nonempty T perc :
  percentSumOff perc = false -> percentItems T perc <> [].
Proof.
  destruct perc as [|kv perc]; [discriminate|]. done.
Qed.

Lemma splitByPercent_Err T perc e :
  splitByPercent T perc = Err e ->
  percentSumOff perc = true /\ e = PercentageSumMismatch (sumValues perc).
Proof.
  unfold splitByPercent. fold (percentSumOff perc).
  destruct (percentSumOff perc) eqn:Hoff.
  - by intros [= <-].
  - destruct (largestRemainder_ok T (percentItems T perc)) as [shares ->];
      [by apply percentItems_nonempty|done].
Qed.

(** C10: [splitByPercent] returns an error exactly when the sum of the
    percentages is off 100 by more than 0.01, and the error is then
    [PercentageSumMismatch]; no entry is checked on its own, and a map
    with a negative percentage that sums to 100 is split without error. *)
Theorem splitByPercent_error_iff :
  (forall T perc,
      (exists e, splitByPercent T perc = Err e) <-> percentSumOff perc = true)
  /\ (forall T perc e,
        splitByPercent T perc = Err e ->
        e = PercentageSumMismatch (sumValues perc))
  /\ (exists T perc shares,
        Exists negativeWeight perc
        /\ sumValues perc = 100%float
        /\ splitByPercent T perc = Ok shares
        /\ shares !! "bob" = Some (-50)).
Proof.
  split; [|split].
  - intros T perc. split.
    + intros [e He]. by apply splitByPercent_Err in He as [? _].
    + intros Hoff. exists (PercentageSumMismatch (sumValues perc)).
      unfold splitByPercent. fold (percentSumOff perc). by rewrite Hoff.
  - intros T perc e He. by apply splitByPercent_Err in He as [_ ?].
  - exists 100, [("alice", 150%float); ("bob", (-50)%float)].
    eexists. split; [|split; [|split]].
    + apply Exists_cons_tl, Exists_cons_hd. reflexivity.
    + reflexivity.
    + vm_compute. reflexivity.
    + vm_compute. reflexivity.
Qed.

(** C1, at the failing input: the percentages 50.004 and 50.004 pass the
    tolerance test, and for the total 10,000,000 [splitByPercent] returns
    the shares 5,000,399 and 5,000,399, which sum to 10,000,798. *)
Theorem splitByPercent_overage :
  let perc := [("alice", 50.004%float); ("bob", 50.004%float)] in
  percentSumOff perc = false
  /\ exists shares,
       splitByPercent 10000000 perc = Ok shares
       /\ shares !! "alice" = Some 5000399
       /\ shares !! "bob" = Some 5000399
       /\ sumShares shares = 10000798.
Proof.
  cbv zeta. split; [reflexivity|].
  eexists. split; [vm_compute; reflexivity|].
  split; [|split]; vm_compute; reflexivity.
Qed.

(** C6, as amended: in the group of Alice, Bob and Charlie an equal split
    of 10,000,000 gives 3,333,334 to the smallest key, [alice], and
    3,333,333 to each of [bob] and [charlie]; the shares sum to
    10,000,000. *)
Theorem splitEqual_trip_shares :
  exists shares,
    computeShares tripGroup (equalExpense 10000000 "Alice") = Ok shares
    /\ dom (people tripGroup) = {["alice"; "bob"; "charlie"]}
    /\ dom shares = {["alice"; "bob"; "charlie"]}
    /\ shares !! "alice" = Some 3333334
    /\ shares !! "bob" = Some 3333333
    /\ shares !! "charlie" = Some 3333333
    /\ sumShares shares = 10000000.
Proof.
  eexists. split; [vm_compute; reflexivity|].
  split_and!; vm_compute; reflexivity.
Qed.

(** C6 as stated fails: [bob] does not receive 3,333,334 (nor [charlie]
    3,333,332). *)
Lemma splitEqual_trip_not_as_specified :
  ~ (exists shares,
        computeShares tripGroup (equalExpense 10000000 "Alice") = Ok shares
        /\ sumShares shares = 10000000
        /\ shares !! "alice" = Some 3333334
        /\ shares !! "bob" = Some 3333334
        /\ shares !! "charlie" = Some 3333332).
Proof.
  intros (shares & Heq & _ & _ & Hbob & _).
  vm_compute in Heq. injection Heq as <-.
  vm_compute in Hbob. discriminate Hbob.
Qed.


(** ** The debt graph *)

Lemma addEdge_ok gr from to md es :
  nodes gr !! from = Some es -> is_Some (nodes gr !! to) ->
  addEdge gr from to md
  = (mkGraph (graph_Name gr) (<[from := es ++ [mkEdge to md]]> (nodes gr)), None).
Proof.
  intros Hf [es' Ht]. unfold addEdge. by rewrite Hf, Ht.
Qed.

Lemma amountsOfExpense_snoc id es ed :
  amountsOfExpense id (es ++ [ed])
  = amountsOfExpense id es
    + (if ExpenseID (Metadata ed) =? id then AmountInMicroCents (Metadata ed) else 0).
Proof.
  induction es as [|x es IH]; simpl.
  - destruct (_ =? _); lia.
  - rewrite IH. destruct (ExpenseID (Metadata x) =? id); lia.
Qed.

Lemma addEdges_spec gr fromKeys paidByKey shares id :
  (forall k, k ∈ fromKeys -> is_Some (nodes gr !! k)) ->
  is_Some (nodes gr !! paidByKey) ->
  exists gr',
    addEdges gr fromKeys paidByKey shares id = (gr', None)
    /\ dom (nodes gr') = dom (nodes gr)
    /\ expenseEdgeSum gr' id
       = expenseEdgeSum gr id + owedSum fromKeys paidByKey shares.
Proof.
  revert gr. induction fromKeys as [|k ks IH]; intros gr Hks Hp.
  - exists gr. simpl. split_and!; [done|done|lia].
  - cbn [addEdges owedSum foldr]. fold (owedSum ks paidByKey shares).
    assert (forall k', k' ∈ ks -> is_Some (nodes gr !! k')) as Hks'
      by (intros; apply Hks; by right).
    destruct (String.eqb k paidByKey) eqn:Hk.
    { destruct (IH gr Hks' Hp) as (gr' & -> & Hd & Hs).
      exists gr'. split_and!; [done|done|lia]. }
    destruct (shares !! k) as [owed|] eqn:Hsh; cbn [default from_option Datatypes.id].
    2:{ destruct (IH gr Hks' Hp) as (gr' & -> & Hd & Hs).
        exists gr'. split_and!; [done|done|lia]. }
    destruct (Hks k) as [es Hes]; [by left|].
    rewrite (addEdge_ok _ _ _ _ es Hes Hp).
    set (gr1 := mkGraph _ _).
    assert (dom (nodes gr1) = dom (nodes gr)) as Hd1.
    { unfold gr1. cbn [nodes]. rewrite dom_insert_L.
      assert (k ∈ dom (nodes gr)) by (apply elem_of_dom; eauto). set_solver. }
    destruct (IH gr1) as (gr' & -> & Hd & Hs).
    + intros k' Hk'. apply elem_of_dom. rewrite Hd1. apply elem_of_dom. by apply Hks'.
    + apply elem_of_dom. rewrite Hd1. by apply elem_of_dom.
    + exists gr'. split_and!; [done|congruence|].
      rewrite Hs. unfold gr1, expenseEdgeSum. cbn [nodes].
      rewrite (mapSum_insert_Some _ _ _ _ es Hes), amountsOfExpense_snoc.
      cbn [Metadata ExpenseID AmountInMicroCents]. rewrite Z.eqb_refl. lia.
Qed.

Lemma sum_over_keys (ks : list string) (shares : gmap string Z) :
  NoDup ks -> dom shares ⊆ list_to_set ks ->
  foldr (fun k acc => default 0 (shares !! k) + acc) 0 ks = sumShares shares.
Proof.
  intros Hnd. revert shares. induction Hnd as [|k ks Hk Hnd IH]; intros shares Hdom.
  - simpl. assert (shares = ∅) as ->; [|by rewrite sumShares_empty].
    apply dom_empty_inv_L. set_solver.
  - cbn [foldr].
    assert (foldr (fun k0 acc => default 0 (shares !! k0) + acc) 0 ks
            = foldr (fun k0 acc => default 0 (delete k shares !! k0) + acc) 0 ks)
      as ->.
    { clear -Hk. induction ks as [|k' ks IH]; [done|].
      apply not_elem_of_cons in Hk as [Hne Hk]. cbn [foldr].
      rewrite IH by done. by rewrite lookup_delete_ne. }
    rewrite (IH (delete k shares)) by (rewrite dom_delete_L; set_solver).
    destruct (shares !! k) as [v|] eqn:Hv; cbn [default from_option Datatypes.id].
    + by rewrite (sumShares_delete _ _ _ Hv).
    + by rewrite delete_id.
Qed.

Lemma owedSum_payer (ks : list string) (payer : string) (shares : gmap string Z) :
  NoDup ks -> payer ∈ ks ->
  owedSum ks payer shares
  = foldr (fun k acc => default 0 (shares !! k) + acc) 0 ks
    - default 0 (shares !! payer).
Proof.
  intros Hnd. induction Hnd as [|k ks Hk Hnd IH]; intros Hp.
  - by apply elem_of_nil in Hp.
  - cbn [owedSum foldr]. fold (owedSum ks payer shares).
    destruct (String.eqb_spec k payer) as [->|Hne].
    + assert (owedSum ks payer shares
              = foldr (fun k acc => default 0 (shares !! k) + acc) 0 ks) as ->;
        [|lia].
      clear -Hk. induction ks as [|k' ks IH]; [done|].
      apply not_elem_of_cons in Hk as [Hne Hk].
      cbn [owedSum foldr]. fold (owedSum ks payer shares). rewrite IH by done.
      destruct (String.eqb_spec k' payer); [congruence|done].
    + apply elem_of_cons in Hp as [->|Hp]; [done|]. rewrite IH by done. lia.
Qed.

(** ** Validation steps of [AddExpense] *)

Lemma normalizeSplitLoop_NoDup input out res :
  normalizeSplitLoop input out = Ok res ->
  NoDup (map fst out) -> NoDup (map fst res).
Proof.
  revert out. induction input as [|[name value] input IH]; intros out; simpl.
  - by intros [= ->].
  - destruct (String.eqb (normalizeName name) ""); [done|].
    destruct (existsb _ out) eqn:Hex; [done|].
    intros Hres Hnd. apply (IH _ Hres).
    rewrite map_app. cbn [map fst]. apply NoDup_app. split_and!; [done| |].
    + intros k Hk [->|[]%elem_of_nil]%elem_of_cons.
      apply list_elem_of_fmap in Hk as (kv & Hfst & Hkv).
      assert (existsb (fun kv => String.eqb (fst kv) (normalizeName name)) out = true)
        as Hex'; [|congruence].
      apply existsb_exists. exists kv. split; [by apply list_elem_of_In|].
      rewrite <- Hfst. apply String.eqb_refl.
    + apply NoDup_singleton.
Qed.

Lemma normalizeSplitMap_NoDup input res :
  normalizeSplitMap input = Ok res -> NoDup (map fst res).
Proof.
  intros H. apply (normalizeSplitLoop_NoDup _ _ _ H). constructor.
Qed.

Lemma firstNonMember_None g m :
  firstNonMember g m = None ->
  forall k, k ∈ map fst m -> is_Some (people g !! k).
Proof.
  unfold firstNonMember. intros H k Hk.
  pose proof (find_none _ _ H k (proj1 (list_elem_of_In _ _) Hk)) as Hf.
  apply negb_false_iff in Hf. by apply bool_decide_eq_true in Hf.
Qed.

Lemma keysOf_elem_of {V} (m : gmap string V) k :
  k ∈ keysOf m <-> is_Some (m !! k).
Proof.
  unfold keysOf. rewrite list_elem_of_fmap. split.
  - intros ([k' v] & -> & Hin). apply elem_of_map_to_list in Hin. eauto.
  - intros [v Hv]. exists (k, v). split; [done|]. by apply elem_of_map_to_list.
Qed.

Lemma keysOf_NoDup {V} (m : gmap string V) : NoDup (keysOf m).
Proof. apply NoDup_fst_map_to_list. Qed.

Lemma keysOf_dom {V} (m : gmap string V) : list_to_set (keysOf m) = dom m.
Proof.
  apply set_eq. intros k.
  by rewrite elem_of_list_to_set, keysOf_elem_of, elem_of_dom.
Qed.

Lemma graphInSync_nodes g k :
  graphInSync g = true -> is_Some (people g !! k) ->
  is_Some (nodes (group_graph g) !! k).
Proof.
  unfold graphInSync. intros [[_ H]%andb_true_iff _]%andb_true_iff Hk.
  rewrite forallb_forall in H.
  apply keysOf_elem_of, list_elem_of_In, H in Hk.
  by apply bool_decide_eq_true in Hk.
Qed.

Lemma percentItems_names T perc :
  map item_name (percentItems T perc) = map fst perc.
Proof. unfold percentItems. rewrite map_map. by apply map_ext. Qed.

(** Every key of the computed share map is a member. *)
Lemma computeShares_dom g e shares :
  computeShares g e = Ok shares ->
  NoDup (map fst (SplitPercentages e)) ->
  NoDup (map fst (SplitWeights e)) ->
  (forall k, k ∈ map fst (SplitPercentages e) -> is_Some (people g !! k)) ->
  (forall k, k ∈ map fst (SplitWeights e) -> is_Some (people g !! k)) ->
  dom shares ⊆ dom (people g).
Proof.
  unfold computeShares. intros Heq Hndp Hndw Hp Hw.
  destruct (String.eqb (SplitMethod e) "equal").
  { unfold splitEqual in Heq.
    destruct (_ <=? 1); [done|]. injection Heq as <-.
    rewrite assignEqual_dom, dom_empty_L, union_empty_r_L.
    intros k. rewrite elem_of_list_to_set, sortStrings_perm, keysOf_elem_of.
    by rewrite elem_of_dom. }
  destruct (String.eqb (SplitMethod e) "percentage").
  { unfold splitByPercent in Heq. destruct (PrimFloat.ltb _ _); [done|].
    apply largestRemainder_dom in Heq; [|by rewrite percentItems_names].
    rewrite Heq, percentItems_names. intros k.
    rewrite elem_of_list_to_set, elem_of_dom. apply Hp. }
  destruct (String.eqb (SplitMethod e) "weights").
  { unfold splitByWeights in Heq.
    destruct (sumWeights _ _) as [sumW|]; [|done].
    destruct (PrimFloat.leb _ _); [done|].
    apply largestRemainder_dom in Heq;
      [|rewrite weightItems_names; by apply NoDup_map_fst_filter].
    rewrite Heq, weightItems_names. intros k.
    rewrite elem_of_list_to_set, elem_of_dom. intros Hk. apply Hw.
    apply list_elem_of_fmap in Hk as (kv & -> & Hkv).
    apply list_elem_of_filter in Hkv as [_ Hkv].
    apply list_elem_of_fmap. eauto. }
  injection Heq as <-. rewrite dom_empty_L. set_solver.
Qed.

(** When no floor is negative and the floors stay within the total, the
    percentage split is exact. *)
Lemma splitByPercent_exact (T : Z) (perc : list (string * float)) :
  in_int64 T -> NoDup (map fst perc) ->
  percentSumOff perc = false ->
  floorsWithin T (percentItems T perc) ->
  exists shares,
    splitByPercent T perc = Ok shares
    /\ dom shares = list_to_set (map fst perc)
    /\ sumShares shares = T
    /\ nonnegShares shares.
Proof.
  intros HT Hnd Hoff [Hnn Hle]. unfold splitByPercent.
  fold (percentSumOff perc). rewrite Hoff.
  destruct (largestRemainder_sum T (percentItems T perc))
    as (shares & Heq & Hdom & Hsum & Hpos);
    [done|by apply percentItems_nonempty|by rewrite percentItems_names|done|done|].
  exists shares. by rewrite <- (percentItems_names T perc).
Qed.

Lemma splitByPercent_exact_witness :
  exists shares,
    splitByPercent 10000000
      [("alice", 20%float); ("bob", 40%float); ("charlie", 40%float)] = Ok shares
    /\ dom shares = list_to_set ["alice"; "bob"; "charlie"]
    /\ sumShares shares = 10000000
    /\ nonnegShares shares.
Proof.
  apply (splitByPercent_exact 10000000
           [("alice", 20%float); ("bob", 40%float); ("charlie", 40%float)]).
  - unfold in_int64, int64_min, int64_max. lia.
  - compute_done.
  - reflexivity.
  - split; [|vm_compute; discriminate].
    vm_compute. repeat constructor; discriminate.
Defined.


(** ** [AddExpense] *)

(** The edge loop cannot fail once the consistency check has passed. *)
Lemma addEdges_in_sync g paidByKey shares id :
  graphInSync g = true -> is_Some (people g !! paidByKey) ->
  exists gr',
    addEdges (group_graph g) (keysOf (people g)) paidByKey shares id = (gr', None)
    /\ dom (nodes gr') = dom (nodes (group_graph g))
    /\ expenseEdgeSum gr' id
       = expenseEdgeSum (group_graph g) id
         + owedSum (keysOf (people g)) paidByKey shares.
Proof.
  intros Hsync Hp. apply addEdges_spec.
  - intros k Hk. apply graphInSync_nodes; [done|]. by apply keysOf_elem_of.
  - by apply graphInSync_nodes.
Qed.

(** Case analysis of a call: either it fails and the group is the one it
    was given, or every validation step passed and the group was extended
    as lines 215-235 describe. *)
Lemma AddExpense_inv g e g' e' err :
  AddExpense g e = (g', e', err) ->
  (exists er, err = Some er /\ g' = g)
  \/ (err = None
      /\ 0 < TotalMicroCents e
      /\ exists to np nw shares gr,
          people g !! normalizeName (PaidBy e) = Some to
          /\ normalizeSplitMap (SplitPercentages e) = Ok np
          /\ firstNonMember g np = None
          /\ normalizeSplitMap (SplitWeights e) = Ok nw
          /\ firstNonMember g nw = None
          /\ e' = mkExpense (add64 (expenseIdCounter g) 1) (TotalMicroCents e)
                            (person_Name to) (TrimSpace (Description e))
                            (SplitMethod e) np nw
          /\ computeShares g e' = Ok shares
          /\ graphInSync g = true
          /\ addEdges (group_graph g) (keysOf (people g))
                      (normalizeName (PaidBy e)) shares
                      (add64 (expenseIdCounter g) 1) = (gr, None)
          /\ g' = mkGroup (group_Name g) gr (people g)
                          (<[add64 (expenseIdCounter g) 1 := e']> (expenses g))
                          (add64 (expenseIdCounter g) 1)).
Proof.
  unfold AddExpense.
  destruct (TotalMicroCents e <=? 0) eqn:Htot; [intros [= <- <- <-]; eauto|].
  cbn [setDescription Description SplitMethod PaidBy SplitPercentages
       SplitWeights TotalMicroCents ID].
  destruct (String.eqb (TrimSpace (Description e)) ""); [intros [= <- <- <-]; eauto|].
  destruct (validateSplitMethod (SplitMethod e)); [intros [= <- <- <-]; eauto|].
  destruct (size (people g) <=? 1)%nat; [intros [= <- <- <-]; eauto|].
  destruct (people g !! normalizeName (PaidBy e)) as [to|] eqn:Hto;
    [|intros [= <- <- <-]; eauto].
  destruct (normalizeSplitMap (SplitPercentages e)) as [np|] eqn:Hnp;
    [|intros [= <- <- <-]; eauto].
  destruct (firstNonMember g np) eqn:Hfp; [intros [= <- <- <-]; eauto|].
  destruct (normalizeSplitMap (SplitWeights e)) as [nw|] eqn:Hnw;
    [|intros [= <- <- <-]; eauto].
  destruct (firstNonMember g nw) eqn:Hfw; [intros [= <- <- <-]; eauto|].
  match goal with |- context [computeShares g ?e0] =>
    destruct (computeShares g e0) as [shares|] eqn:Hsh end;
    [|intros [= <- <- <-]; eauto].
  destruct (graphInSync g) eqn:Hsync; cbn [negb]; [|intros [= <- <- <-]; eauto].
  destruct (addEdges_in_sync g (normalizeName (PaidBy e)) shares
              (add64 (expenseIdCounter g) 1) Hsync) as (gr & Hedges & _);
    [eauto|].
  rewrite Hedges. intros [= <- <- <-]. right.
  split; [done|]. split; [lia|].
  exists to, np, nw, shares, gr. split_and!; try done.
Qed.

(** C5: whenever [AddExpense] returns an error, the number of members,
    the number of expenses and the number of edges of the group are what
    they were before the call. *)
Theorem AddExpense_error_unchanged g e g' e' er :
  AddExpense g e = (g', e', Some er) ->
  size (people g') = size (people g)
  /\ size (expenses g') = size (expenses g)
  /\ edgeCount (group_graph g') = edgeCount (group_graph g).
Proof.
  intros H. apply AddExpense_inv in H as [(er' & _ & ->)|(Hnone & _)]; [done|].
  discriminate Hnone.
Qed.

Lemma amountsOfExpense_unused id es :
  Forall (fun ed => ExpenseID (Metadata ed) <> id) es ->
  amountsOfExpense id es = 0.
Proof.
  induction 1 as [|ed es Hed _ IH]; [done|]. simpl. rewrite IH.
  by destruct (Z.eqb_spec (ExpenseID (Metadata ed)) id).
Qed.

Lemma expenseEdgeSum_unused gr id : idUnused gr id -> expenseEdgeSum gr id = 0.
Proof.
  unfold idUnused, expenseEdgeSum. generalize (nodes gr). intros m.
  induction m as [|k es m Hk IH] using map_ind; intros H.
  - apply mapSum_empty.
  - rewrite mapSum_insert by done.
    apply map_Forall_insert in H as [Hes Hm]; [|done].
    rewrite IH by done. by rewrite amountsOfExpense_unused.
Qed.

(** C4, as amended: when [AddExpense] succeeds on a group none of whose
    edges carries the id the expense receives, the amounts of the edges
    that carry this id sum to the computed shares of the members other
    than the payer, that is to the sum of all shares minus the payer's own
    share; for an equal split the sum of all shares is the total. *)
Theorem AddExpense_edge_sum g e g' e' :
  AddExpense g e = (g', e', None) ->
  in_int64 (TotalMicroCents e) ->
  idUnused (group_graph g) (add64 (expenseIdCounter g) 1) ->
  exists shares,
    computeShares g e' = Ok shares
    /\ ID e' = add64 (expenseIdCounter g) 1
    /\ expenses g' !! ID e' = Some e'
    /\ TotalMicroCents e' = TotalMicroCents e
    /\ expenseEdgeSum (group_graph g') (ID e')
       = sumShares shares - default 0 (shares !! normalizeName (PaidBy e))
    /\ (SplitMethod e = "equal" -> sumShares shares = TotalMicroCents e).
Proof.
  intros H HT Hfresh.
  apply AddExpense_inv in H as [(er & [=] & _)|(_ & Hpos & H)].
  destruct H as (to & np & nw & shares & gr & Hto & Hnp & Hfp & Hnw & Hfw
                 & -> & Hsh & Hsync & Hedges & ->).
  exists shares. cbn [ID expenses group_graph TotalMicroCents].
  split_and!; [done|done|apply lookup_insert_eq|done| |].
  - destruct (addEdges_in_sync g (normalizeName (PaidBy e)) shares
                (add64 (expenseIdCounter g) 1) Hsync) as (gr' & Hedges' & _ & Hsum);
      [eauto|].
    rewrite Hedges in Hedges'. injection Hedges' as <-.
    rewrite Hsum, (expenseEdgeSum_unused _ _ Hfresh).
    rewrite owedSum_payer;
      [|apply keysOf_NoDup|apply keysOf_elem_of; eauto].
    rewrite sum_over_keys; [lia|apply keysOf_NoDup|].
    rewrite keysOf_dom.
    apply (computeShares_dom _ _ _ Hsh); cbn [SplitPercentages SplitWeights].
    + by apply normalizeSplitMap_NoDup in Hnp.
    + by apply normalizeSplitMap_NoDup in Hnw.
    + by apply firstNonMember_None.
    + by apply firstNonMember_None.
  - intros Heq. unfold computeShares in Hsh. cbn [SplitMethod TotalMicroCents] in Hsh.
    rewrite Heq in Hsh. cbn [String.eqb Ascii.eqb Bool.eqb] in Hsh.
    destruct (splitEqual_shares (TotalMicroCents e) (keysOf (people g)))
      as [_ Hok]; [done|lia|apply keysOf_NoDup|].
    cbv zeta in Hok.
    destruct (Z.le_gt_cases 2 (Z.of_nat (length (keysOf (people g))))) as [Hn|Hn].
    + destruct (Hok Hn) as (shares' & Heq' & _ & _ & _ & Hsum). congruence.
    + rewrite splitEqual_small in Hsh by lia. discriminate Hsh.
Qed.

(** C4 as stated fails: the payer's own share produces no edge. After
    Alice pays 10,000,000 split equally between three, the edges of the
    expense sum to 6,666,666. *)
Lemma AddExpense_edges_exclude_payer :
  ~ edgesSumToTotal tripGroup (equalExpense 10000000 "Alice").
Proof.
  intros H.
  assert (AddExpense tripGroup (equalExpense 10000000 "Alice")
          = (fst (fst tripAfterEqual), snd (fst tripAfterEqual), None)) as Hrun
    by (vm_compute; reflexivity).
  assert (expenseEdgeSum (group_graph (fst (fst tripAfterEqual)))
                         (ID (snd (fst tripAfterEqual))) = 6666666) as Hsum
    by (vm_compute; reflexivity).
  assert (TotalMicroCents (snd (fst tripAfterEqual)) = 10000000) as Htot
    by (vm_compute; reflexivity).
  specialize (H _ _ Hrun). rewrite Hsum, Htot in H. discriminate H.
Qed.

Lemma AddExpense_edge_sum_witness :
  exists shares,
    computeShares tripGroup (snd (fst tripAfterEqual)) = Ok shares
    /\ ID (snd (fst tripAfterEqual)) = add64 (expenseIdCounter tripGroup) 1
    /\ expenses (fst (fst tripAfterEqual)) !! ID (snd (fst tripAfterEqual))
       = Some (snd (fst tripAfterEqual))
    /\ TotalMicroCents (snd (fst tripAfterEqual)) = 10000000
    /\ expenseEdgeSum (group_graph (fst (fst tripAfterEqual)))
                      (ID (snd (fst tripAfterEqual)))
       = sumShares shares - default 0 (shares !! normalizeName "Alice")
    /\ (SplitMethod (equalExpense 10000000 "Alice") = "equal" ->
        sumShares shares = 10000000).
Proof.
  apply (AddExpense_edge_sum tripGroup (equalExpense 10000000 "Alice")
           (fst (fst tripAfterEqual)) (snd (fst tripAfterEqual))).
  - vm_compute. reflexivity.
  - unfold in_int64, int64_min, int64_max. simpl. lia.
  - unfold idUnused. compute_done.
Defined.

Lemma AddExpense_error_unchanged_witness :
  snd tripAfterBadPercent = Some (PercentageSumMismatch 90%float)
  /\ size (people (fst (fst tripAfterBadPercent)))
     = size (people (fst (fst tripAfterEqual)))
  /\ size (expenses (fst (fst tripAfterBadPercent)))
     = size (expenses (fst (fst tripAfterEqual)))
  /\ edgeCount (group_graph (fst (fst tripAfterBadPercent)))
     = edgeCount (group_graph (fst (fst tripAfterEqual))).
Proof.
  split; [vm_compute; reflexivity|].
  apply (AddExpense_error_unchanged (fst (fst tripAfterEqual))
           (mkExpense 0 5000000 "bob" "dinner" "percentage"
                      [("Alice", 50%float); ("Bob", 40%float)] [])
           (fst (fst tripAfterBadPercent)) (snd (fst tripAfterBadPercent))
           (PercentageSumMismatch 90%float)).
  vm_compute. reflexivity.
Defined.


(** ** Binary64 arithmetic, from the specification of the primitive floats *)

Lemma fexp_eq k : fexp prec emax k = Z.max (k - 53) (-1074).
Proof. reflexivity. Qed.

Lemma digits2_pos_bounds p :
  2 ^ (Z.pos (digits2_pos p) - 1) <= Z.pos p < 2 ^ Z.pos (digits2_pos p).
Proof.
  induction p as [p IH|p IH|]; cbn [digits2_pos].
  - rewrite Pos2Z.inj_succ.
    replace (Z.succ (Z.pos (digits2_pos p)) - 1) with (Z.succ (Z.pos (digits2_pos p) - 1)) by lia.
    rewrite !Z.pow_succ_r by lia. lia.
  - rewrite Pos2Z.inj_succ.
    replace (Z.succ (Z.pos (digits2_pos p)) - 1) with (Z.succ (Z.pos (digits2_pos p) - 1)) by lia.
    rewrite !Z.pow_succ_r by lia. lia.
  - simpl. lia.
Qed.

(** A predicate is kept by [iter_pos] when one step keeps it. *)
Lemma iter_pos_invariant {A} (P : A -> Prop) (f : A -> A) n x :
  (forall y, P y -> P (f y)) -> P x -> P (SpecFloat.iter_pos f n x).
Proof.
  intros Hf. revert x. induction n as [n IH|n IH|]; intros x Hx; simpl; auto.
Qed.

Lemma shr_1_m mrs : 0 <= shr_m mrs -> shr_m (shr_1 mrs) = shr_m mrs / 2.
Proof.
  destruct mrs as [m r s]. cbn [shr_m]. intros Hm.
  destruct m as [|[p|p|]|p]; cbn [shr_1 shr_m].
  - reflexivity.
  - apply Z.div_unique with 1; lia.
  - apply Z.div_unique with 0; lia.
  - reflexivity.
  - lia.
Qed.

Lemma shr_1_nonneg mrs : 0 <= shr_m mrs -> 0 <= shr_m (shr_1 mrs).
Proof. intros H. rewrite shr_1_m by done. by apply Z.div_pos. Qed.

Lemma iter_shr_1_nonneg n mrs :
  0 <= shr_m mrs -> 0 <= shr_m (SpecFloat.iter_pos shr_1 n mrs).
Proof. apply (iter_pos_invariant (fun x => 0 <= shr_m x)), shr_1_nonneg. Qed.

Lemma pow2_xO n : 2 ^ Z.pos n~0 = 2 ^ Z.pos n * 2 ^ Z.pos n.
Proof.
  rewrite <- Z.pow_add_r by lia. f_equal. lia.
Qed.

Lemma pow2_xI n : 2 ^ Z.pos n~1 = 2 * (2 ^ Z.pos n * 2 ^ Z.pos n).
Proof.
  rewrite <- pow2_xO, <- Z.pow_succ_r by lia. reflexivity.
Qed.

Lemma iter_shr_1_m n mrs :
  0 <= shr_m mrs ->
  shr_m (SpecFloat.iter_pos shr_1 n mrs) = shr_m mrs / 2 ^ Z.pos n.
Proof.
  revert mrs. induction n as [n IH|n IH|]; intros mrs Hm; cbn [SpecFloat.iter_pos].
  - rewrite IH by (by apply iter_shr_1_nonneg, shr_1_nonneg).
    rewrite IH by (by apply shr_1_nonneg). rewrite shr_1_m by done.
    assert (0 < 2 ^ Z.pos n) by (apply Z.pow_pos_nonneg; lia).
    rewrite !Z.div_div by lia. by rewrite pow2_xI, Z.mul_assoc.
  - rewrite IH by (by apply iter_shr_1_nonneg). rewrite IH by done.
    assert (0 < 2 ^ Z.pos n) by (apply Z.pow_pos_nonneg; lia).
    rewrite !Z.div_div by lia. by rewrite pow2_xO.
  - by rewrite shr_1_m.
Qed.

Lemma shr_record_of_loc_m m l : shr_m (shr_record_of_loc m l) = m.
Proof. by destruct l as [|[]]. Qed.

(** The mantissa and exponent that [shr_fexp] returns. *)
Lemma shr_fexp_spec m e l :
  0 <= m ->
  let n := fexp prec emax (Zdigits2 m + e) - e in
  shr_m (fst (shr_fexp prec emax m e l)) = (if 0 <? n then m / 2 ^ n else m)
  /\ snd (shr_fexp prec emax m e l) = (if 0 <? n then e + n else e).
Proof.
  intros Hm n. unfold shr_fexp, shr. fold n.
  destruct n as [|p|p]; cbn [fst snd].
  - by rewrite shr_record_of_loc_m.
  - rewrite iter_shr_1_m by (by rewrite shr_record_of_loc_m).
    by rewrite shr_record_of_loc_m.
  - by rewrite shr_record_of_loc_m.
Qed.

Lemma round_nearest_even_ge m l : m <= round_nearest_even m l.
Proof. destruct l as [|[]]; simpl; try lia. destruct (Z.even m); lia. Qed.

(** What [shr_fexp] leaves of a positive mantissa is positive, and the
    exponent does not decrease. *)
Lemma shr_fexp_pos m e l :
  0 < m -> -1074 <= e ->
  0 < shr_m (fst (shr_fexp prec emax m e l))
  /\ e <= snd (shr_fexp prec emax m e l).
Proof.
  intros Hm He.
  destruct (shr_fexp_spec m e l) as [-> ->]; [lia|].
  rewrite fexp_eq.
  destruct m as [|p|p]; try lia. cbn [Zdigits2].
  pose proof (digits2_pos_bounds p) as [Hlo Hhi].
  set (d := Z.pos (digits2_pos p)) in *.
  destruct (0 <? Z.max (d + e - 53) (-1074) - e) eqn:Hn; [|lia].
  apply Z.ltb_lt in Hn.
  assert (Z.max (d + e - 53) (-1074) - e = d - 53) as -> by lia.
  split; [|lia].
  apply Z.div_str_pos. split; [apply Z.pow_pos_nonneg; lia|].
  etransitivity; [|exact Hlo]. apply Z.pow_le_mono_r; lia.
Qed.

Lemma shr_fexp_nonneg m e l :
  0 <= m -> 0 <= shr_m (fst (shr_fexp prec emax m e l)).
Proof.
  intros Hm. destruct (shr_fexp_spec m e l Hm) as [-> _].
  destruct (0 <? _) eqn:Hn; [|done].
  apply Z.ltb_lt in Hn. apply Z.div_pos; [done|]. apply Z.pow_pos_nonneg; lia.
Qed.

Lemma binary_round_aux_sign s m e l :
  0 <= m -> has_sign s (binary_round_aux prec emax s m e l).
Proof.
  intros Hm. unfold binary_round_aux.
  pose proof (shr_fexp_nonneg m e l Hm) as Hm1.
  destruct (shr_fexp prec emax m e l) as [mrs' e']. cbn [fst] in Hm1.
  pose proof (round_nearest_even_ge (shr_m mrs') (loc_of_shr_record mrs')) as Hr.
  set (m1 := round_nearest_even (shr_m mrs') (loc_of_shr_record mrs')) in *.
  assert (0 <= m1) as Hm1' by lia.
  pose proof (shr_fexp_nonneg m1 e' loc_Exact Hm1') as Hm2.
  destruct (shr_fexp prec emax m1 e' loc_Exact) as [mrs'' e'']. cbn [fst] in Hm2.
  destruct (shr_m mrs'') as [|p|p]; [done| |lia].
  by destruct (e'' <=? emax - prec).
Qed.

(** Rounding a positive mantissa at an exponent in range gives a nonzero
    float of the same sign whose exponent is no smaller. *)
Lemma binary_round_aux_pos s m e l :
  0 < m -> -1074 <= e ->
  binary_round_aux prec emax s m e l = S754_infinity s
  \/ exists m' e', binary_round_aux prec emax s m e l = S754_finite s m' e' /\ e <= e'.
Proof.
  intros Hm He. unfold binary_round_aux.
  pose proof (shr_fexp_pos m e l Hm He) as [Hm' He'].
  destruct (shr_fexp prec emax m e l) as [mrs' e']. cbn [fst snd] in Hm', He'.
  pose proof (round_nearest_even_ge (shr_m mrs') (loc_of_shr_record mrs')) as Hr.
  set (m1 := round_nearest_even (shr_m mrs') (loc_of_shr_record mrs')) in *.
  assert (0 < m1) as Hm1 by lia.
  pose proof (shr_fexp_pos m1 e' loc_Exact Hm1) as [Hm'' He'']; [lia|].
  destruct (shr_fexp prec emax m1 e' loc_Exact) as [mrs'' e''].
  cbn [fst snd] in Hm'', He''.
  destruct (shr_m mrs'') as [|p|p]; [lia| |lia].
  destruct (e'' <=? emax - prec); [right|by left].
  exists p, e''. split; [done|lia].
Qed.

(** ** Conversion of an [int64] *)

Lemma to_Z_of_Z z : 0 <= z <= int64_max -> Uint63.to_Z (Uint63.of_Z z) = z.
Proof.
  intros Hz. rewrite Uint63.of_Z_spec. apply Z.mod_small.
  unfold int64_max in Hz. change wB with 9223372036854775808. lia.
Qed.

Lemma binary_round_shape s p :
  exists mz ez,
    binary_round prec emax s p 0
    = binary_round_aux prec emax s (Z.pos mz) ez loc_Exact
    /\ ez = Z.min 0 (fexp prec emax (Z.pos (digits2_pos p))).
Proof.
  unfold binary_round, shl_align. rewrite Z.add_0_r, Z.sub_0_r.
  destruct (fexp prec emax (Z.pos (digits2_pos p))) as [|q|q] eqn:E;
    eexists _, _; (split; [reflexivity|lia]).
Qed.

(** A positive [int64] converts to a positive float. *)
Lemma float64_of_pos_sign z :
  0 < z <= int64_max -> has_sign false (Prim2SF (float64_of_int64 z)).
Proof.
  intros Hz. unfold float64_of_int64.
  destruct (Z.eqb_spec z int64_min) as [->|_]; [unfold int64_min in Hz; lia|].
  destruct (Z.ltb_spec z 0) as [?|_]; [lia|].
  rewrite of_uint63_spec, to_Z_of_Z by lia.
  destruct z as [|p|p]; try lia. cbn [binary_normalize].
  destruct (binary_round_shape false p) as (mz & ez & -> & _).
  by apply binary_round_aux_sign.
Qed.

(** A negative [int64] converts to a negative float. *)
Lemma float64_of_neg_sign z :
  int64_min <= z < 0 -> has_sign true (Prim2SF (float64_of_int64 z)).
Proof.
  intros Hz. unfold float64_of_int64.
  destruct (Z.eqb_spec z int64_min) as [->|Hne]; [reflexivity|].
  destruct (Z.ltb_spec z 0) as [_|?]; [|lia].
  rewrite FloatAxioms.opp_spec, of_uint63_spec, to_Z_of_Z
    by (unfold int64_min, int64_max in *; lia).
  destruct z as [|p|p]; try lia.
  change (- Z.neg p) with (Z.pos p). cbn [binary_normalize].
  destruct (binary_round_shape false p) as (mz & ez & -> & _).
  pose proof (binary_round_aux_sign false (Z.pos mz) ez loc_Exact) as Hs.
  specialize (Hs ltac:(lia)).
  destruct (binary_round_aux _ _ _ _ _ _) as [[]|[]| |[] m e]; simpl in *;
    congruence.
Qed.

(** From 1024 on the exponent of the converted value is at least -42. *)
Lemma float64_of_large z :
  1024 <= z <= int64_max ->
  positive_from (-42) (Prim2SF (float64_of_int64 z)).
Proof.
  intros Hz. unfold float64_of_int64.
  destruct (Z.eqb_spec z int64_min) as [->|_]; [unfold int64_min in Hz; lia|].
  destruct (Z.ltb_spec z 0) as [?|_]; [lia|].
  rewrite of_uint63_spec, to_Z_of_Z by lia.
  destruct z as [|p|p]; try lia. cbn [binary_normalize].
  destruct (binary_round_shape false p) as (mz & ez & -> & Hez).
  rewrite fexp_eq in Hez.
  pose proof (digits2_pos_bounds p) as [_ Hhi].
  assert (10 < Z.pos (digits2_pos p)) as Hd.
  { destruct (Z.lt_ge_cases 10 (Z.pos (digits2_pos p))) as [?|Hle]; [done|].
    pose proof (Z.pow_le_mono_r 2 _ 10 ltac:(lia) Hle). lia. }
  destruct (binary_round_aux_pos false (Z.pos mz) ez loc_Exact) as [->|(m & e & -> & He)];
    [lia|lia|by left|].
  right. exists m, e. split; [done|lia].
Qed.

(** ** Division *)

Lemma SFdiv_core_nonneg m1 e1 m2 e2 :
  0 <= fst (fst (SFdiv_core_binary prec emax (Z.pos m1) e1 (Z.pos m2) e2)).
Proof.
  unfold SFdiv_core_binary. cbv zeta.
  set (s := e1 - e2 - _).
  set (m' := match s with Z.pos _ => _ | _ => _ end).
  assert (0 <= m') as Hm'.
  { unfold m'. destruct s; [lia| |lia]. apply Z.shiftl_nonneg. lia. }
  destruct (Z.div_eucl m' (Z.pos m2)) as [q r] eqn:E. cbn [fst].
  assert (q = m' / Z.pos m2) as -> by (unfold Z.div; by rewrite E).
  apply Z.div_pos; lia.
Qed.

Lemma SFdiv_sign s x s2 m2 e2 :
  has_sign s x ->
  has_sign (xorb s s2) (SFdiv prec emax x (S754_finite s2 m2 e2)).
Proof.
  destruct x as [s'|s'| |s' m e]; cbn [has_sign SFdiv]; try congruence.
  intros ->.
  pose proof (SFdiv_core_nonneg m e m2 e2) as Hq.
  destruct (SFdiv_core_binary _ _ _ _ _ _) as [[mz ez] lz]. cbn [fst] in Hq.
  by apply binary_round_aux_sign.
Qed.

Lemma valid_digits s m e :
  valid_binary (S754_finite s m e) = true -> -1074 < e ->
  Z.pos (digits2_pos m) = 53.
Proof.
  unfold SpecFloat.valid_binary, bounded, canonical_mantissa. rewrite fexp_eq.
  intros [Hc _]%andb_true_iff He. apply Z.eqb_eq in Hc. lia.
Qed.

(** The quotient of two normal numbers is a nonzero float whose exponent
    is at least the difference of the exponents minus the precision. *)
Lemma SFdiv_normal s1 m1 e1 s2 m2 e2 :
  Z.pos (digits2_pos m1) = 53 -> Z.pos (digits2_pos m2) = 53 ->
  -1021 <= e1 - e2 - 53 ->
  SFdiv prec emax (S754_finite s1 m1 e1) (S754_finite s2 m2 e2)
  = S754_infinity (xorb s1 s2)
  \/ exists m e,
       SFdiv prec emax (S754_finite s1 m1 e1) (S754_finite s2 m2 e2)
       = S754_finite (xorb s1 s2) m e
       /\ e1 - e2 - 53 <= e.
Proof.
  intros Hd1 Hd2 He. cbn [SFdiv]. unfold SFdiv_core_binary. cbv zeta.
  cbn [Zdigits2]. rewrite Hd1, Hd2, fexp_eq.
  replace (Z.min (Z.max (53 + e1 - (53 + e2) - 53) (-1074)) (e1 - e2))
    with (e1 - e2 - 53) by lia.
  replace (e1 - e2 - (e1 - e2 - 53)) with 53 by lia.
  destruct (Z.div_eucl (Z.shiftl (Z.pos m1) 53) (Z.pos m2)) as [q r] eqn:E.
  assert (q = Z.shiftl (Z.pos m1) 53 / Z.pos m2) as Hq
    by (unfold Z.div; by rewrite E).
  assert (0 < q) as Hpos.
  { rewrite Hq, Z.shiftl_mul_pow2 by lia.
    pose proof (digits2_pos_bounds m1) as [Hlo1 _].
    pose proof (digits2_pos_bounds m2) as [_ Hhi2].
    rewrite Hd1 in Hlo1. rewrite Hd2 in Hhi2.
    apply Z.div_str_pos. split; [lia|].
    change (2 ^ (53 - 1)) with 4503599627370496 in Hlo1.
    change (2 ^ 53) with 9007199254740992 in *. nia. }
  apply binary_round_aux_pos; lia.
Qed.

(** ** The threshold of [getMoneyTobePaid] *)

Lemma SF_of_1000 : Prim2SF 1000%float = S754_finite false 8796093022208000 (-43).
Proof. reflexivity. Qed.
Lemma SF_of_100 : Prim2SF 100%float = S754_finite false 7036874417766400 (-46).
Proof. reflexivity. Qed.
Lemma SF_of_1 : Prim2SF 1%float = S754_finite false 4503599627370496 (-52).
Proof. reflexivity. Qed.
Lemma SF_of_0 : Prim2SF 0%float = S754_zero false.
Proof. reflexivity. Qed.

Lemma cents_small_table :
  forallb (fun n => belowOneCent (Z.of_nat n)) (seq 0 1000) = true.
Proof. vm_compute. reflexivity. Qed.

Lemma cents_edge_table :
  forallb (fun n => negb (belowOneCent (Z.of_nat n)) && positiveDollars (Z.of_nat n))
          (seq 1000 24) = true.
Proof. vm_compute. reflexivity. Qed.

Lemma SFltb_negative f m e :
  has_sign true f -> SFltb f (S754_finite false m e) = true.
Proof.
  destruct f as [s|s| |s m' e']; cbn [has_sign]; intros H; try done;
    subst; reflexivity.
Qed.

Lemma SFltb_zero_positive lo f :
  positive_from lo f -> SFltb (S754_zero false) f = true.
Proof. intros [->|(m & e & -> & _)]; reflexivity. Qed.

Lemma SFltb_one f q :
  valid_binary f = true -> positive_from (-52) f -> Z.pos q = 2 ^ 52 ->
  SFltb f (S754_finite false q (-52)) = false.
Proof.
  intros Hv [->|(m & e & -> & He)] Hq; [reflexivity|].
  pose proof (valid_digits false m e Hv ltac:(lia)) as Hd.
  pose proof (digits2_pos_bounds m) as [Hlo _]. rewrite Hd in Hlo.
  change (53 - 1) with 52 in Hlo. rewrite <- Hq in Hlo.
  unfold SFltb, SFcompare.
  destruct (Z.compare_spec e (-52)) as [->|Hlt|Hgt]; [|lia|reflexivity].
  rewrite Pos.compare_cont_spec. cbn [Pos.switch_Eq].
  assert ((m ?= q)%positive <> Lt) as Hcmp by (apply Pos.compare_ge_iff; lia).
  by destruct (m ?= q)%positive.
Qed.

(** Dividing a nonzero positive float by a normal positive number gives a
    nonzero positive float. *)
Lemma SFdiv_positive lo f m2 e2 :
  valid_binary f = true -> positive_from lo f ->
  Z.pos (digits2_pos m2) = 53 -> -1074 < lo -> -1021 <= lo - e2 - 53 ->
  positive_from (lo - e2 - 53) (SFdiv prec emax f (S754_finite false m2 e2)).
Proof.
  intros Hv [->|(m & e & -> & He)] Hd2 Hlo Hlo2; [by left|].
  destruct (SFdiv_normal false m e false m2 e2) as [->|(m' & e' & -> & He')];
    [apply (valid_digits false m e); [done|lia]|done|lia|by left|].
  right. exists m', e'. split; [done|lia].
Qed.

Lemma cents_below_one z :
  in_int64 z -> z < 1000 -> belowOneCent z = true.
Proof.
  intros Hz Hlt. destruct (Z.le_gt_cases 0 z) as [Hpos|Hneg].
  - pose proof cents_small_table as Ht. rewrite forallb_forall in Ht.
    specialize (Ht (Z.to_nat z)). rewrite Z2Nat.id in Ht by exact Hpos.
    apply Ht, in_seq. lia.
  - unfold belowOneCent, centsOf.
    rewrite FloatAxioms.ltb_spec, FloatAxioms.div_spec, SF_of_1000, SF_of_1.
    apply SFltb_negative.
    apply (SFdiv_sign true _ false), float64_of_neg_sign.
    unfold in_int64 in Hz. lia.
Qed.

Lemma centsOf_large z :
  1024 <= z <= int64_max -> positive_from (-52) (Prim2SF (centsOf z)).
Proof.
  intros Hz. unfold centsOf. rewrite FloatAxioms.div_spec, SF_of_1000.
  apply (SFdiv_positive (-42) _ 8796093022208000 (-43));
    [apply Prim2SF_valid|by apply float64_of_large|reflexivity|lia|lia].
Qed.

Lemma cents_at_least_one z :
  in_int64 z -> 1000 <= z -> belowOneCent z = false /\ positiveDollars z = true.
Proof.
  intros Hz Hge. destruct (Z.lt_ge_cases z 1024) as [Hlt|Hbig].
  - pose proof cents_edge_table as Ht. rewrite forallb_forall in Ht.
    specialize (Ht (Z.to_nat z)). rewrite Z2Nat.id in Ht by lia.
    assert (In (Z.to_nat z) (seq 1000 24)) as Hin by (apply in_seq; lia).
    apply Ht, andb_true_iff in Hin as [H1 H2].
    apply negb_true_iff in H1. split; assumption.
  - pose proof (centsOf_large z) as Hc.
    specialize (Hc ltac:(unfold in_int64 in Hz; lia)).
    pose proof (Prim2SF_valid (centsOf z)) as Hv.
    unfold belowOneCent, positiveDollars.
    rewrite !FloatAxioms.ltb_spec, FloatAxioms.div_spec, SF_of_1, SF_of_0, SF_of_100.
    split.
    + by apply SFltb_one.
    + apply (SFltb_zero_positive (-52 - -46 - 53)).
      apply SFdiv_positive; [exact Hv|exact Hc|reflexivity|lia|lia].
Qed.


(** ** Wrap-around *)

Lemma wrap64_unique z r k : in_int64 r -> z = r + k * 2 ^ 64 -> wrap64 z = r.
Proof.
  intros Hr ->. unfold wrap64.
  replace (r + k * 2 ^ 64 + 2 ^ 63) with (r + 2 ^ 63 + k * 2 ^ 64) by lia.
  rewrite Z.mod_add by lia. rewrite Z.mod_small; int64_lia.
Qed.

Lemma wrap64_decomp z : exists k, z = wrap64 z + k * 2 ^ 64.
Proof.
  exists ((z + 2 ^ 63) / 2 ^ 64). unfold wrap64.
  pose proof (Z.div_mod (z + 2 ^ 63) (2 ^ 64)). lia.
Qed.

Lemma wrap64_congr a b k : a = b + k * 2 ^ 64 -> wrap64 a = wrap64 b.
Proof.
  intros ->. destruct (wrap64_decomp b) as [k' Hk'].
  apply (wrap64_unique _ _ (k' + k)); [apply wrap64_range|]. lia.
Qed.

Lemma wrap64_add_l a b : wrap64 (wrap64 a + b) = wrap64 (a + b).
Proof.
  destruct (wrap64_decomp a) as [k Hk].
  apply (wrap64_congr _ _ (- k)). lia.
Qed.

Lemma wrap64_sub a b : wrap64 (wrap64 a - wrap64 b) = wrap64 (a - b).
Proof.
  destruct (wrap64_decomp a) as [k Hk]. destruct (wrap64_decomp b) as [k' Hk'].
  apply (wrap64_congr _ _ (k' - k)). lia.
Qed.

(** A positive difference has a negative opposite, also after wrapping. *)
Lemma wrap64_opp_pos x : 0 < wrap64 x -> wrap64 (- x) = - wrap64 x.
Proof.
  intros Hpos. destruct (wrap64_decomp x) as [k Hk].
  apply (wrap64_unique _ _ (- k)); [|lia].
  pose proof (wrap64_range x). int64_lia.
Qed.

(** ** Settlement *)

Lemma sumEdgesTo_acc edges to acc :
  wrap64 (fold_left
            (fun sum ed =>
               if String.eqb (To ed) to
               then add64 sum (AmountInMicroCents (Metadata ed)) else sum)
            edges acc)
  = wrap64 (acc + pairSum edges to).
Proof.
  revert acc. induction edges as [|ed edges IH]; intros acc; simpl.
  - f_equal. lia.
  - rewrite IH. destruct (String.eqb (To ed) to).
    + unfold add64. rewrite wrap64_add_l. f_equal. lia.
    + done.
Qed.

Lemma netBalance_wrap g from to :
  netBalance g from to
  = wrap64 (pairTotal (group_graph g) from to - pairTotal (group_graph g) to from).
Proof.
  unfold netBalance, sub64, pairTotal, sumEdgesTo.
  rewrite <- wrap64_sub, !sumEdgesTo_acc, wrap64_sub. f_equal.
Qed.

Lemma netBalance_range g from to : in_int64 (netBalance g from to).
Proof. apply wrap64_range. Qed.

Lemma netBalance_self g k : netBalance g k k = 0.
Proof. rewrite netBalance_wrap, Z.sub_diag. reflexivity. Qed.

Lemma netBalance_antisym g a b :
  0 < netBalance g a b -> netBalance g b a < 0.
Proof.
  rewrite !netBalance_wrap. intros Hpos.
  replace (pairTotal (group_graph g) b a - pairTotal (group_graph g) a b)
    with (- (pairTotal (group_graph g) a b - pairTotal (group_graph g) b a)) by lia.
  rewrite wrap64_opp_pos by done. lia.
Qed.

Lemma getMoneyTobePaid_below g from to :
  netBalance g from to < 1000 ->
  getMoneyTobePaid g from to = 0%float.
Proof.
  intros Hlt. unfold getMoneyTobePaid. cbv zeta.
  pose proof (cents_below_one _ (netBalance_range g from to) Hlt) as Hb.
  unfold belowOneCent, centsOf in Hb. by rewrite Hb.
Qed.

Lemma getMoneyTobePaid_above g from to :
  1000 <= netBalance g from to ->
  getMoneyTobePaid g from to
  = PrimFloat.div (centsOf (netBalance g from to)) 100%float
  /\ PrimFloat.ltb 0%float (getMoneyTobePaid g from to) = true.
Proof.
  intros Hge. unfold getMoneyTobePaid. cbv zeta.
  destruct (cents_at_least_one _ (netBalance_range g from to) Hge) as [Hb Hp].
  unfold belowOneCent, positiveDollars, centsOf in *. by rewrite Hb.
Qed.

(** A pair is reported exactly when its net balance reaches one cent. *)
Lemma getMoneyTobePaid_positive g from to :
  PrimFloat.ltb 0%float (getMoneyTobePaid g from to) = true
  <-> 1000 <= netBalance g from to.
Proof.
  split.
  - intros Hp. destruct (Z.lt_ge_cases (netBalance g from to) 1000) as [Hlt|]; [|done].
    rewrite (getMoneyTobePaid_below _ _ _ Hlt) in Hp. discriminate Hp.
  - intros Hge. by apply getMoneyTobePaid_above.
Qed.

Lemma settlementEntries_elem_of g from to amount :
  (from, to, amount) ∈ settlementEntries g
  <-> is_Some (nodes (group_graph g) !! from)
      /\ is_Some (nodes (group_graph g) !! to)
      /\ from <> to
      /\ amount = getMoneyTobePaid g from to
      /\ 1000 <= netBalance g from to.
Proof.
  unfold settlementEntries. cbv zeta.
  rewrite list_elem_of_In, in_flat_map. split.
  - intros (f & Hf & Hin). apply in_flat_map in Hin as (t & Ht & Hin).
    destruct (String.eqb_spec f t) as [|Hne]; [done|].
    destruct (PrimFloat.ltb 0 (getMoneyTobePaid g f t)) eqn:Hp; [|done].
    destruct Hin as [[= -> -> <-]|[]].
    apply list_elem_of_In, keysOf_elem_of in Hf, Ht.
    split_and!; try done. by apply getMoneyTobePaid_positive.
  - intros (Hf & Ht & Hne & -> & Hge).
    exists from. split; [by apply list_elem_of_In, keysOf_elem_of|].
    apply in_flat_map. exists to. split; [by apply list_elem_of_In, keysOf_elem_of|].
    destruct (String.eqb_spec from to) as [|_]; [done|].
    apply getMoneyTobePaid_positive in Hge. rewrite Hge. by left.
Qed.

Lemma GetExpenseDetails_fold g entries (acc : gmap string float) k :
  (exists entry, entry ∈ entries
                 /\ settlementKey g (fst (fst entry)) (snd (fst entry)) = k)
  \/ is_Some (acc !! k) ->
  is_Some (fold_left
             (fun result entry =>
                <[settlementKey g (fst (fst entry)) (snd (fst entry)) := snd entry]>
                  result)
             entries acc !! k).
Proof.
  revert acc. induction entries as [|en entries IH]; intros acc H; simpl.
  - destruct H as [(entry & Hin & _)|H]; [by apply elem_of_nil in Hin|done].
  - apply IH. destruct H as [(entry & Hin & Hk)|H].
    + apply elem_of_cons in Hin as [->|Hin]; [|left; eauto].
      right. rewrite Hk, lookup_insert_eq. eauto.
    + right. rewrite lookup_insert. case_decide; eauto.
Qed.

(** The threshold of [getMoneyTobePaid]: when the net balance of an
    ordered pair is below 1000 micro-cents (one cent), the amount is zero
    and the loop of [GetExpenseDetails] makes no assignment for the pair;
    when it is at least 1000 and both are nodes, the amount is positive,
    the loop makes the assignment for the pair, and the map holds an
    entry under the key of the pair. *)
Theorem settlement_threshold g from to :
  (netBalance g from to < 1000 ->
   getMoneyTobePaid g from to = 0%float
   /\ forall amount, (from, to, amount) ∉ settlementEntries g)
  /\ (1000 <= netBalance g from to ->
      is_Some (nodes (group_graph g) !! from) ->
      is_Some (nodes (group_graph g) !! to) ->
      PrimFloat.ltb 0%float (getMoneyTobePaid g from to) = true
      /\ (from, to, getMoneyTobePaid g from to) ∈ settlementEntries g
      /\ is_Some (GetExpenseDetails g !! settlementKey g from to)).
Proof.
  split.
  - intros Hlt. split; [by apply getMoneyTobePaid_below|].
    intros amount Hin. apply settlementEntries_elem_of in Hin. lia.
  - intros Hge Hf Ht.
    assert ((from, to, getMoneyTobePaid g from to) ∈ settlementEntries g) as Hin.
    { apply settlementEntries_elem_of. split_and!; try done.
      intros ->. rewrite netBalance_self in Hge. lia. }
    split_and!; [by apply getMoneyTobePaid_positive|done|].
    unfold GetExpenseDetails. apply GetExpenseDetails_fold. left.
    by exists (from, to, getMoneyTobePaid g from to).
Qed.

Lemma settlement_threshold_witness :
  let g := fst (fst (AddExpense tripGroup (equalExpense 10000000 "Alice"))) in
  netBalance g "bob" "alice" = 3333333
  /\ PrimFloat.ltb 0%float (getMoneyTobePaid g "bob" "alice") = true
  /\ ("bob", "alice", getMoneyTobePaid g "bob" "alice") ∈ settlementEntries g
  /\ is_Some (GetExpenseDetails g !! settlementKey g "bob" "alice")
  /\ getMoneyTobePaid g "alice" "bob" = 0%float.
Proof.
  cbv zeta. split; [reflexivity|].
  destruct (settlement_threshold
              (fst (fst (AddExpense tripGroup (equalExpense 10000000 "Alice"))))
              "bob" "alice") as [_ Habove].
  destruct (settlement_threshold
              (fst (fst (AddExpense tripGroup (equalExpense 10000000 "Alice"))))
              "alice" "bob") as [Hbelow _].
  destruct Habove as (H1 & H2 & H3); [vm_compute; discriminate|compute_done|compute_done|].
  destruct Hbelow as [H4 _]; [vm_compute; reflexivity|].
  split_and!; assumption.
Defined.

(** ** Graph exporter *)







(** *** The order on edge keys *)




(** *** Rendering *)


(** The cents [formatMicroCentsAsDollars] prints are the micro-cents
    rounded half up. *)
Lemma roundedCents_half_up micro :
  0 <= micro <= int64_max - 500 ->
  let cents := quot64 (add64 micro 500) 1000 in
  cents = (micro + 500) / 1000
  /\ 1000 * cents - 500 <= micro < 1000 * cents + 500.
Proof.
  intros Hm. cbv zeta.
  assert (add64 micro 500 = micro + 500) as -> by (apply wrap64_small; int64_lia).
  assert (0 <= (micro + 500) / 1000) by (apply Z.div_pos; lia).
  assert ((micro + 500) / 1000 <= micro + 500)
    by (apply Z.div_le_upper_bound; lia).
  assert (quot64 (micro + 500) 1000 = (micro + 500) / 1000) as ->.
  { unfold quot64. rewrite Z.quot_div_nonneg by lia. apply wrap64_small. int64_lia. }
  split; [done|].
  pose proof (Z.div_mod (micro + 500) 1000 ltac:(lia)).
  pose proof (Z.mod_pos_bound (micro + 500) 1000 ltac:(lia)). lia.
Qed.


(** The labels of a few aggregates: halves round up. *)
Lemma formatMicroCentsAsDollars_examples :
  formatMicroCentsAsDollars 3333333 = "$33.33"
  /\ formatMicroCentsAsDollars 499 = "$0.00"
  /\ formatMicroCentsAsDollars 500 = "$0.01"
  /\ formatMicroCentsAsDollars 1499 = "$0.01"
  /\ formatMicroCentsAsDollars 1500 = "$0.02"
  /\ formatMicroCentsAsDollars 4000000 = "$40.00".
Proof. split_and!; vm_compute; reflexivity. Qed.


(** ** The identity normalizer *)

Lemma toLowerAscii_space c : isSpace (toLowerAscii c) = isSpace c.
Proof. each_ascii c; reflexivity. Qed.

Lemma toLowerAscii_idemp c : toLowerAscii (toLowerAscii c) = toLowerAscii c.
Proof. each_ascii c; reflexivity. Qed.

Lemma toLowerAscii_N c :
  N_of_ascii (toLowerAscii c)
  = (if isUpper c then N_of_ascii c + 32 else N_of_ascii c)%N.
Proof. each_ascii c; reflexivity. Qed.

Lemma isUpper_bounds c : isUpper c = true -> (65 <= N_of_ascii c <= 90)%N.
Proof.
  unfold isUpper. cbv zeta. intros [H1 H2]%andb_true_iff.
  apply N.leb_le in H1, H2. lia.
Qed.

(** Lower-casing leaves the bytes from 128 on as they are. *)
Lemma byteIs_toLowerAscii n c :
  (128 <= n)%N -> byteIs n (toLowerAscii c) = byteIs n c.
Proof.
  intros Hn. unfold byteIs. rewrite toLowerAscii_N.
  destruct (isUpper c) eqn:E; [|done]. apply isUpper_bounds in E.
  destruct (N.eqb_spec (N_of_ascii c + 32) n), (N.eqb_spec (N_of_ascii c) n); lia.
Qed.

Lemma byteIn_toLowerAscii lo hi c :
  (128 <= lo)%N -> byteIn lo hi (toLowerAscii c) = byteIn lo hi c.
Proof.
  intros Hn. unfold byteIn. rewrite toLowerAscii_N.
  destruct (isUpper c) eqn:E; [|done]. apply isUpper_bounds in E.
  destruct (N.leb_spec lo (N_of_ascii c + 32)), (N.leb_spec lo (N_of_ascii c));
    try lia; try done.
Qed.

Lemma isSpaceRune_ToLower s : isSpaceRune (ToLower s) = isSpaceRune s.
Proof.
  destruct s as [|c1 [|c2 [|c3 [|c4 s]]]]; cbn [ToLower isSpaceRune]; try done.
  - apply toLowerAscii_space.
  - by rewrite !byteIs_toLowerAscii by lia.
  - by rewrite !byteIs_toLowerAscii, byteIn_toLowerAscii by lia.
Qed.

Lemma ToLower_idemp s : ToLower (ToLower s) = ToLower s.
Proof. induction s as [|c s IH]; simpl; [done|]. by rewrite toLowerAscii_idemp, IH. Qed.

(** *** The cases of [trimLeft] *)

Lemma headSpace_false_1 c1 s1 :
  headSpace (String c1 s1) = false -> isSpace c1 = false.
Proof. cbn [headSpace]. by intros [? _]%orb_false_iff. Qed.

Lemma trimLeft_fixed s : headSpace s = false -> trimLeft s = s.
Proof.
  destruct s as [|c1 [|c2 [|c3 s3]]]; cbn [headSpace trimLeft]; try done.
  - rewrite orb_false_r. by intros ->.
  - intros [-> [-> _]%orb_false_iff]%orb_false_iff. done.
  - intros [-> [-> ->]%orb_false_iff]%orb_false_iff. done.
Qed.

Lemma trimLeft_space1 c1 s1 :
  isSpace c1 = true -> trimLeft (String c1 s1) = trimLeft s1.
Proof. cbn [trimLeft]. by intros ->. Qed.

Lemma trimLeft_space2 c1 c2 s2 :
  isSpace c1 = false ->
  isSpaceRune (String c1 (String c2 EmptyString)) = true ->
  trimLeft (String c1 (String c2 s2)) = trimLeft s2.
Proof. cbn [trimLeft]. by intros -> ->. Qed.

Lemma trimLeft_space3 c1 c2 c3 s3 :
  isSpace c1 = false ->
  isSpaceRune (String c1 (String c2 EmptyString)) = false ->
  isSpaceRune (String c1 (String c2 (String c3 EmptyString))) = true ->
  trimLeft (String c1 (String c2 (String c3 s3))) = trimLeft s3.
Proof. cbn [trimLeft]. by intros -> -> ->. Qed.

(** Induction along the runs of [trimLeft]. *)
Lemma trimLeft_ind (P : string -> Prop) :
  (forall s, headSpace s = false -> P s) ->
  (forall c1 s1, isSpace c1 = true -> P s1 -> P (String c1 s1)) ->
  (forall c1 c2 s2,
     isSpace c1 = false ->
     isSpaceRune (String c1 (String c2 EmptyString)) = true ->
     P s2 -> P (String c1 (String c2 s2))) ->
  (forall c1 c2 c3 s3,
     isSpace c1 = false ->
     isSpaceRune (String c1 (String c2 EmptyString)) = false ->
     isSpaceRune (String c1 (String c2 (String c3 EmptyString))) = true ->
     P s3 -> P (String c1 (String c2 (String c3 s3)))) ->
  forall s, P s.
Proof.
  intros H0 H1 H2 H3.
  assert (forall s, P s /\ (forall c, P (String c s))
                    /\ (forall c c', P (String c (String c' s)))) as H;
    [|intros s; apply H].
  induction s as [|c3 s3 (IH0 & IH1 & IH2)].
  - split; [by apply H0|]. split.
    + intros c. destruct (isSpace c) eqn:E; [apply H1; [done|by apply H0]|].
      apply H0. cbn [headSpace]. by rewrite E.
    + intros c c'. destruct (isSpace c) eqn:E.
      { apply H1; [done|]. destruct (isSpace c') eqn:E'; [apply H1; [done|by apply H0]|].
        apply H0. cbn [headSpace]. by rewrite E'. }
      destruct (isSpaceRune (String c (String c' EmptyString))) eqn:E2.
      { apply H2; [done..|by apply H0]. }
      apply H0. cbn [headSpace]. by rewrite E, E2.
  - split; [apply IH1|]. split; [intros c; apply IH2|].
    intros c c'. destruct (isSpace c) eqn:E; [apply H1; [done|apply IH2]|].
    destruct (isSpaceRune (String c (String c' EmptyString))) eqn:E2;
      [apply H2; [done..|apply IH1]|].
    destruct (isSpaceRune (String c (String c' (String c3 EmptyString)))) eqn:E3;
      [apply H3; [done..|apply IH0]|].
    apply H0. cbn [headSpace]. by rewrite E, E2, E3.
Qed.

Lemma trimLeft_headSpace s : headSpace (trimLeft s) = false.
Proof.
  induction s as [s Hs|c1 s1 H1 IH|c1 c2 s2 H1 H2 IH|c1 c2 c3 s3 H1 H2 H3 IH]
    using trimLeft_ind.
  - by rewrite trimLeft_fixed.
  - by rewrite trimLeft_space1.
  - by rewrite trimLeft_space2.
  - by rewrite trimLeft_space3.
Qed.

Lemma isSpaceRune_ToLower2 c1 c2 :
  isSpaceRune (String (toLowerAscii c1) (String (toLowerAscii c2) EmptyString))
  = isSpaceRune (String c1 (String c2 EmptyString)).
Proof. apply (isSpaceRune_ToLower (String c1 (String c2 EmptyString))). Qed.

Lemma isSpaceRune_ToLower3 c1 c2 c3 :
  isSpaceRune (String (toLowerAscii c1)
                 (String (toLowerAscii c2) (String (toLowerAscii c3) EmptyString)))
  = isSpaceRune (String c1 (String c2 (String c3 EmptyString))).
Proof.
  apply (isSpaceRune_ToLower (String c1 (String c2 (String c3 EmptyString)))).
Qed.

Lemma headSpace_ToLower s : headSpace (ToLower s) = headSpace s.
Proof.
  destruct s as [|c1 [|c2 [|c3 s3]]]; cbn [headSpace ToLower]; [done|..].
  - by rewrite toLowerAscii_space.
  - by rewrite toLowerAscii_space, isSpaceRune_ToLower2.
  - by rewrite toLowerAscii_space, isSpaceRune_ToLower2, isSpaceRune_ToLower3.
Qed.

Lemma trimLeft_ToLower s : trimLeft (ToLower s) = ToLower (trimLeft s).
Proof.
  induction s as [s Hs|c1 s1 H1 IH|c1 c2 s2 H1 H2 IH|c1 c2 c3 s3 H1 H2 H3 IH]
    using trimLeft_ind.
  - rewrite !trimLeft_fixed; [done|done|]. by rewrite headSpace_ToLower.
  - cbn [ToLower]. rewrite !trimLeft_space1; [done|done|].
    by rewrite toLowerAscii_space.
  - cbn [ToLower].
    rewrite !trimLeft_space2;
      rewrite ?toLowerAscii_space, ?isSpaceRune_ToLower2; done.
  - cbn [ToLower].
    rewrite !trimLeft_space3;
      rewrite ?toLowerAscii_space, ?isSpaceRune_ToLower2, ?isSpaceRune_ToLower3;
      done.
Qed.

(** *** [trimRight] *)

Lemma trimRight_ToLower s : trimRight (ToLower s) = ToLower (trimRight s).
Proof.
  induction s as [|c s IH]; cbn [ToLower trimRight]; [done|]. cbv zeta.
  rewrite IH.
  change (String (toLowerAscii c) (ToLower (trimRight s)))
    with (ToLower (String c (trimRight s))).
  rewrite isSpaceRune_ToLower.
  by destruct (isSpaceRune (String c (trimRight s))).
Qed.

Lemma TrimSpace_ToLower s : TrimSpace (ToLower s) = ToLower (TrimSpace s).
Proof. unfold TrimSpace. by rewrite trimLeft_ToLower, trimRight_ToLower. Qed.

Lemma trimRight_idemp s : trimRight (trimRight s) = trimRight s.
Proof.
  induction s as [|c s IH]; cbn [trimRight]; [done|]. cbv zeta.
  destruct (isSpaceRune (String c (trimRight s))) eqn:E; [done|].
  cbn [trimRight]. cbv zeta. by rewrite IH, E.
Qed.

(** What [trimRight] leaves is the beginning of the string. *)
Lemma trimRight_prefix s : exists x, s = String.append (trimRight s) x.
Proof.
  induction s as [|c s [x IH]]; cbn [trimRight]; [by exists EmptyString|]. cbv zeta.
  destruct (isSpaceRune (String c (trimRight s))).
  - by exists (String c s).
  - exists x.
    change (String c s = String c (String.append (trimRight s) x)). by f_equal.
Qed.

(** A string that begins with a white-space rune still does when it is
    extended. *)
Lemma headSpace_prefix r x :
  headSpace (String.append r x) = false -> headSpace r = false.
Proof.
  destruct r as [|c1 [|c2 [|c3 r]]]; [done|..].
  - change (String.append (String c1 EmptyString) x) with (String c1 x).
    intros H%headSpace_false_1. cbn [headSpace]. by rewrite H.
  - change (String.append (String c1 (String c2 EmptyString)) x)
      with (String c1 (String c2 x)).
    cbn [headSpace]. intros [-> [-> _]%orb_false_iff]%orb_false_iff. done.
  - done.
Qed.

Lemma trimRight_headSpace s : headSpace s = false -> headSpace (trimRight s) = false.
Proof.
  intros Hs. destruct (trimRight_prefix s) as [x Hx]. rewrite Hx in Hs.
  by apply headSpace_prefix in Hs.
Qed.

Lemma TrimSpace_idemp s : TrimSpace (TrimSpace s) = TrimSpace s.
Proof.
  unfold TrimSpace.
  rewrite (trimLeft_fixed (trimRight (trimLeft s)))
    by apply trimRight_headSpace, trimLeft_headSpace.
  apply trimRight_idemp.
Qed.

Lemma normalizeName_TrimSpace s : normalizeName (TrimSpace s) = normalizeName s.
Proof. unfold normalizeName. by rewrite TrimSpace_idemp. Qed.

Lemma TrimSpace_normalizeName s : TrimSpace (normalizeName s) = normalizeName s.
Proof. unfold normalizeName. by rewrite TrimSpace_ToLower, TrimSpace_idemp. Qed.

Lemma normalizeName_ToLower s : normalizeName (ToLower s) = normalizeName s.
Proof. unfold normalizeName. by rewrite TrimSpace_ToLower, ToLower_idemp. Qed.

Lemma normalizeName_idemp s : normalizeName (normalizeName s) = normalizeName s.
Proof.
  unfold normalizeName at 1. rewrite TrimSpace_normalizeName.
  unfold normalizeName. apply ToLower_idemp.
Qed.

(** *** Strings of ASCII bytes *)

Lemma isSpaceRune_ascii c t :
  isASCII c = true ->
  isSpaceRune (String c t)
  = match t with EmptyString => isSpace c | String _ _ => false end.
Proof.
  unfold isASCII. intros Hc%N.ltb_lt.
  assert (forall n, (128 <= n)%N -> byteIs n c = false) as Hb.
  { intros n Hn. unfold byteIs. destruct (N.eqb_spec (N_of_ascii c) n); [lia|done]. }
  destruct t as [|c2 [|c3 [|c4 t]]]; cbn [isSpaceRune]; try done.
  - by rewrite Hb by lia.
  - by rewrite !Hb by lia.
Qed.

(** A string of ASCII bytes that are no white space is trimmed. *)
Lemma TrimSpace_plain (p : ascii -> bool) s :
  (forall c, p c = true -> isSpace c = false /\ isASCII c = true) ->
  allChars p s = true -> TrimSpace s = s.
Proof.
  intros Hp Hs. unfold TrimSpace.
  assert (trimLeft s = s) as ->.
  { apply trimLeft_fixed. destruct s as [|c1 s1]; [done|].
    cbn [allChars] in Hs. apply andb_true_iff in Hs as [[H1 A1]%Hp Hs].
    cbn [headSpace]. rewrite H1. cbn [orb].
    destruct s1 as [|c2 s2]; [done|]. rewrite (isSpaceRune_ascii c1) by done.
    destruct s2 as [|c3 s3]; [done|]. by rewrite (isSpaceRune_ascii c1) by done. }
  induction s as [|c s IH]; [done|].
  cbn [allChars] in Hs. apply andb_true_iff in Hs as [[H1 A1]%Hp Hs].
  cbn [trimRight]. cbv zeta. rewrite IH by done.
  rewrite isSpaceRune_ascii by done. rewrite H1. by destruct s.
Qed.

(** For a name of ASCII bytes: the key is a fixed point of
    [normalizeName], and so of [strings.TrimSpace] and of
    [strings.ToLower]; the name and its trimmed or lower-cased form have
    the same key. *)
Theorem normalizeName_canonical (s : string) :
  allChars isASCII s = true ->
  normalizeName (normalizeName s) = normalizeName s
  /\ TrimSpace (normalizeName s) = normalizeName s
  /\ ToLower (normalizeName s) = normalizeName s
  /\ normalizeName (TrimSpace s) = normalizeName s
  /\ normalizeName (ToLower s) = normalizeName s.
Proof.
  intros _. split_and!.
  - apply normalizeName_idemp.
  - apply TrimSpace_normalizeName.
  - apply ToLower_idemp.
  - apply normalizeName_TrimSpace.
  - apply normalizeName_ToLower.
Qed.

Lemma normalizeName_canonical_witness :
  normalizeName "  Alice Smith " = "alice smith"
  /\ normalizeName (normalizeName "  Alice Smith ") = normalizeName "  Alice Smith "
  /\ normalizeName (ToLower "  Alice Smith ") = normalizeName "  Alice Smith ".
Proof.
  destruct (normalizeName_canonical "  Alice Smith ") as (H1 & _ & _ & _ & H5).
  - reflexivity.
  - split; [reflexivity|]. split; [exact H1|exact H5].
Defined.


(** ** The membership store *)

Lemma graphInSync_dom g :
  graphInSync g = true <-> dom (people g) = dom (nodes (group_graph g)).
Proof.
  unfold graphInSync. rewrite !andb_true_iff, !forallb_forall, Nat.eqb_eq.
  split.
  - intros [[_ H1] H2]. apply set_eq. intros k. rewrite !elem_of_dom.
    split; intros Hk.
    + specialize (H1 k). rewrite <- list_elem_of_In, keysOf_elem_of in H1.
      apply bool_decide_eq_true in H1; done.
    + specialize (H2 k). rewrite <- list_elem_of_In, keysOf_elem_of in H2.
      apply bool_decide_eq_true in H2; done.
  - intros Hd. split_and!.
    + by rewrite <- !size_dom, Hd.
    + intros k. rewrite <- list_elem_of_In, keysOf_elem_of, bool_decide_eq_true.
      rewrite <- !elem_of_dom. by rewrite Hd.
    + intros k. rewrite <- list_elem_of_In, keysOf_elem_of, bool_decide_eq_true.
      rewrite <- !elem_of_dom. by rewrite Hd.
Qed.

Lemma personNamePattern_nonempty d :
  personNamePattern d = true -> exists c rest, d = String c rest /\ isLetter c = true.
Proof.
  destruct d as [|c rest]; simpl; [done|].
  rewrite !andb_true_iff. intros [[Hc _] _]. eauto.
Qed.

Lemma isLetter_not_space c : isLetter c = true -> isSpace c = false.
Proof. each_ascii c; simpl; done. Qed.

Lemma normalizeName_nonempty d :
  personNamePattern d = true -> TrimSpace d = d -> normalizeName d <> "".
Proof.
  intros (c & rest & -> & Hc)%personNamePattern_nonempty Ht.
  unfold normalizeName. rewrite Ht. simpl. done.
Qed.

Lemma personNamePattern_ToLower d :
  personNamePattern (ToLower d) = personNamePattern d.
Proof.
  assert (forall c, isLetter (toLowerAscii c) = isLetter c) as Hl
    by (intros c; each_ascii c; reflexivity).
  assert (forall c, (N_of_ascii (toLowerAscii c) =? 95)%N = (N_of_ascii c =? 95)%N)
    as H95 by (intros c; each_ascii c; reflexivity).
  assert (forall c, (N_of_ascii (toLowerAscii c) =? 32)%N = (N_of_ascii c =? 32)%N)
    as H32 by (intros c; each_ascii c; reflexivity).
  assert (forall c, (N_of_ascii (toLowerAscii c) =? 45)%N = (N_of_ascii c =? 45)%N)
    as H45 by (intros c; each_ascii c; reflexivity).
  destruct d as [|c rest]; [done|]. cbn [ToLower personNamePattern].
  rewrite Hl. f_equal; [f_equal|].
  - induction rest as [|c' rest IH]; [done|]. cbn [ToLower allChars].
    by rewrite Hl, H95, H32, H45, IH.
  - f_equal. induction rest as [|c' rest IH]; [done|]. simpl. by rewrite IH.
Qed.

(** The state [AddPerson] leaves when it registers [name]. *)
Lemma AddPerson_ok g name :
  personNamePattern (TrimSpace name) = true ->
  people g !! normalizeName name = None ->
  nodes (group_graph g) !! normalizeName name = None ->
  AddPerson g name
  = (mkGroup (group_Name g)
       (mkGraph (graph_Name (group_graph g))
                (<[normalizeName name := []]> (nodes (group_graph g))))
       (<[normalizeName name := mkPerson (TrimSpace name)]> (people g))
       (expenses g) (expenseIdCounter g), None).
Proof.
  intros Hpat Hp Hn. unfold AddPerson. rewrite Hpat. cbn [negb].
  rewrite normalizeName_TrimSpace, Hp. unfold addNode.
  rewrite TrimSpace_normalizeName.
  assert (normalizeName name <> "") as Hne.
  { rewrite <- normalizeName_TrimSpace.
    apply normalizeName_nonempty; [done|apply TrimSpace_idemp]. }
  apply String.eqb_neq in Hne. by rewrite Hne, Hn.
Qed.

Lemma AddPerson_inv g name g' err :
  graphInSync g = true ->
  AddPerson g name = (g', err) ->
  (err = Some InvalidName /\ g' = g
   /\ personNamePattern (TrimSpace name) = false)
  \/ (exists p, err = Some (DuplicateMember (person_Name p)) /\ g' = g
               /\ personNamePattern (TrimSpace name) = true
               /\ people g !! normalizeName name = Some p)
  \/ (err = None
      /\ personNamePattern (TrimSpace name) = true
      /\ people g !! normalizeName name = None
      /\ g' = mkGroup (group_Name g)
                (mkGraph (graph_Name (group_graph g))
                         (<[normalizeName name := []]> (nodes (group_graph g))))
                (<[normalizeName name := mkPerson (TrimSpace name)]> (people g))
                (expenses g) (expenseIdCounter g)).
Proof.
  intros Hsync H.
  destruct (personNamePattern (TrimSpace name)) eqn:Hpat.
  - destruct (people g !! normalizeName name) as [p|] eqn:Hp.
    + right. left. exists p. unfold AddPerson in H.
      rewrite Hpat, normalizeName_TrimSpace, Hp in H. cbn [negb] in H.
      injection H as <- <-. done.
    + right. right. rewrite AddPerson_ok in H; [by injection H as <- <-|done..|].
      apply graphInSync_dom in Hsync. apply not_elem_of_dom.
      rewrite <- Hsync. by apply not_elem_of_dom.
  - left. unfold AddPerson in H. rewrite Hpat in H. cbn [negb] in H.
    by injection H as <- <-.
Qed.

Lemma AddPerson_sync g name : 
  graphInSync g = true -> graphInSync (fst (AddPerson g name)) = true.
Proof.
  intros Hsync. destruct (AddPerson g name) as [g' err] eqn:E.
  apply AddPerson_inv in E as [(_ & -> & _)|[(p & _ & -> & _)|(_ & _ & _ & ->)]];
    try done.
  cbn [fst]. apply graphInSync_dom. cbn [people group_graph nodes].
  apply graphInSync_dom in Hsync. rewrite !dom_insert_L. by rewrite Hsync.
Qed.


(** ** The edges of an expense *)

Lemma addEdges_nodes fromKeys paidByKey shares id : forall gr,
  NoDup fromKeys ->
  (forall k, k ∈ fromKeys -> is_Some (nodes gr !! k)) ->
  is_Some (nodes gr !! paidByKey) ->
  exists gr',
    addEdges gr fromKeys paidByKey shares id = (gr', None)
    /\ graph_Name gr' = graph_Name gr
    /\ forall k,
         nodes gr' !! k
         = (fun es => es ++ (if bool_decide (k ∈ fromKeys)
                             then edgeFor paidByKey shares id k else []))
             <$> nodes gr !! k.
Proof.
  induction fromKeys as [|k0 rest IH]; intros gr Hnd Hin Hpay.
  - exists gr. split_and!; [done..|]. intros k.
    destruct (nodes gr !! k); cbn [fmap option_fmap option_map]; [|done].
    rewrite bool_decide_eq_false_2 by apply not_elem_of_nil.
    by rewrite app_nil_r.
  - apply NoDup_cons in Hnd as [Hk0 Hnd].
    assert (forall k, k ∈ rest -> is_Some (nodes gr !! k)) as Hin'
      by (intros k Hk; apply Hin; by right).
    cbn [addEdges].
    assert (forall k es',
              edgeFor paidByKey shares id k0 = [] ->
              es' ++ (if bool_decide (k ∈ rest)
                      then edgeFor paidByKey shares id k else [])
              = es' ++ (if bool_decide (k ∈ k0 :: rest)
                        then edgeFor paidByKey shares id k else [])) as Hskip.
    { intros k es' Hnil. f_equal. repeat case_bool_decide; try done.
      - exfalso. set_solver.
      - assert (k = k0) as -> by set_solver. by rewrite Hnil. }
    destruct (String.eqb k0 paidByKey) eqn:Epay.
    { destruct (IH gr Hnd Hin' Hpay) as (gr' & Heq & Hname & Hl).
      exists gr'. split_and!; [done..|]. intros k. rewrite Hl.
      destruct (nodes gr !! k); simpl; [|done]. f_equal. apply Hskip.
      unfold edgeFor. by rewrite Epay. }
    destruct (shares !! k0) as [owed|] eqn:Eshare.
    2:{ destruct (IH gr Hnd Hin' Hpay) as (gr' & Heq & Hname & Hl).
      exists gr'. split_and!; [done..|]. intros k. rewrite Hl.
      destruct (nodes gr !! k); simpl; [|done]. f_equal. apply Hskip.
      unfold edgeFor. by rewrite Epay, Eshare. }
    destruct (Hin k0 ltac:(left)) as [es Hes].
    rewrite (addEdge_ok gr k0 paidByKey _ es Hes Hpay).
    set (gr1 := mkGraph (graph_Name gr)
                  (<[k0 := es ++ [mkEdge paidByKey (mkEdgeMetadata owed id)]]>
                     (nodes gr))).
    assert (forall k, is_Some (nodes gr !! k) -> is_Some (nodes gr1 !! k)) as Hmono.
    { intros k Hk. unfold gr1. cbn [nodes].
      destruct (decide (k0 = k)) as [->|Hne];
        [rewrite lookup_insert_eq; eauto|by rewrite lookup_insert_ne]. }
    destruct (IH gr1 Hnd ltac:(intros k Hk; by apply Hmono, Hin')
                 ltac:(by apply Hmono)) as (gr' & Heq & Hname & Hl).
    exists gr'. split_and!; [done..|]. intros k. rewrite Hl.
    unfold gr1. cbn [nodes].
    destruct (decide (k0 = k)) as [<-|Hne].
    + rewrite lookup_insert_eq, Hes. cbn [fmap option_fmap option_map].
      f_equal. rewrite <- app_assoc. f_equal.
      repeat case_bool_decide; try done.
      * unfold edgeFor. by rewrite Epay, Eshare.
      * exfalso. set_solver.
    + rewrite lookup_insert_ne by done.
      destruct (nodes gr !! k); simpl; [|done]. f_equal. f_equal.
      repeat case_bool_decide; try done; exfalso; set_solver.
Qed.

(** The edge lists after a successful call. *)
Lemma AddExpense_edges g e g' e' :
  AddExpense g e = (g', e', None) ->
  exists to shares,
    people g !! normalizeName (PaidBy e) = Some to
    /\ computeShares g e' = Ok shares
    /\ graphInSync g = true
    /\ ID e' = add64 (expenseIdCounter g) 1
    /\ people g' = people g
    /\ group_Name g' = group_Name g
    /\ expenseIdCounter g' = ID e'
    /\ expenses g' = <[ID e' := e']> (expenses g)
    /\ graph_Name (group_graph g') = graph_Name (group_graph g)
    /\ forall k,
         nodes (group_graph g') !! k
         = (fun es => es ++ newEdgesOf g (normalizeName (PaidBy e)) shares (ID e') k)
             <$> nodes (group_graph g) !! k.
Proof.
  intros H. apply AddExpense_inv in H as [(er & ? & _)|(_ & _ & H)]; [done|].
  destruct H as (to & np & nw & shares & gr & Hto & _ & _ & _ & _ & -> & Hsh
                 & Hsync & Hedges & ->).
  exists to, shares. cbn [ID people group_Name expenseIdCounter expenses group_graph].
  split_and!; try done.
  - destruct (addEdges_nodes (keysOf (people g)) (normalizeName (PaidBy e))
                shares (add64 (expenseIdCounter g) 1) (group_graph g))
      as (gr' & Heq & Hname & _).
    + apply keysOf_NoDup.
    + intros k Hk. apply graphInSync_nodes; [done|]. by apply keysOf_elem_of.
    + apply graphInSync_nodes; [done|]. eauto.
    + congruence.
  - intros k.
    destruct (addEdges_nodes (keysOf (people g)) (normalizeName (PaidBy e))
                shares (add64 (expenseIdCounter g) 1) (group_graph g))
      as (gr' & Heq & _ & Hl).
    + apply keysOf_NoDup.
    + intros k' Hk. apply graphInSync_nodes; [done|]. by apply keysOf_elem_of.
    + apply graphInSync_nodes; [done|]. eauto.
    + assert (gr' = gr) as -> by congruence. rewrite Hl.
      destruct (nodes (group_graph g) !! k); simpl; [|done].
      unfold newEdgesOf. 
      destruct (people g !! k) as [p|] eqn:Hp.
      * rewrite bool_decide_eq_true_2; [done|]. apply keysOf_elem_of. eauto.
      * rewrite bool_decide_eq_false_2; [done|]. rewrite keysOf_elem_of, Hp.
        by intros [? ?].
Qed.


(** ** Invariants of the groups the operations produce *)

Lemma newEdgesOf_joins g paidByKey shares id k ed :
  is_Some (people g !! paidByKey) ->
  ed ∈ newEdgesOf g paidByKey shares id k ->
  is_Some (people g !! k) /\ To ed = paidByKey /\ To ed <> k
  /\ ExpenseID (Metadata ed) = id
  /\ shares !! k = Some (AmountInMicroCents (Metadata ed)).
Proof.
  intros Hpay. unfold newEdgesOf, edgeFor.
  destruct (people g !! k) as [p|]; [|by intros ?%elem_of_nil].
  destruct (String.eqb k paidByKey) eqn:E; [by intros ?%elem_of_nil|].
  apply String.eqb_neq in E.
  destruct (shares !! k) as [owed|]; [|by intros ?%elem_of_nil].
  intros ->%list_elem_of_singleton. cbn. split_and!; eauto.
Qed.

Lemma reachable_inv g :
  reachable g ->
  graphInSync g = true /\ membersCanonical g /\ edgesJoinMembers g
  /\ graph_Name (group_graph g) = group_Name g
  /\ groupNamePattern (group_Name g) = true.
Proof.
  induction 1 as [name g Hnew|g name g' err _ IH Hadd|g e g' e' err _ IH Hadd].
  - unfold NewGroup in Hnew.
    destruct (groupNamePattern (TrimSpace name)) eqn:Hpat; [|done].
    injection Hnew as <-. cbn. split_and!; try done.
  - destruct IH as (Hsync & Hcan & Hedges & Hname & Hpat).
    pose proof (AddPerson_sync g name Hsync) as Hsync'. rewrite Hadd in Hsync'.
    apply (AddPerson_inv _ _ _ _ Hsync) in Hadd
      as [(_ & -> & _)|[(p & _ & -> & _)|(_ & Hp & Hfree & ->)]]; [done..|].
    split_and!; try done.
    + unfold membersCanonical. cbn [people]. apply map_Forall_insert_2; [|done].
      cbn. split_and!; [apply normalizeName_TrimSpace|apply TrimSpace_idemp|done].
    + unfold edgesJoinMembers. cbn [people group_graph nodes].
      apply map_Forall_insert_2; [done|].
      eapply map_Forall_impl; [exact Hedges|]. intros from es Hes. cbn beta in *.
      eapply Forall_impl; [exact Hes|]. intros ed (H1 & H2 & H3).
      split_and!; [| |done].
      * destruct (decide (normalizeName name = from)) as [->|?];
          [rewrite lookup_insert_eq; eauto|by rewrite lookup_insert_ne].
      * destruct (decide (normalizeName name = To ed)) as [->|?];
          [rewrite lookup_insert_eq; eauto|by rewrite lookup_insert_ne].
  - destruct IH as (Hsync & Hcan & Hedges & Hname & Hpat).
    destruct err as [er|].
    { apply AddExpense_inv in Hadd as [(er' & _ & ->)|(? & _)]; done. }
    apply AddExpense_edges in Hadd
      as (to & shares & Hto & _ & _ & _ & Hpeople & Hgname & _ & _ & Hgr & Hl).
    split_and!.
    + apply graphInSync_dom. rewrite Hpeople.
      apply graphInSync_dom in Hsync. rewrite Hsync.
      apply set_eq. intros k. rewrite !elem_of_dom, Hl.
      by rewrite fmap_is_Some.
    + unfold membersCanonical. by rewrite Hpeople.
    + unfold edgesJoinMembers. rewrite Hpeople. intros from es' Hes'.
      rewrite Hl in Hes'.
      destruct (nodes (group_graph g) !! from) as [es|] eqn:Hes; [|done].
      injection Hes' as <-. apply Forall_app. split; [by eapply Hedges|].
      apply Forall_forall. intros ed Hed. cbn beta.
      apply newEdgesOf_joins in Hed as (H1 & H2 & H3 & _); [|eauto].
      rewrite H2 in *. split_and!; eauto.
    + congruence.
    + congruence.
Qed.

(** The expense ids, while fewer than [2^63] expenses are logged. *)
Lemma reachable_ids g :
  reachable g ->
  Z.of_nat (size (expenses g)) <= int64_max ->
  expenseIdCounter g = Z.of_nat (size (expenses g))
  /\ (forall id, is_Some (expenses g !! id) <-> 1 <= id <= expenseIdCounter g)
  /\ edgeIdsLogged g.
Proof.
  induction 1 as [name g Hnew|g name g' err Hr IH Hadd|g e g' e' err Hr IH Hadd].
  - unfold NewGroup in Hnew.
    destruct (groupNamePattern (TrimSpace name)) eqn:Hpat; [|done].
    injection Hnew as <-. cbn. intros _. split_and!; [done| |].
    + intros id. rewrite lookup_empty. split; [by intros [? ?]|lia].
    + unfold edgeIdsLogged. cbn. apply map_Forall_empty.
  - apply reachable_inv in Hr as (Hsync & _).
    apply (AddPerson_inv _ _ _ _ Hsync) in Hadd
      as [(_ & -> & _)|[(p & _ & -> & _)|(_ & Hp & Hfree & ->)]]; [done..|].
    cbn [expenses expenseIdCounter]. intros Hb.
    destruct (IH Hb) as (Hc & Hdom & Hids). split_and!; [done..|].
    unfold edgeIdsLogged. cbn [expenses group_graph nodes].
    apply map_Forall_insert_2; [done|exact Hids].
  - destruct err as [er|].
    { apply AddExpense_inv in Hadd as [(er' & _ & ->)|(? & _)]; done. }
    apply AddExpense_edges in Hadd
      as (to & shares & Hto & _ & _ & Hid & Hpeople & _ & Hcnt & Hexp & _ & Hl).
    rewrite Hexp, Hcnt. intros Hb.
    assert (Z.of_nat (size (expenses g)) <= int64_max) as Hb0.
    { rewrite map_size_insert in Hb.
      destruct (expenses g !! ID e'); cbn [id] in Hb; cbn in Hb; lia. }
    destruct (IH Hb0) as (Hc & Hdom & Hids).
    assert (expenseIdCounter g + 1 <= int64_max) as Hroom.
    { destruct (decide (expenseIdCounter g + 1 <= int64_max)) as [|Hover]; [done|].
      exfalso.
      assert (expenseIdCounter g = int64_max) as Hmax by lia.
      assert (ID e' = int64_min) as Hmin.
      { rewrite Hid, Hmax. vm_compute. reflexivity. }
      assert (expenses g !! ID e' = None) as Hnone.
      { apply eq_None_not_Some. rewrite Hdom, Hmin. unfold int64_min. lia. }
      rewrite map_size_insert, Hnone in Hb. lia. }
    assert (ID e' = expenseIdCounter g + 1) as Hid'.
    { rewrite Hid. apply wrap64_small. unfold in_int64, int64_min. lia. }
    assert (expenses g !! ID e' = None) as Hnone.
    { apply eq_None_not_Some. rewrite Hdom. lia. }
    split_and!.
    + rewrite map_size_insert, Hnone. lia.
    + intros id. rewrite lookup_insert_is_Some', Hdom. lia.
    + unfold edgeIdsLogged. intros from es' Hes'. rewrite Hl in Hes'.
      destruct (nodes (group_graph g) !! from) as [es|] eqn:Hes; [|done].
      injection Hes' as <-. apply Forall_app. split.
      * eapply Forall_impl; [by eapply Hids|]. intros ed Hed. cbn beta in *.
        rewrite Hexp. apply lookup_insert_is_Some'. by right.
      * apply Forall_forall. intros ed Hed. cbn beta.
        apply newEdgesOf_joins in Hed as (_ & _ & _ & -> & _); [|eauto].
        rewrite Hexp, lookup_insert_eq. eauto.
Qed.


(** ** Membership *)

(** On a group whose graph and membership agree, [AddPerson] has three
    outcomes.  It fails with [InvalidName] when the trimmed name is not of
    the accepted form, and with [DuplicateMember], naming the member
    already registered, when the key is taken; both leave the group as it
    was.  Otherwise it succeeds: the trimmed name is registered under its
    key, the graph gets a node without edges for the key, nothing else
    changes, and graph and membership still agree.  The errors of
    [addNode] never show. *)
Theorem AddPerson_outcomes g name g' err :
  graphInSync g = true ->
  AddPerson g name = (g', err) ->
  (err = Some InvalidName /\ g' = g
   /\ personNamePattern (TrimSpace name) = false)
  \/ (exists p, err = Some (DuplicateMember (person_Name p)) /\ g' = g
               /\ people g !! normalizeName name = Some p)
  \/ (err = None
      /\ personNamePattern (TrimSpace name) = true
      /\ people g !! normalizeName name = None
      /\ people g'
         = <[normalizeName name := mkPerson (TrimSpace name)]> (people g)
      /\ nodes (group_graph g')
         = <[normalizeName name := []]> (nodes (group_graph g))
      /\ expenses g' = expenses g
      /\ expenseIdCounter g' = expenseIdCounter g
      /\ group_Name g' = group_Name g
      /\ graphInSync g' = true).
Proof.
  intros Hsync H.
  pose proof (AddPerson_sync g name Hsync) as Hsync'. rewrite H in Hsync'.
  apply (AddPerson_inv _ _ _ _ Hsync) in H
    as [(-> & -> & Hp)|[(p & -> & -> & _ & Hp)|(-> & Hp & Hfree & ->)]].
  - by left.
  - right. left. by exists p.
  - right. right. split_and!; done.
Qed.

Lemma AddPerson_outcomes_witness :
  AddPerson tripGroup " Dave " = (fst (AddPerson tripGroup " Dave "), None)
  /\ people (fst (AddPerson tripGroup " Dave ")) !! "dave"
     = Some (mkPerson "Dave")
  /\ nodes (group_graph (fst (AddPerson tripGroup " Dave "))) !! "dave" = Some []
  /\ graphInSync (fst (AddPerson tripGroup " Dave ")) = true.
Proof.
  destruct (AddPerson_outcomes tripGroup " Dave "
              (fst (AddPerson tripGroup " Dave ")) None)
    as [(E & _)|[(p & E & _)|(_ & _ & _ & Hp & Hn & _ & _ & _ & Hs)]].
  - vm_compute. reflexivity.
  - vm_compute. reflexivity.
  - discriminate E.
  - discriminate E.
  - split_and!.
    + vm_compute. reflexivity.
    + rewrite Hp. apply lookup_insert_eq.
    + rewrite Hn. apply lookup_insert_eq.
    + exact Hs.
Defined.

(** Once a name is registered, every name of the accepted form with the
    same key, that is, every name that differs from it only in case and
    in surrounding white space, is refused with [DuplicateMember], which
    reports the display name registered first; the group stays as it
    is. *)
Theorem AddPerson_duplicate g n1 g1 n2 :
  AddPerson g n1 = (g1, None) ->
  personNamePattern (TrimSpace n2) = true ->
  normalizeName n2 = normalizeName n1 ->
  AddPerson g1 n2 = (g1, Some (DuplicateMember (TrimSpace n1))).
Proof.
  intros H Hpat2 Hkey. unfold AddPerson in H.
  destruct (personNamePattern (TrimSpace n1)) eqn:Hpat; cbn [negb] in H; [|done].
  rewrite normalizeName_TrimSpace in H.
  destruct (people g !! normalizeName n1) eqn:Hp; [done|].
  destruct (addNode (group_graph g) (normalizeName n1)) as [gr [er|]]; [done|].
  injection H as <-.
  unfold AddPerson. rewrite Hpat2. cbn [negb people].
  rewrite normalizeName_TrimSpace, Hkey, lookup_insert_eq. done.
Qed.

Lemma AddPerson_duplicate_witness :
  AddPerson (fst (AddPerson tripGroup "Dave")) "  DAVE "
  = (fst (AddPerson tripGroup "Dave"), Some (DuplicateMember "Dave")).
Proof.
  apply (AddPerson_duplicate tripGroup "Dave"
           (fst (AddPerson tripGroup "Dave")) "  DAVE ").
  - vm_compute. reflexivity.
  - vm_compute. reflexivity.
  - vm_compute. reflexivity.
Defined.

(** ** Groups built through the operations *)

Lemma reachable_tripGroup : reachable tripGroup.
Proof.
  assert (exists g0, NewGroup "trip" = Ok g0 /\ tripGroup
            = fst (AddPerson (fst (AddPerson (fst (AddPerson g0 "Alice")) "Bob"))
                             "Charlie")) as (g0 & Hnew & ->).
  { eexists. split; [reflexivity|]. reflexivity. }
  eapply reachable_AddPerson; [|apply surjective_pairing].
  eapply reachable_AddPerson; [|apply surjective_pairing].
  eapply reachable_AddPerson; [|apply surjective_pairing].
  by eapply reachable_NewGroup.
Qed.

Lemma reachable_tripAfterEqual : reachable (fst (fst tripAfterEqual)).
Proof.
  apply (reachable_AddExpense tripGroup (equalExpense 10000000 "Alice")
           (fst (fst tripAfterEqual)) (snd (fst tripAfterEqual))
           (snd tripAfterEqual)); [apply reachable_tripGroup|].
  unfold tripAfterEqual.
  by destruct (AddExpense tripGroup (equalExpense 10000000 "Alice")) as [[? ?] ?].
Qed.

(** In every group built through [NewGroup], [AddPerson] and
    [AddExpense], the node set of the graph is the key set of the
    membership store: the consistency check of [AddExpense] passes, and
    the graph has as many nodes as the group has members. *)
Theorem reachable_graph_in_sync g :
  reachable g ->
  graphInSync g = true
  /\ dom (nodes (group_graph g)) = dom (people g)
  /\ graph_size (group_graph g) = Size g.
Proof.
  intros (Hsync & _)%reachable_inv. split; [done|].
  apply graphInSync_dom in Hsync. split; [done|].
  unfold graph_size, Size. by rewrite <- !size_dom, Hsync.
Qed.

Lemma reachable_graph_in_sync_witness :
  graphInSync (fst (fst tripAfterEqual)) = true
  /\ dom (nodes (group_graph (fst (fst tripAfterEqual))))
     = dom (people (fst (fst tripAfterEqual)))
  /\ graph_size (group_graph (fst (fst tripAfterEqual)))
     = Size (fst (fst tripAfterEqual)).
Proof.
  apply (reachable_graph_in_sync (fst (fst tripAfterEqual))).
  apply reachable_tripAfterEqual.
Defined.

(** In every such group a member is registered under the key of its
    display name; the display name is trimmed and of the accepted form,
    and it is what [displayName] returns for the key. *)
Theorem reachable_members_canonical g key p :
  reachable g ->
  people g !! key = Some p ->
  normalizeName (person_Name p) = key
  /\ TrimSpace (person_Name p) = person_Name p
  /\ personNamePattern (person_Name p) = true
  /\ displayName g key = person_Name p
  /\ normalizeName (displayName g key) = key.
Proof.
  intros (_ & Hcan & _)%reachable_inv Hp.
  destruct (Hcan key p Hp) as (H1 & H2 & H3).
  unfold displayName. rewrite Hp. done.
Qed.

Lemma reachable_members_canonical_witness :
  normalizeName "Alice" = "alice"
  /\ TrimSpace "Alice" = "Alice"
  /\ personNamePattern "Alice" = true
  /\ displayName tripGroup "alice" = "Alice"
  /\ normalizeName (displayName tripGroup "alice") = "alice".
Proof.
  apply (reachable_members_canonical tripGroup "alice" (mkPerson "Alice")).
  - apply reachable_tripGroup.
  - vm_compute. reflexivity.
Defined.

(** In every such group each edge leads from a member to another member:
    both endpoints are registered, and no edge is a loop. *)
Theorem reachable_edges_join_members g from es ed :
  reachable g ->
  nodes (group_graph g) !! from = Some es ->
  ed ∈ es ->
  is_Some (people g !! from)
  /\ is_Some (people g !! To ed)
  /\ is_Some (nodes (group_graph g) !! To ed)
  /\ To ed <> from.
Proof.
  intros Hr Hes Hed.
  destruct (reachable_inv g Hr) as (Hsync & _ & Hedges & _).
  pose proof (Hedges from es Hes) as Hall.
  rewrite Forall_forall in Hall. destruct (Hall ed Hed) as (H1 & H2 & H3).
  split_and!; try done. by apply graphInSync_nodes.
Qed.

Lemma reachable_edges_join_members_witness :
  let ed := mkEdge "alice" (mkEdgeMetadata 3333333 1) in
  is_Some (people (fst (fst tripAfterEqual)) !! "bob")
  /\ is_Some (people (fst (fst tripAfterEqual)) !! To ed)
  /\ is_Some (nodes (group_graph (fst (fst tripAfterEqual))) !! To ed)
  /\ To ed <> "bob".
Proof.
  cbv zeta.
  apply (reachable_edges_join_members (fst (fst tripAfterEqual)) "bob"
           [mkEdge "alice" (mkEdgeMetadata 3333333 1)]).
  - apply reachable_tripAfterEqual.
  - vm_compute. reflexivity.
  - apply list_elem_of_singleton. reflexivity.
Defined.


(** ** Expense ids *)

(** While fewer than [2^63] expenses are logged, the counter of a group
    built through the operations is the number of logged expenses, the
    ids of the log are exactly [1 .. counter], and every edge carries one
    of these ids. *)
Theorem reachable_expense_ids g :
  reachable g ->
  Z.of_nat (size (expenses g)) <= int64_max ->
  expenseIdCounter g = Z.of_nat (size (expenses g))
  /\ (forall id, is_Some (expenses g !! id) <-> 1 <= id <= expenseIdCounter g)
  /\ (forall from es ed,
        nodes (group_graph g) !! from = Some es -> ed ∈ es ->
        1 <= ExpenseID (Metadata ed) <= expenseIdCounter g).
Proof.
  intros Hr Hb. destruct (reachable_ids g Hr Hb) as (Hc & Hdom & Hids).
  split_and!; [done..|]. intros from es ed Hes Hed.
  pose proof (Hids from es Hes) as Hall. rewrite Forall_forall in Hall.
  apply Hdom, Hall, Hed.
Qed.

Lemma reachable_expense_ids_witness :
  let g := fst (fst tripAfterEqual) in
  expenseIdCounter g = Z.of_nat (size (expenses g))
  /\ (forall id, is_Some (expenses g !! id) <-> 1 <= id <= expenseIdCounter g)
  /\ (forall from es ed,
        nodes (group_graph g) !! from = Some es -> ed ∈ es ->
        1 <= ExpenseID (Metadata ed) <= expenseIdCounter g).
Proof.
  cbv zeta. apply (reachable_expense_ids (fst (fst tripAfterEqual))).
  - apply reachable_tripAfterEqual.
  - vm_compute. discriminate.
Defined.

(** An expense ingested into such a group, with room for one more,
    receives the id after the counter: an id larger than every id of the
    log, under which nothing was logged and which no edge carries.  The
    expense is logged under it and the rest of the log is kept. *)
Theorem AddExpense_fresh_id g e g' e' :
  reachable g ->
  Z.of_nat (size (expenses g)) < int64_max ->
  AddExpense g e = (g', e', None) ->
  ID e' = expenseIdCounter g + 1
  /\ expenseIdCounter g' = ID e'
  /\ expenses g !! ID e' = None
  /\ (forall id, is_Some (expenses g !! id) -> id < ID e')
  /\ idUnused (group_graph g) (ID e')
  /\ expenses g' = <[ID e' := e']> (expenses g).
Proof.
  intros Hr Hb Hadd.
  destruct (reachable_ids g Hr ltac:(lia)) as (Hc & Hdom & Hids).
  apply AddExpense_edges in Hadd
    as (to & shares & _ & _ & _ & Hid & _ & _ & Hcnt & Hexp & _ & _).
  assert (ID e' = expenseIdCounter g + 1) as Hid'.
  { rewrite Hid. apply wrap64_small. unfold in_int64, int64_min. lia. }
  split_and!; try done.
  - apply eq_None_not_Some. rewrite Hdom. lia.
  - intros id Hin%Hdom. lia.
  - unfold idUnused. intros from es Hes.
    pose proof (Hids from es Hes) as Hall. cbn beta in *.
    eapply Forall_impl; [exact Hall|]. intros ed Hed%Hdom. cbn beta. lia.
Qed.

Lemma AddExpense_fresh_id_witness :
  let g := fst (fst tripAfterEqual) in
  let r := AddExpense g (equalExpense 3000 "bob") in
  ID (snd (fst r)) = expenseIdCounter g + 1
  /\ expenseIdCounter (fst (fst r)) = ID (snd (fst r))
  /\ expenses g !! ID (snd (fst r)) = None
  /\ (forall id, is_Some (expenses g !! id) -> id < ID (snd (fst r)))
  /\ idUnused (group_graph g) (ID (snd (fst r)))
  /\ expenses (fst (fst r)) = <[ID (snd (fst r)) := snd (fst r)]> (expenses g).
Proof.
  cbv zeta.
  apply (AddExpense_fresh_id (fst (fst tripAfterEqual)) (equalExpense 3000 "bob")).
  - apply reachable_tripAfterEqual.
  - vm_compute. reflexivity.
  - vm_compute. reflexivity.
Defined.

(** ** Rejected and accepted expenses *)

Lemma normalizeSplitLoop_spec input : forall out res,
  normalizeSplitLoop input out = Ok res ->
  res = out ++ map (fun kv => (normalizeName (fst kv), snd kv)) input
  /\ Forall (fun kv => normalizeName (fst kv) <> "") input.
Proof.
  induction input as [|[name value] input IH]; intros out res; simpl.
  - intros [= ->]. by rewrite app_nil_r.
  - destruct (String.eqb (normalizeName name) "") eqn:E; [done|].
    destruct (existsb _ out); [done|].
    intros [-> Hall]%IH. split; [by rewrite <- app_assoc|].
    constructor; [|done]. by apply String.eqb_neq.
Qed.

Lemma normalizeSplitLoop_Err input : forall out er,
  normalizeSplitLoop input out = Err er -> validationError er = true.
Proof.
  induction input as [|[name value] input IH]; intros out er; simpl; [done|].
  destruct (String.eqb (normalizeName name) ""); [by intros [= <-]|].
  destruct (existsb _ out); [by intros [= <-]|]. apply IH.
Qed.

Lemma sumWeights_Err w : forall sumW er,
  sumWeights w sumW = Err er -> er = NegativeWeight.
Proof.
  induction w as [|[k v] w IH]; intros sumW er; simpl; [done|].
  destruct (PrimFloat.ltb v 0); [by intros [= <-]|apply IH].
Qed.

Lemma sumWeights_Ok w : forall sumW s,
  sumWeights w sumW = Ok s ->
  s = fold_left (fun sum kv => PrimFloat.add sum (snd kv)) w sumW
  /\ Forall (fun kv => ~ negativeWeight kv) w.
Proof.
  induction w as [|[k v] w IH]; intros sumW s; simpl.
  - by intros [= <-].
  - destruct (PrimFloat.ltb v 0) eqn:E; [done|].
    intros [-> Hall]%IH. split; [done|]. constructor; [|done].
    unfold negativeWeight. simpl. by rewrite E.
Qed.

Lemma weightItems_nonempty T w :
  PrimFloat.leb (sumValues w) 0%float = false ->
  weightItems T (sumValues w) w <> [].
Proof.
  intros Hle E. apply (f_equal (map item_name)) in E.
  rewrite weightItems_names in E. simpl in E. apply map_eq_nil in E.
  assert (Forall zeroWeight w) as Hz.
  { apply Forall_forall. intros kv Hkv. unfold zeroWeight.
    destruct (PrimFloat.eqb (snd kv) 0) eqn:Ekv; [done|].
    assert (kv ∈ filter (fun kv => PrimFloat.eqb (snd kv) 0%float = false) w)
      as Hin by by apply list_elem_of_filter.
    rewrite E in Hin. by apply elem_of_nil in Hin. }
  pose proof (sumValues_zeros w 0%float (or_introl eq_refl) Hz) as Hs.
  fold (sumValues w) in Hs. congruence.
Qed.

Lemma splitByWeights_Err T w er :
  splitByWeights T w = Err er -> validationError er = true.
Proof.
  unfold splitByWeights.
  destruct (sumWeights w 0) as [s|er'] eqn:Hs.
  - apply sumWeights_Ok in Hs as [-> _]. fold (sumValues w).
    destruct (PrimFloat.leb (sumValues w) 0) eqn:Hle; [by intros [= <-]|].
    destruct (largestRemainder_ok T (weightItems T (sumValues w) w)) as [sh ->];
      [by apply weightItems_nonempty|done].
  - apply sumWeights_Err in Hs as ->. by intros [= <-].
Qed.

Lemma computeShares_Err g e er :
  (2 <= size (people g))%nat ->
  computeShares g e = Err er -> validationError er = true.
Proof.
  intros Hsize. unfold computeShares.
  destruct (String.eqb (SplitMethod e) "equal").
  { unfold splitEqual.
    assert (length (keysOf (people g)) = size (people g)) as ->.
    { unfold keysOf. by rewrite length_map, length_map_to_list. }
    destruct (Z.of_nat (size (people g)) <=? 1) eqn:E; [lia|done]. }
  destruct (String.eqb (SplitMethod e) "percentage").
  { intros [_ ->]%splitByPercent_Err. done. }
  destruct (String.eqb (SplitMethod e) "weights"); [|done].
  apply splitByWeights_Err.
Qed.

(** A call of [AddExpense] on a group whose graph and membership agree
    fails only with one of the errors that reject the request; the
    failures of the consistency check, of [addEdge] and of [splitEqual]
    on too few names do not occur, and nothing divides by zero. *)
Lemma AddExpense_Err g e g' e' er :
  graphInSync g = true ->
  AddExpense g e = (g', e', Some er) -> validationError er = true.
Proof.
  intros Hsync. unfold AddExpense.
  destruct (TotalMicroCents e <=? 0) eqn:Htot; [by intros [= <- <- <-]|].
  cbn [setDescription Description SplitMethod PaidBy SplitPercentages
       SplitWeights TotalMicroCents ID].
  destruct (String.eqb (TrimSpace (Description e)) ""); [by intros [= <- <- <-]|].
  unfold validateSplitMethod.
  destruct (existsb _ _); [|by intros [= <- <- <-]].
  destruct (size (people g) <=? 1)%nat eqn:Hsize; [by intros [= <- <- <-]|].
  apply Nat.leb_gt in Hsize.
  destruct (people g !! normalizeName (PaidBy e)) as [to|] eqn:Hto;
    [|by intros [= <- <- <-]].
  destruct (normalizeSplitMap (SplitPercentages e)) as [np|er1] eqn:Hnp;
    [|intros [= <- <- <-]; by eapply normalizeSplitLoop_Err].
  destruct (firstNonMember g np) eqn:Hfp; [by intros [= <- <- <-]|].
  destruct (normalizeSplitMap (SplitWeights e)) as [nw|er2] eqn:Hnw;
    [|intros [= <- <- <-]; by eapply normalizeSplitLoop_Err].
  destruct (firstNonMember g nw) eqn:Hfw; [by intros [= <- <- <-]|].
  match goal with |- context [computeShares g ?e0] =>
    destruct (computeShares g e0) as [shares|er3] eqn:Hsh end;
    [|intros [= <- <- <-]; eapply computeShares_Err; [|done]; lia].
  rewrite Hsync. cbn [negb].
  destruct (addEdges_in_sync g (normalizeName (PaidBy e)) shares
              (add64 (expenseIdCounter g) 1) Hsync) as (gr & Hedges & _);
    [eauto|].
  rewrite Hedges. done.
Qed.

(** When [AddExpense] fails on a group built through the operations, the
    error is one of those that reject the request (non-positive total,
    empty description, unknown split method, fewer than two members,
    unknown payer, empty or colliding split name, unknown participant,
    percentage sum, negative weight, weight sum), and the group is the one
    it was given.  The consistency check never fails, the edge loop never
    meets an unknown node, [splitEqual] never sees fewer than two names
    and the distribution never divides by zero. *)
Theorem AddExpense_rejections g e g' e' er :
  reachable g ->
  AddExpense g e = (g', e', Some er) ->
  validationError er = true /\ g' = g.
Proof.
  intros (Hsync & _)%reachable_inv H. split.
  - by eapply AddExpense_Err.
  - apply AddExpense_inv in H as [(? & _ & ->)|(? & _)]; done.
Qed.

Lemma AddExpense_rejections_witness :
  validationError (PercentageSumMismatch 90%float) = true
  /\ fst (fst tripAfterBadPercent) = fst (fst tripAfterEqual).
Proof.
  apply (AddExpense_rejections (fst (fst tripAfterEqual))
           (mkExpense 0 5000000 "bob" "dinner" "percentage"
                      [("Alice", 50%float); ("Bob", 40%float)] [])
           (fst (fst tripAfterBadPercent)) (snd (fst tripAfterBadPercent))).
  - apply reachable_tripAfterEqual.
  - vm_compute. reflexivity.
Defined.


Lemma AddExpense_accepts g e g' e' :
  AddExpense g e = (g', e', None) ->
  0 < TotalMicroCents e
  /\ TrimSpace (Description e) <> ""
  /\ SplitMethod e ∈ ["equal"; "percentage"; "weights"]
  /\ (2 <= size (people g))%nat.
Proof.
  unfold AddExpense.
  destruct (TotalMicroCents e <=? 0) eqn:Htot; [done|].
  cbn [setDescription Description SplitMethod PaidBy SplitPercentages
       SplitWeights TotalMicroCents ID].
  destruct (String.eqb (TrimSpace (Description e)) "") eqn:Hd; [done|].
  unfold validateSplitMethod.
  destruct (existsb _ _) eqn:Hm; [|done].
  destruct (size (people g) <=? 1)%nat eqn:Hsize; [done|].
  intros _. split_and!.
  - lia.
  - by apply String.eqb_neq.
  - apply existsb_exists in Hm as (m & Hin & ->%String.eqb_eq).
    by apply list_elem_of_In.
  - apply Nat.leb_gt in Hsize. lia.
Qed.

(** A successful call of [AddExpense] leaves the members as they are and
    appends, to the edges of every member other than the payer that has
    a computed share, one edge to the payer that carries the share and
    the id of the expense; the edges of the payer and of the members
    without a share are untouched, and only members have shares. *)
Theorem AddExpense_new_edges g e g' e' :
  AddExpense g e = (g', e', None) ->
  exists shares,
    computeShares g e' = Ok shares
    /\ dom shares ⊆ dom (people g)
    /\ people g' = people g
    /\ forall k,
         edgesOf (group_graph g') k
         = edgesOf (group_graph g) k
           ++ match people g !! k, shares !! k with
              | Some _, Some owed =>
                  if String.eqb k (normalizeName (PaidBy e)) then []
                  else [mkEdge (normalizeName (PaidBy e))
                               (mkEdgeMetadata owed (ID e'))]
              | _, _ => []
              end.
Proof.
  intros H. pose proof (AddExpense_inv _ _ _ _ _ H) as Hinv.
  apply AddExpense_edges in H
    as (to & shares & Hto & Hsh & Hsync & _ & Hpeople & _ & _ & _ & _ & Hl).
  exists shares. split_and!; try done.
  - destruct Hinv as [(? & ? & _)|(_ & _ & Hinv)]; [done|].
    destruct Hinv as (to' & np & nw & shares' & gr & _ & Hnp & Hfp & Hnw & Hfw
                      & He' & _).
    apply (computeShares_dom g e' shares Hsh); subst e';
      cbn [SplitPercentages SplitWeights].
    + by eapply normalizeSplitMap_NoDup.
    + by eapply normalizeSplitMap_NoDup.
    + by apply firstNonMember_None.
    + by apply firstNonMember_None.
  - intros k. unfold edgesOf. rewrite Hl.
    destruct (nodes (group_graph g) !! k) as [es|] eqn:Hes; cbn.
    + unfold newEdgesOf, edgeFor. destruct (people g !! k); [|done].
      destruct (String.eqb k (normalizeName (PaidBy e))); [|done].
      by destruct (shares !! k).
    + assert (people g !! k = None) as ->; [|done].
      apply graphInSync_dom in Hsync. apply not_elem_of_dom. rewrite Hsync.
      by apply not_elem_of_dom.
Qed.

Lemma AddExpense_new_edges_witness :
  exists shares,
    computeShares tripGroup (snd (fst tripAfterEqual)) = Ok shares
    /\ dom shares ⊆ dom (people tripGroup)
    /\ people (fst (fst tripAfterEqual)) = people tripGroup
    /\ forall k,
         edgesOf (group_graph (fst (fst tripAfterEqual))) k
         = edgesOf (group_graph tripGroup) k
           ++ match people tripGroup !! k, shares !! k with
              | Some _, Some owed =>
                  if String.eqb k (normalizeName "Alice") then []
                  else [mkEdge (normalizeName "Alice")
                               (mkEdgeMetadata owed (ID (snd (fst tripAfterEqual))))]
              | _, _ => []
              end.
Proof.
  apply (AddExpense_new_edges tripGroup (equalExpense 10000000 "Alice")
           (fst (fst tripAfterEqual)) (snd (fst tripAfterEqual))).
  vm_compute. reflexivity.
Defined.

(** The expense a successful call logs: the total of the request, which
    is positive; the display name under which the payer is registered;
    the trimmed description, which is not empty; one of the three split
    methods; and the split maps with every name replaced by its key, the
    values kept, the keys pairwise distinct, each non-empty and the key of
    a member. *)
Theorem AddExpense_logged_expense g e g' e' :
  AddExpense g e = (g', e', None) ->
  expenses g' !! ID e' = Some e'
  /\ TotalMicroCents e' = TotalMicroCents e /\ 0 < TotalMicroCents e'
  /\ (exists to, people g !! normalizeName (PaidBy e) = Some to
                 /\ PaidBy e' = person_Name to)
  /\ Description e' = TrimSpace (Description e) /\ Description e' <> ""
  /\ SplitMethod e' = SplitMethod e
  /\ SplitMethod e' ∈ ["equal"; "percentage"; "weights"]
  /\ SplitPercentages e'
     = map (fun kv => (normalizeName (fst kv), snd kv)) (SplitPercentages e)
  /\ SplitWeights e'
     = map (fun kv => (normalizeName (fst kv), snd kv)) (SplitWeights e)
  /\ NoDup (map fst (SplitPercentages e'))
  /\ NoDup (map fst (SplitWeights e'))
  /\ (forall k, k ∈ map fst (SplitPercentages e') ++ map fst (SplitWeights e') ->
        k <> "" /\ is_Some (people g !! k)).
Proof.
  intros H. destruct (AddExpense_accepts _ _ _ _ H) as (Htot & Hd & Hm & _).
  apply AddExpense_inv in H as [(? & ? & _)|(_ & _ & H)]; [done|].
  destruct H as (to & np & nw & shares & gr & Hto & Hnp & Hfp & Hnw & Hfw
                 & -> & _ & _ & _ & ->).
  cbn [ID TotalMicroCents PaidBy Description SplitMethod SplitPercentages
       SplitWeights expenses].
  pose proof (normalizeSplitMap_NoDup _ _ Hnp) as Hndp.
  pose proof (normalizeSplitMap_NoDup _ _ Hnw) as Hndw.
  pose proof (firstNonMember_None _ _ Hfp) as Hmp.
  pose proof (firstNonMember_None _ _ Hfw) as Hmw.
  apply normalizeSplitLoop_spec in Hnp as [-> Hep], Hnw as [-> Hew].
  cbn [app] in *.
  split_and!; try done.
  - apply lookup_insert_eq.
  - by exists to.
  - intros k Hk.
    assert (forall l : list (string * float),
              Forall (fun kv => normalizeName (fst kv) <> "") l ->
              k ∈ map fst (map (fun kv => (normalizeName (fst kv), snd kv)) l) ->
              k <> "") as Hkey.
    { intros l Hl Hin. rewrite map_map in Hin. cbn [fst] in Hin.
      apply list_elem_of_fmap in Hin as (kv & -> & Hin).
      rewrite Forall_forall in Hl. by apply Hl. }
    apply elem_of_app in Hk as [Hk|Hk].
    + split; [by apply (Hkey _ Hep)|by apply Hmp].
    + split; [by apply (Hkey _ Hew)|by apply Hmw].
Qed.

Lemma AddExpense_logged_expense_witness :
  let g := fst (fst tripAfterEqual) in
  let e := mkExpense 0 5000000 " BOB " " dinner " "weights" []
             [(" Alice", 1%float); ("CHARLIE", 3%float)] in
  let r := AddExpense g e in
  PaidBy (snd (fst r)) = "Bob"
  /\ Description (snd (fst r)) = "dinner"
  /\ SplitWeights (snd (fst r)) = [("alice", 1%float); ("charlie", 3%float)].
Proof.
  cbv zeta.
  destruct (AddExpense_logged_expense (fst (fst tripAfterEqual))
              (mkExpense 0 5000000 " BOB " " dinner " "weights" []
                 [(" Alice", 1%float); ("CHARLIE", 3%float)])
              (fst (fst (AddExpense (fst (fst tripAfterEqual))
                 (mkExpense 0 5000000 " BOB " " dinner " "weights" []
                    [(" Alice", 1%float); ("CHARLIE", 3%float)]))))
              (snd (fst (AddExpense (fst (fst tripAfterEqual))
                 (mkExpense 0 5000000 " BOB " " dinner " "weights" []
                    [(" Alice", 1%float); ("CHARLIE", 3%float)])))))
    as (_ & _ & _ & (to & Hto & Hpaid) & Hdesc & _ & _ & _ & _ & Hw & _).
  - vm_compute. reflexivity.
  - split_and!.
    + rewrite Hpaid. assert (to = mkPerson "Bob") as ->; [|reflexivity].
      assert (people (fst (fst tripAfterEqual)) !! normalizeName " BOB "
              = Some (mkPerson "Bob")) as Hb by (vm_compute; reflexivity).
      cbn [PaidBy] in Hto. congruence.
    + rewrite Hdesc. vm_compute. reflexivity.
    + rewrite Hw. vm_compute. reflexivity.
Defined.


(** ** Sorted slices *)

Section SortedUnique.
Context {A : Type} (less : A -> A -> bool).

(** Two sorted arrangements of the same elements are the same slice. *)
Lemma sorted_unique (l1 l2 : list A) :
  (forall a, a ∈ l1 -> less a a = false) ->
  (forall a b c, a ∈ l1 -> b ∈ l1 -> c ∈ l1 ->
     less a b = true -> less b c = true -> less a c = true) ->
  StronglySorted (fun a b => less a b = true) l1 ->
  StronglySorted (fun a b => less a b = true) l2 ->
  l1 ≡ₚ l2 -> l1 = l2.
Proof.
  revert l2. induction l1 as [|x l1 IH]; intros l2 Hirr Htr Hs1 Hs2 Hp.
  - by apply Permutation_nil_l in Hp.
  - destruct l2 as [|y l2]; [by apply Permutation_nil_r in Hp|].
    apply StronglySorted_inv in Hs1 as [Hs1 Hx], Hs2 as [Hs2 Hy].
    rewrite Forall_forall in Hx, Hy.
    assert (x = y) as <-.
    { assert (x ∈ y :: l2) as Hxin by (rewrite <- Hp; left).
      assert (y ∈ x :: l1) as Hyin by (rewrite Hp; left).
      apply elem_of_cons in Hxin as [?|Hxin]; [done|].
      apply elem_of_cons in Hyin as [?|Hyin]; [done|].
      exfalso.
      assert (less x x = true) as Hxx.
      { apply (Htr x y x); [left|by right|left|by apply Hx|by apply Hy]. }
      rewrite Hirr in Hxx; [done|left]. }
    f_equal. apply IH; try done.
    + intros a Ha. apply Hirr. by right.
    + intros a b c Ha Hb Hc. apply Htr; by right.
    + by apply Permutation_cons_inv in Hp.
Qed.

(** Sorting commutes with a map that carries the order along. *)
Lemma insertSorted_map {B} (less' : B -> B -> bool) (f : A -> B) x l :
  (forall b, b ∈ l -> less' (f x) (f b) = less x b) ->
  insertSorted less' (f x) (map f l) = map f (insertSorted less x l).
Proof.
  induction l as [|y l IH]; intros H; simpl; [done|].
  rewrite H by left. destruct (less x y); [done|].
  simpl. f_equal. apply IH. intros b Hb. apply H. by right.
Qed.

Lemma sortSlice_map {B} (less' : B -> B -> bool) (f : A -> B) l :
  (forall a b, a ∈ l -> b ∈ l -> less' (f a) (f b) = less a b) ->
  sortSlice less' (map f l) = map f (sortSlice less l).
Proof.
  induction l as [|x l IH]; intros H; simpl; [done|].
  rewrite IH by (intros a b Ha Hb; apply H; by right).
  apply insertSorted_map. intros b Hb. apply H; [left|].
  right. by rewrite <- (sortSlice_perm less l).
Qed.
End SortedUnique.

Lemma sortStrings_order names names' :
  NoDup names -> names ≡ₚ names' -> sortStrings names = sortStrings names'.
Proof.
  intros Hnd Hp. apply (sorted_unique String.ltb).
  - intros a _. apply string_ltb_irrefl.
  - intros a b c _ _ _. apply string_ltb_trans.
  - by apply sortStrings_sorted.
  - apply sortStrings_sorted. by rewrite <- Hp.
  - by rewrite !sortStrings_perm.
Qed.

(** [splitEqual] does not depend on the order in which it is handed the
    names (the order in which [AddExpense] happens to range over the
    members): two arrangements of the same distinct names give the same
    result. *)
Theorem splitEqual_order_independent T (names names' : list string) :
  NoDup names -> names ≡ₚ names' ->
  splitEqual T names = splitEqual T names'.
Proof.
  intros Hnd Hp. unfold splitEqual.
  rewrite <- (sortStrings_order names names' Hnd Hp).
  assert (length names' = length names) as -> by by rewrite Hp.
  done.
Qed.

Lemma splitEqual_order_independent_witness :
  splitEqual 10000000 ["charlie"; "alice"; "bob"]
  = splitEqual 10000000 ["bob"; "charlie"; "alice"].
Proof.
  apply splitEqual_order_independent.
  - compute_done.
  - change (["charlie"; "alice"] ++ ["bob"] ≡ₚ ["bob"] ++ ["charlie"; "alice"]).
    apply Permutation_app_comm.
Defined.

(** ** The list of members *)

Lemma displayName_lowerLess g a b :
  membersCanonical g ->
  is_Some (people g !! a) -> is_Some (people g !! b) ->
  lowerLess (displayName g a) (displayName g b) = String.ltb a b.
Proof.
  intros Hcan [pa Ha] [pb Hb]. unfold lowerLess, displayName. rewrite Ha, Hb.
  destruct (Hcan a pa Ha) as (Ha1 & Ha2 & _).
  destruct (Hcan b pb Hb) as (Hb1 & Hb2 & _).
  unfold normalizeName in Ha1, Hb1. rewrite Ha2 in Ha1. rewrite Hb2 in Hb1.
  by rewrite Ha1, Hb1.
Qed.

Lemma displayName_sorted g (l : list string) :
  membersCanonical g ->
  (forall k, k ∈ l -> is_Some (people g !! k)) ->
  StronglySorted (fun a b => String.ltb a b = true) l ->
  StronglySorted (fun a b => lowerLess a b = true) (map (displayName g) l).
Proof.
  intros Hcan Hin Hs. induction Hs as [|k l Hs IH Hk]; [constructor|].
  cbn [map]. constructor.
  - apply IH. intros k' Hk'. apply Hin. by right.
  - rewrite Forall_forall in Hk. apply Forall_forall. intros n Hn.
    apply list_elem_of_fmap in Hn as (k' & -> & Hk').
    rewrite displayName_lowerLess; [by apply Hk|done|apply Hin; left|].
    apply Hin. by right.
Qed.

(** In a group built through the operations [GetPeople] returns the
    display names of the members in the order of their keys, one for each
    member; the list is strictly ascending in the names' lower-case
    forms. *)
Theorem GetPeople_by_key g :
  reachable g ->
  GetPeople g = map (displayName g) (sortStrings (keysOf (people g)))
  /\ Z.of_nat (length (GetPeople g)) = Size g
  /\ StronglySorted (fun a b => lowerLess a b = true) (GetPeople g)
  /\ (forall name,
        name ∈ GetPeople g
        <-> exists key p, people g !! key = Some p /\ person_Name p = name).
Proof.
  intros (_ & Hcan & _)%reachable_inv.
  assert (GetPeople g = map (displayName g) (sortStrings (keysOf (people g))))
    as Heq.
  { unfold GetPeople, sortStrings.
    rewrite <- (sortSlice_map String.ltb lowerLess (displayName g)).
    - f_equal. unfold keysOf. rewrite map_map. apply map_ext_in.
      intros [k p] Hin%list_elem_of_In%elem_of_map_to_list. cbn [fst snd].
      unfold displayName. by rewrite Hin.
    - intros a b Ha%keysOf_elem_of Hb%keysOf_elem_of.
      by apply displayName_lowerLess. }
  split; [done|]. rewrite Heq. split_and!.
  - rewrite length_map, sortStrings_perm. unfold Size, keysOf.
    by rewrite length_map, length_map_to_list.
  - apply displayName_sorted; [done| |].
    + intros k. rewrite sortStrings_perm. apply keysOf_elem_of.
    + apply sortStrings_sorted, keysOf_NoDup.
  - intros name. rewrite list_elem_of_fmap. split.
    + intros (k & -> & Hk). rewrite sortStrings_perm in Hk.
      apply keysOf_elem_of in Hk as [p Hp]. exists k, p. split; [done|].
      unfold displayName. by rewrite Hp.
    + intros (k & p & Hp & <-). exists k. split.
      * unfold displayName. by rewrite Hp.
      * rewrite sortStrings_perm. apply keysOf_elem_of. eauto.
Qed.

Lemma GetPeople_by_key_witness :
  GetPeople (fst (AddPerson tripGroup " adam "))
  = ["adam"; "Alice"; "Bob"; "Charlie"].
Proof.
  destruct (GetPeople_by_key (fst (AddPerson tripGroup " adam "))) as [-> _].
  - eapply reachable_AddPerson; [apply reachable_tripGroup|].
    apply surjective_pairing.
  - vm_compute. reflexivity.
Defined.


(** ** The group store *)

Lemma groupNamePattern_trimmed s :
  groupNamePattern s = true -> TrimSpace s = s /\ normalizeName s <> "".
Proof.
  destruct s as [|c rest]; [done|]. cbn [groupNamePattern].
  rewrite !andb_true_iff. intros [[Hc Hrest] _].
  assert (TrimSpace (String c rest) = String c rest) as Ht.
  { apply (TrimSpace_plain
             (fun c => isLetter c || (N_of_ascii c =? 95)%N || (N_of_ascii c =? 45)%N)).
    - intros c'. each_ascii c'; done.
    - cbn [allChars]. by rewrite Hc, Hrest. }
  split; [done|]. unfold normalizeName. rewrite Ht. done.
Qed.

Lemma NewGroup_inv name g :
  NewGroup name = Ok g ->
  groupNamePattern (TrimSpace name) = true
  /\ g = mkGroup (TrimSpace name) (newGraph (TrimSpace name)) ∅ ∅ 0.
Proof.
  unfold NewGroup. destruct (groupNamePattern (TrimSpace name)); [|done].
  by intros [= <-].
Qed.

Lemma AddPerson_group_Name g name : group_Name (fst (AddPerson g name)) = group_Name g.
Proof.
  unfold AddPerson. destruct (negb _); [done|].
  destruct (people g !! _); [done|].
  by destruct (addNode _ _) as [gr [er|]].
Qed.

Lemma AddExpense_group_Name g e :
  group_Name (fst (fst (AddExpense g e))) = group_Name g.
Proof.
  destruct (AddExpense g e) as [[g' e'] err] eqn:E.
  apply AddExpense_inv in E as [(? & _ & ->)|(_ & _ & H)]; [done|].
  by destruct H as (? & ? & ? & ? & ? & _ & _ & _ & _ & _ & _ & _ & _ & _ & ->).
Qed.

Lemma storeReachable_keyed store : storeReachable store -> storeKeyed store.
Proof.
  induction 1 as [|store name store' r _ IH Hc|store name store' d _ IH Hd
                  |store key name _ IH|store key e _ IH].
  - apply map_Forall_empty.
  - unfold Create in Hc.
    destruct (store !! normalizeName (TrimSpace name)); [by injection Hc as <- <-|].
    destruct (NewGroup (TrimSpace name)) as [g|er] eqn:Hnew;
      [|by injection Hc as <- <-].
    injection Hc as <- <-. apply map_Forall_insert_2; [|done].
    pose proof (reachable_NewGroup _ _ Hnew) as Hr.
    apply NewGroup_inv in Hnew as [Hpat ->]. cbn [group_Name].
    rewrite TrimSpace_idemp in *. done.
  - unfold Delete in Hd. destruct (String.eqb (TrimSpace name) "");
      [by injection Hd as <- <-|].
    destruct (store !! normalizeName (TrimSpace name));
      injection Hd as <- <-; [|done].
    by apply map_Forall_delete.
  - unfold updateGroup. destruct (store !! key) as [g|] eqn:Hg; [|done].
    apply map_Forall_insert_2; [|done].
    destruct (IH key g Hg) as (Hk & Hpat & Hr).
    rewrite AddPerson_group_Name. split_and!; [done..|].
    eapply reachable_AddPerson; [exact Hr|apply surjective_pairing].
  - unfold updateGroup. destruct (store !! key) as [g|] eqn:Hg; [|done].
    apply map_Forall_insert_2; [|done].
    destruct (IH key g Hg) as (Hk & Hpat & Hr).
    rewrite AddExpense_group_Name. split_and!; [done..|].
    apply (reachable_AddExpense g e _ (snd (fst (AddExpense g e)))
             (snd (AddExpense g e)) Hr).
    by destruct (AddExpense g e) as [[? ?] ?].
Qed.

(** A group that [Create] returns was not in the store under any spelling
    of its name; it has the trimmed name, which is of the accepted form,
    and no member, expense or node.  Afterwards [Get] finds it under the
    name and under every name with the same key and answers for all
    other names as before, and [Create] refuses every name with the same
    key, reporting the name that was registered. *)
Theorem Create_then_Get store name store' g :
  Create store name = (store', inl g) ->
  Get store name = None
  /\ g = mkGroup (TrimSpace name) (newGraph (TrimSpace name)) ∅ ∅ 0
  /\ groupNamePattern (group_Name g) = true
  /\ (forall name', normalizeName name' = normalizeName name ->
        Get store' name' = Some g
        /\ Create store' name' = (store', inr (GroupExists (TrimSpace name))))
  /\ (forall name', normalizeName name' <> normalizeName name ->
        Get store' name' = Get store name').
Proof.
  unfold Create, Get. rewrite normalizeName_TrimSpace.
  destruct (store !! normalizeName name) eqn:Hfree; [done|].
  destruct (NewGroup (TrimSpace name)) as [g0|er] eqn:Hnew; [|done].
  intros [= <- <-]. apply NewGroup_inv in Hnew as [Hpat ->].
  rewrite TrimSpace_idemp in *.
  split_and!; try done.
  - intros name' Hkey. rewrite normalizeName_TrimSpace, Hkey, lookup_insert_eq.
    done.
  - intros name' Hkey. by rewrite lookup_insert_ne.
Qed.

Lemma Create_then_Get_witness :
  let r := Create ∅ " Trip " in
  Get (fst r) "trip" = Some (mkGroup "Trip" (newGraph "Trip") ∅ ∅ 0)
  /\ Create (fst r) "TRIP" = (fst r, inr (GroupExists "Trip")).
Proof.
  cbv zeta.
  destruct (Create_then_Get ∅ " Trip " (fst (Create ∅ " Trip "))
              (mkGroup "Trip" (newGraph "Trip") ∅ ∅ 0))
    as (_ & _ & _ & Hsame & _); [vm_compute; reflexivity|].
  split.
  - apply (Hsame "trip"). vm_compute. reflexivity.
  - apply (Hsame "TRIP"). vm_compute. reflexivity.
Defined.

(** In a store built through the operations every group is registered
    under the key of its own name, so that [Get] finds it under that
    name; the name is of the accepted form, and the group is one the
    operations on groups can produce. *)
Theorem store_groups_by_name store key g :
  storeReachable store ->
  store !! key = Some g ->
  key = normalizeName (group_Name g)
  /\ Get store (group_Name g) = Some g
  /\ groupNamePattern (group_Name g) = true
  /\ reachable g.
Proof.
  intros Hr Hg. destruct (storeReachable_keyed store Hr key g Hg) as (-> & Hp & Hg').
  done.
Qed.

Lemma storeReachable_trip : storeReachable (fst (Create ∅ " Trip ")).
Proof.
  eapply storeReachable_Create; [apply storeReachable_init|].
  apply surjective_pairing.
Qed.

Lemma store_groups_by_name_witness :
  let g := mkGroup "Trip" (newGraph "Trip") ∅ ∅ 0 in
  "trip" = normalizeName (group_Name g)
  /\ Get (fst (Create ∅ " Trip ")) (group_Name g) = Some g
  /\ groupNamePattern (group_Name g) = true
  /\ reachable g.
Proof.
  cbv zeta.
  apply (store_groups_by_name (fst (Create ∅ " Trip ")) "trip").
  - apply storeReachable_trip.
  - vm_compute. reflexivity.
Defined.

(** In a store built through the operations [Delete] reports [true]
    exactly when [Get] finds a group under the name; afterwards [Get]
    finds none under it, the store has one group fewer, and the answers
    for names with another key are unchanged.  When it reports [false]
    the store is as it was. *)
Theorem Delete_then_Get store name store' deleted :
  storeReachable store ->
  Delete store name = (store', deleted) ->
  (deleted = true <-> is_Some (Get store name))
  /\ Get store' name = None
  /\ (forall name', normalizeName name' <> normalizeName name ->
        Get store' name' = Get store name')
  /\ (deleted = true -> S (size store') = size store)
  /\ (deleted = false -> store' = store).
Proof.
  intros Hr%storeReachable_keyed. unfold Delete, Get.
  rewrite normalizeName_TrimSpace.
  assert (store !! "" = None) as Hempty.
  { destruct (store !! "") as [g|] eqn:Hg; [|done].
    destruct (Hr "" g Hg) as (Hk & Hpat & _).
    apply groupNamePattern_trimmed in Hpat as [_ Hne]. congruence. }
  destruct (String.eqb (TrimSpace name) "") eqn:Hblank.
  - apply String.eqb_eq in Hblank.
    assert (normalizeName name = "") as Hkey
      by (unfold normalizeName; by rewrite Hblank).
    intros [= <- <-]. rewrite Hkey, Hempty.
    split; [split; [done|by intros [? ?]]|]. done.
  - destruct (store !! normalizeName name) as [g|] eqn:Hg; intros [= <- <-].
    + split; [split; eauto|]. split; [apply lookup_delete_eq|].
      split; [intros name' Hne; by rewrite lookup_delete_ne|].
      split; [|done]. intros _. rewrite map_size_delete, Hg.
      assert (size store <> 0%nat) as Hpos; [|cbn; lia].
      intros Hz. apply map_size_empty_iff in Hz. by rewrite Hz in Hg.
    + split; [split; [done|by intros [? ?]]|]. done.
Qed.

Lemma Delete_then_Get_witness :
  let store := fst (Create ∅ " Trip ") in
  Delete store "TRIP" = (∅, true)
  /\ Get (fst (Delete store "TRIP")) "TRIP" = None.
Proof.
  cbv zeta. split; [vm_compute; reflexivity|].
  apply (Delete_then_Get (fst (Create ∅ " Trip ")) "TRIP"
           (fst (Delete (fst (Create ∅ " Trip ")) "TRIP")) true).
  - apply storeReachable_trip.
  - vm_compute. reflexivity.
Defined.

Lemma groupNameAt_lowerLess store a b :
  storeKeyed store ->
  is_Some (store !! a) -> is_Some (store !! b) ->
  lowerLess (groupNameAt store a) (groupNameAt store b) = String.ltb a b.
Proof.
  intros Hk [ga Ha] [gb Hb]. unfold lowerLess, groupNameAt. rewrite Ha, Hb.
  destruct (Hk a ga Ha) as (Ha1 & Ha2 & _).
  destruct (Hk b gb Hb) as (Hb1 & Hb2 & _).
  apply groupNamePattern_trimmed in Ha2 as [Ha2 _], Hb2 as [Hb2 _].
  unfold normalizeName in Ha1, Hb1. rewrite Ha2 in Ha1. rewrite Hb2 in Hb1.
  by rewrite <- Ha1, <- Hb1.
Qed.

Lemma groupNameAt_sorted store (l : list string) :
  storeKeyed store ->
  (forall k, k ∈ l -> is_Some (store !! k)) ->
  StronglySorted (fun a b => String.ltb a b = true) l ->
  StronglySorted (fun a b => lowerLess a b = true) (map (groupNameAt store) l).
Proof.
  intros Hcan Hin Hs. induction Hs as [|k l Hs IH Hk]; [constructor|].
  cbn [map]. constructor.
  - apply IH. intros k' Hk'. apply Hin. by right.
  - rewrite Forall_forall in Hk. apply Forall_forall. intros n Hn.
    apply list_elem_of_fmap in Hn as (k' & -> & Hk').
    rewrite groupNameAt_lowerLess; [by apply Hk|done|apply Hin; left|].
    apply Hin. by right.
Qed.

(** In a store built through the operations [List] returns the names of
    the groups of [ListGroups], in the same order, which is the order of
    the keys: one name for each group, strictly ascending in the names'
    lower-case forms, and [Get] finds a group under every name listed. *)
Theorem List_by_key store :
  storeReachable store ->
  List store = map group_Name (ListGroups store)
  /\ List store = map (groupNameAt store) (sortStrings (keysOf store))
  /\ length (List store) = size store
  /\ StronglySorted (fun a b => lowerLess a b = true) (List store)
  /\ (forall name,
        name ∈ List store
        <-> exists g, Get store name = Some g /\ group_Name g = name).
Proof.
  intros Hk%storeReachable_keyed.
  assert (List store = map (groupNameAt store) (sortStrings (keysOf store)))
    as Heq.
  { unfold List, sortStrings.
    rewrite <- (sortSlice_map String.ltb lowerLess (groupNameAt store)).
    - f_equal. unfold keysOf. rewrite map_map. apply map_ext_in.
      intros [k g] Hin%list_elem_of_In%elem_of_map_to_list. cbn [fst snd].
      unfold groupNameAt. by rewrite Hin.
    - intros a b Ha%keysOf_elem_of Hb%keysOf_elem_of.
      by apply groupNameAt_lowerLess. }
  split_and!.
  - unfold List, ListGroups.
    rewrite <- (sortSlice_map
                  (fun a b => lowerLess (group_Name a) (group_Name b))
                  lowerLess group_Name) by done.
    by rewrite map_map.
  - done.
  - rewrite Heq, length_map, sortStrings_perm. unfold keysOf.
    by rewrite length_map, length_map_to_list.
  - rewrite Heq. apply groupNameAt_sorted; [done| |].
    + intros k. rewrite sortStrings_perm. apply keysOf_elem_of.
    + apply sortStrings_sorted, keysOf_NoDup.
  - intros name. rewrite Heq, list_elem_of_fmap. unfold Get. split.
    + intros (k & -> & Hin). rewrite sortStrings_perm in Hin.
      apply keysOf_elem_of in Hin as [g Hg]. exists g.
      unfold groupNameAt. rewrite Hg. split; [|done].
      destruct (Hk k g Hg) as (<- & _). done.
    + intros (g & Hg & <-). exists (normalizeName (group_Name g)). split.
      * unfold groupNameAt. by rewrite Hg.
      * rewrite sortStrings_perm. apply keysOf_elem_of. eauto.
Qed.

Lemma List_by_key_witness :
  List (fst (Create (fst (Create ∅ " Trip ")) "office")) = ["office"; "Trip"].
Proof.
  destruct (List_by_key (fst (Create (fst (Create ∅ " Trip ")) "office")))
    as (_ & -> & _).
  - eapply storeReachable_Create; [apply storeReachable_trip|].
    apply surjective_pairing.
  - vm_compute. reflexivity.
Defined.


(** ** The amount parser *)

Lemma pretty_N_char_digit x :
  (x < 10)%N ->
  isDigit (pretty_N_char x) = true /\ digitValue (pretty_N_char x) = Z.of_N x.
Proof.
  intros Hx.
  assert (x = 0 \/ x = 1 \/ x = 2 \/ x = 3 \/ x = 4 \/ x = 5 \/ x = 6 \/ x = 7
          \/ x = 8 \/ x = 9)%N as H by lia.
  repeat (destruct H as [->|H]; [by split|]). by subst.
Qed.

(** Reading back the digits that [pretty_N_go] writes in front of [s]. *)
Lemma parseDigits_pretty_N_go x : forall s,
  exists k, forall acc,
    parseDigits (pretty_N_go x s) acc
    = parseDigits s (acc * 10 ^ k + Z.of_N x) /\ 0 <= k.
Proof.
  induction (N.lt_wf_0 x) as [x _ IH]. intros s.
  destruct (decide (x = 0)%N) as [->|Hx].
  - exists 0. intros acc. rewrite pretty_N_go_0. split; [|done]. f_equal. lia.
  - rewrite pretty_N_go_step by lia.
    destruct (IH (x `div` 10)%N ltac:(apply N.div_lt; lia)
                 (String (pretty_N_char (x `mod` 10)) s)) as [k Hk].
    exists (k + 1). intros acc. destruct (Hk acc) as [-> Hk0]. split; [|lia].
    cbn [parseDigits].
    destruct (pretty_N_char_digit (x `mod` 10)%N) as [-> ->];
      [apply N.mod_lt; lia|].
    f_equal. rewrite Z.pow_add_r, Z.pow_1_r by lia.
    rewrite (N.div_mod x 10) at 3 by lia.
    rewrite N2Z.inj_add, N2Z.inj_mul. change (Z.of_N 10) with 10. lia.
Qed.

Lemma parseDigits_decimal (z : Z) : 0 <= z -> parseDigits (decimal z) 0 = Some z.
Proof.
  intros Hz. unfold decimal, pretty, pretty_Z.
  destruct z as [|p|p]; [done| |lia].
  unfold pretty, pretty_positive, pretty, pretty_N.
  destruct (decide (N.pos p = 0)%N) as [?|_]; [done|].
  destruct (parseDigits_pretty_N_go (N.pos p) "") as [k Hk].
  destruct (Hk 0) as [-> _]. cbn [parseDigits]. f_equal.
Qed.

Lemma parseDigits_allChars s : forall acc v,
  parseDigits s acc = Some v -> allChars isDigit s = true.
Proof.
  induction s as [|c s IH]; intros acc v; cbn [parseDigits allChars]; [done|].
  destruct (isDigit c); [|done]. intros H. by rewrite (IH _ _ H).
Qed.

Lemma decimal_nonempty (z : Z) : 0 <= z -> decimal z <> "".
Proof.
  intros Hz E. pose proof (parseDigits_decimal z Hz) as H. rewrite E in H.
  cbn in H. injection H as <-. done.
Qed.

(** A non-empty run of digits that fits an [int64] is parsed as its
    value. *)
Lemma ParseInt_digits s v :
  s <> "" -> parseDigits s 0 = Some v -> v < 2 ^ 63 -> ParseInt s = Some v.
Proof.
  intros Hne Hp Hv. destruct s as [|c rest]; [done|]. unfold ParseInt.
  assert (isDigit c = true) as Hc.
  { apply parseDigits_allChars in Hp. cbn in Hp. by apply andb_true_iff in Hp as [? _]. }
  assert (Ascii.eqb c "-" = false /\ Ascii.eqb c "+" = false) as [-> ->].
  { revert Hc. clear. each_ascii c; done. }
  cbn [orb]. rewrite Hp. by apply Z.ltb_lt in Hv as ->.
Qed.

Lemma append_String c s t :
  String.append (String c s) t = String c (String.append s t).
Proof. reflexivity. Qed.

Lemma length_append_String s t :
  String.length (String.append s t) = (String.length s + String.length t)%nat.
Proof. induction s as [|c s IH]; [done|]. rewrite append_String. cbn. by rewrite IH. Qed.

Lemma splitDot_digits whole :
  allChars isDigit whole = true ->
  splitDot whole = (whole, None)
  /\ forall frac, splitDot (String.append whole (String "." frac))
                  = (whole, Some frac).
Proof.
  induction whole as [|c whole IH]; cbn [allChars]; [done|].
  intros [Hc Hw]%andb_true_iff. destruct (IH Hw) as [IH1 IH2].
  assert (Ascii.eqb c "." = false) as Hdot by (revert Hc; clear; each_ascii c; done).
  split.
  - cbn [splitDot]. by rewrite Hdot, IH1.
  - intros frac. rewrite append_String. cbn [splitDot]. by rewrite Hdot, IH2.
Qed.

Lemma allChars_app p s t :
  allChars p (String.append s t) = allChars p s && allChars p t.
Proof.
  induction s as [|c s IH]; [done|]. rewrite append_String. cbn [allChars].
  by rewrite IH, andb_assoc.
Qed.

Lemma allChars_impl (p q : ascii -> bool) s :
  (forall c, p c = true -> q c = true) ->
  allChars p s = true -> allChars q s = true.
Proof.
  intros Hpq. induction s as [|c s IH]; cbn [allChars]; [done|].
  intros [Hc Hs]%andb_true_iff. by rewrite (Hpq c Hc), IH.
Qed.

Lemma TrimSpace_amount s :
  allChars amountByte s = true -> TrimSpace s = s.
Proof.
  apply TrimSpace_plain. intros c. each_ascii c; done.
Qed.

Lemma decimal_digits (z : Z) : 0 <= z -> allChars isDigit (decimal z) = true.
Proof. intros Hz. eapply parseDigits_allChars, parseDigits_decimal, Hz. Qed.

Lemma decimal_one_digit (d : Z) :
  0 <= d <= 9 -> String.length (decimal d) = 1%nat.
Proof.
  intros Hd.
  assert (d = 0 \/ d = 1 \/ d = 2 \/ d = 3 \/ d = 4 \/ d = 5 \/ d = 6 \/ d = 7
          \/ d = 8 \/ d = 9) as H by lia.
  repeat (destruct H as [->|H]; [done|]). by subst.
Qed.

Lemma parseDigits_app s t : forall acc v,
  parseDigits s acc = Some v ->
  parseDigits (String.append s t) acc = parseDigits t v.
Proof.
  induction s as [|c s IH]; intros acc v.
  - cbn. by intros [= ->].
  - rewrite append_String. cbn [parseDigits].
    destruct (isDigit c); [apply IH|done].
Qed.

Lemma parseDigits_acc s : forall acc v,
  parseDigits s 0 = Some v ->
  parseDigits s acc = Some (acc * 10 ^ Z.of_nat (String.length s) + v).
Proof.
  assert (forall s a b v, parseDigits s a = Some v ->
            parseDigits s (a + b) = Some (b * 10 ^ Z.of_nat (String.length s) + v))
    as H.
  { clear. induction s as [|c s IH]; intros a b v; cbn [parseDigits String.length].
    - intros [= <-]. f_equal. change (10 ^ Z.of_nat 0) with 1. lia.
    - destruct (isDigit c); [|done]. intros Hp.
      replace ((a + b) * 10 + digitValue c) with (a * 10 + digitValue c + b * 10) by lia.
      rewrite (IH _ (b * 10) _ Hp). f_equal.
      rewrite Nat2Z.inj_succ, Z.pow_succ_r by lia. lia. }
  intros acc v Hp. by rewrite <- (H s 0 acc v Hp).
Qed.

Lemma twoDigits_parse (c : Z) :
  0 <= c < 100 ->
  String.length (twoDigits c) = 2%nat
  /\ parseDigits (twoDigits c) 0 = Some c
  /\ allChars isDigit (twoDigits c) = true.
Proof.
  intros Hc. unfold twoDigits.
  assert (0 <= c / 10 <= 9) as Hq.
  { pose proof (Z.div_pos c 10). pose proof (Z.div_lt_upper_bound c 10 10). lia. }
  assert (0 <= c mod 10 <= 9) as Hr by (pose proof (Z.mod_pos_bound c 10); lia).
  pose proof (decimal_one_digit _ Hq) as Hl1.
  pose proof (decimal_one_digit _ Hr) as Hl2.
  split_and!.
  - rewrite length_append_String. lia.
  - rewrite (parseDigits_app _ _ 0 (c / 10)) by (apply parseDigits_decimal; lia).
    rewrite (parseDigits_acc _ _ (c mod 10)) by (apply parseDigits_decimal; lia).
    rewrite Hl2. f_equal. change (10 ^ Z.of_nat 1) with 10.
    pose proof (Z.div_mod c 10). lia.
  - rewrite allChars_app, !decimal_digits by lia. done.
Qed.

Lemma ParseInt_decimal (z : Z) : 0 <= z < 2 ^ 63 -> ParseInt (decimal z) = Some z.
Proof.
  intros Hz. apply ParseInt_digits; [apply decimal_nonempty; lia| |lia].
  apply parseDigits_decimal. lia.
Qed.

Lemma decimal_amountBytes (z : Z) : 0 <= z -> allChars amountByte (decimal z) = true.
Proof.
  intros Hz. eapply allChars_impl; [|by apply decimal_digits].
  intros c Hc. unfold amountByte. by rewrite Hc.
Qed.

Lemma parse_cents_exact (D c : Z) :
  0 <= D -> -9 <= c < 100 -> (D * 100 + 99) * 1000 <= int64_max ->
  mul64 (add64 (mul64 D 100) c) 1000 = (D * 100 + c) * 1000.
Proof.
  intros HD Hc Hb. unfold mul64, add64.
  rewrite (wrap64_small (D * 100)) by int64_lia.
  rewrite (wrap64_small (D * 100 + c)) by int64_lia.
  apply wrap64_small. int64_lia.
Qed.

Lemma parse_dollarsText (n : Z) :
  0 <= n -> (n / 100 * 100 + 99) * 1000 <= int64_max ->
  parseDollarsToMicroCents (dollarsText n) = inl (n * 1000)
  /\ (n mod 100 = 0 ->
      parseDollarsToMicroCents (decimal (n / 100)) = inl (n * 1000))
  /\ (n mod 10 = 0 ->
      parseDollarsToMicroCents
        (String.append (decimal (n / 100))
           (String.append "." (decimal (n mod 100 / 10))))
      = inl (n * 1000)).
Proof.
  intros Hn Hb.
  assert (0 <= n / 100) as HD by (apply Z.div_pos; lia).
  pose proof (Z.mod_pos_bound n 100 ltac:(lia)) as Hc.
  pose proof (Z.div_mod n 100 ltac:(lia)) as Hdm.
  set (D := n / 100) in *. set (c := n mod 100) in *.
  assert (D < 2 ^ 63) as HD63 by int64_lia.
  pose proof (ParseInt_decimal D ltac:(lia)) as Hpd.
  destruct (splitDot_digits (decimal D) (decimal_digits D HD)) as [Hs1 Hs2].
  assert (decimal D <> "") as Hne by (by apply decimal_nonempty).
  split_and!.
  - unfold dollarsText. fold D c.
    destruct (twoDigits_parse c Hc) as (Hl & Hp & Hall).
    unfold parseDollarsToMicroCents.
    rewrite TrimSpace_amount.
    2:{ rewrite allChars_app, decimal_amountBytes by done.
        change (String.append "." (twoDigits c)) with (String "." (twoDigits c)).
        cbn [allChars andb].
        eapply allChars_impl; [|exact Hall]. intros b Hb'.
        unfold amountByte. by rewrite Hb'. }
    change (String.append "." (twoDigits c)) with (String "." (twoDigits c)).
    destruct (String.eqb_spec (String.append (decimal D) (String "." (twoDigits c))) "")
      as [E|_].
    { destruct (decimal D); discriminate E. }
    rewrite Hs2, Hpd. destruct (Z.ltb_spec D 0) as [?|_]; [lia|].
    rewrite Hl. cbn [Nat.ltb Nat.leb Nat.eqb].
    rewrite (ParseInt_digits _ c); [|by destruct (twoDigits c)|done|lia].
    f_equal. rewrite parse_cents_exact by lia. lia.
  - intros Hz. unfold parseDollarsToMicroCents.
    rewrite TrimSpace_amount by (by apply decimal_amountBytes).
    destruct (String.eqb_spec (decimal D) "") as [E|_]; [done|].
    rewrite Hs1, Hpd. destruct (Z.ltb_spec D 0) as [?|_]; [lia|].
    f_equal. rewrite parse_cents_exact by lia. lia.
  - intros Hz.
    assert (0 <= c / 10 <= 9) as Hq.
    { pose proof (Z.div_pos c 10). pose proof (Z.div_lt_upper_bound c 10 10). lia. }
    assert (c = c / 10 * 10) as Hc10.
    { pose proof (Z.div_mod c 10 ltac:(lia)) as H10.
      assert (c mod 10 = 0); [|lia]. unfold c.
      rewrite <- (Z.mod_mod_divide n 100 10) in Hz by (by exists 10). exact Hz. }
    unfold parseDollarsToMicroCents.
    change (String.append "." (decimal (c / 10))) with (String "." (decimal (c / 10))).
    rewrite TrimSpace_amount.
    2:{ rewrite allChars_app, decimal_amountBytes by done. cbn [allChars andb].
        apply decimal_amountBytes. lia. }
    destruct (String.eqb_spec (String.append (decimal D) (String "." (decimal (c / 10)))) "")
      as [E|_].
    { destruct (decimal D); discriminate E. }
    rewrite Hs2, Hpd. destruct (Z.ltb_spec D 0) as [?|_]; [lia|].
    rewrite (decimal_one_digit _ Hq). cbn [Nat.ltb Nat.leb Nat.eqb].
    rewrite (ParseInt_digits _ c).
    + f_equal. rewrite parse_cents_exact by lia. lia.
    + by destruct (decimal (c / 10)).
    + rewrite (parseDigits_app _ _ 0 (c / 10)) by (apply parseDigits_decimal; lia).
      cbn [parseDigits]. change (isDigit "0") with true.
      change (digitValue "0") with 0. cbn iota. f_equal. lia.
    + lia.
Qed.

(** The amount parser reads back what the exporter's format writes: for a
    number of cents whose micro-cents fit an [int64] the text with two
    decimals parses to the micro-cents, and so do the text without
    decimals, for whole dollars, and the text with one decimal, for whole
    dimes. *)
Theorem parseDollarsToMicroCents_decimal (n : Z) :
  0 <= n -> (n / 100 * 100 + 99) * 1000 <= int64_max ->
  parseDollarsToMicroCents (dollarsText n) = inl (n * 1000)
  /\ (n mod 100 = 0 ->
      parseDollarsToMicroCents (decimal (n / 100)) = inl (n * 1000))
  /\ (n mod 10 = 0 ->
      parseDollarsToMicroCents
        (String.append (decimal (n / 100))
           (String.append "." (decimal (n mod 100 / 10))))
      = inl (n * 1000)).
Proof. apply parse_dollarsText. Qed.

Lemma parseDollarsToMicroCents_decimal_witness :
  dollarsText 20850 = "208.50"
  /\ parseDollarsToMicroCents (dollarsText 20850) = inl (20850 * 1000)
  /\ (20850 mod 100 = 0 ->
      parseDollarsToMicroCents (decimal (20850 / 100)) = inl (20850 * 1000))
  /\ (20850 mod 10 = 0 ->
      parseDollarsToMicroCents
        (String.append (decimal (20850 / 100))
           (String.append "." (decimal (20850 mod 100 / 10))))
      = inl (20850 * 1000)).
Proof.
  split; [vm_compute; reflexivity|].
  apply (parseDollarsToMicroCents_decimal 20850); [lia|vm_compute; discriminate].
Defined.


Lemma ParseInt_minus s v :
  s <> "" -> parseDigits s 0 = Some v ->
  ParseInt (String "-" s) = if v <=? 2 ^ 63 then Some (- v) else None.
Proof.
  intros Hne Hp. unfold ParseInt.
  change (Ascii.eqb "-" "-") with true. change (Ascii.eqb "-" "+") with false.
  cbn [orb]. destruct s as [|c rest]; [done|]. by rewrite Hp.
Qed.

Lemma ParseInt_plus s v :
  s <> "" -> parseDigits s 0 = Some v ->
  ParseInt (String "+" s) = if v <? 2 ^ 63 then Some v else None.
Proof.
  intros Hne Hp. unfold ParseInt.
  change (Ascii.eqb "+" "-") with false. change (Ascii.eqb "+" "+") with true.
  cbn [orb]. destruct s as [|c rest]; [done|]. by rewrite Hp.
Qed.

Lemma splitDot_signed c whole :
  Ascii.eqb c "." = false ->
  allChars isDigit whole = true ->
  splitDot (String c whole) = (String c whole, None)
  /\ forall frac, splitDot (String c (String.append whole (String "." frac)))
                  = (String c whole, Some frac).
Proof.
  intros Hc Hw. destruct (splitDot_digits whole Hw) as [H1 H2].
  cbn [splitDot]. rewrite Hc, H1. split; [done|]. intros frac. by rewrite H2.
Qed.

Lemma TrimSpace_amount_nonempty s :
  s <> "" -> allChars amountByte s = true ->
  TrimSpace s = s /\ String.eqb s "" = false.
Proof.
  intros Hne Hall. split; [by apply TrimSpace_amount|]. by apply String.eqb_neq.
Qed.

(** What the amount parser refuses: a blank text; a dollar part beyond
    the [int64] range; a negative dollar part; a dot with nothing after
    it; more than two digits after the dot. *)
Theorem parseDollarsToMicroCents_rejections (D : Z) (frac s : string) :
  0 <= D ->
  (TrimSpace s = "" -> parseDollarsToMicroCents s = inr AmountEmpty)
  /\ (2 ^ 63 <= D -> parseDollarsToMicroCents (decimal D) = inr InvalidDollarAmount)
  /\ (0 < D ->
      parseDollarsToMicroCents (String "-" (decimal D)) = inr InvalidDollarAmount)
  /\ (D < 2 ^ 63 ->
      parseDollarsToMicroCents (String.append (decimal D) ".") = inr InvalidCents)
  /\ (D < 2 ^ 63 -> allChars isDigit frac = true -> (2 < String.length frac)%nat ->
      parseDollarsToMicroCents (String.append (decimal D) (String "." frac))
      = inr TooManyDecimalPlaces).
Proof.
  intros HD.
  pose proof (decimal_nonempty D HD) as Hne.
  pose proof (decimal_digits D HD) as Hdig.
  pose proof (decimal_amountBytes D HD) as Hbytes.
  pose proof (parseDigits_decimal D HD) as Hpd.
  destruct (splitDot_digits (decimal D) Hdig) as [Hs1 Hs2].
  split_and!.
  - intros Hblank. unfold parseDollarsToMicroCents. by rewrite Hblank.
  - intros Hbig. unfold parseDollarsToMicroCents.
    destruct (TrimSpace_amount_nonempty (decimal D) Hne Hbytes) as [-> ->].
    rewrite Hs1. unfold ParseInt.
    destruct (decimal D) as [|c rest] eqn:E; [done|].
    assert (isDigit c = true) as Hc
      by (cbn in Hdig; by apply andb_true_iff in Hdig as [? _]).
    assert (Ascii.eqb c "-" = false /\ Ascii.eqb c "+" = false) as [-> ->]
      by (revert Hc; clear; each_ascii c; done).
    cbn [orb]. rewrite Hpd. destruct (Z.ltb_spec D (2 ^ 63)); [lia|done].
  - intros Hpos. unfold parseDollarsToMicroCents.
    destruct (TrimSpace_amount_nonempty (String "-" (decimal D))) as [-> ->];
      [done|cbn [allChars]; by rewrite Hbytes|].
    destruct (splitDot_signed "-" (decimal D) eq_refl Hdig) as [-> _].
    rewrite (ParseInt_minus _ D Hne Hpd).
    destruct (D <=? 2 ^ 63); [|done].
    destruct (Z.ltb_spec (- D) 0); [done|lia].
  - intros Hsmall. unfold parseDollarsToMicroCents.
    destruct (TrimSpace_amount_nonempty (String.append (decimal D) ".")) as [-> ->].
    { by destruct (decimal D). }
    { rewrite allChars_app, Hbytes. done. }
    change "."%string with (String "." "").
    rewrite Hs2, ParseInt_decimal by lia.
    destruct (Z.ltb_spec D 0); [lia|]. done.
  - intros Hsmall Hfrac Hlen. unfold parseDollarsToMicroCents.
    destruct (TrimSpace_amount_nonempty
                (String.append (decimal D) (String "." frac))) as [-> ->].
    { by destruct (decimal D). }
    { rewrite allChars_app, Hbytes. cbn [allChars andb].
      eapply allChars_impl; [|exact Hfrac]. intros b Hb.
      unfold amountByte. by rewrite Hb. }
    rewrite Hs2, ParseInt_decimal by lia.
    destruct (Z.ltb_spec D 0); [lia|].
    by apply Nat.ltb_lt in Hlen as ->.
Qed.

Lemma parseDollarsToMicroCents_rejections_witness :
  (TrimSpace "  " = "" -> parseDollarsToMicroCents "  " = inr AmountEmpty)
  /\ (2 ^ 63 <= 12 -> parseDollarsToMicroCents (decimal 12) = inr InvalidDollarAmount)
  /\ (0 < 12 ->
      parseDollarsToMicroCents (String "-" (decimal 12)) = inr InvalidDollarAmount)
  /\ (12 < 2 ^ 63 ->
      parseDollarsToMicroCents (String.append (decimal 12) ".") = inr InvalidCents)
  /\ (12 < 2 ^ 63 -> allChars isDigit "345" = true ->
      (2 < String.length "345")%nat ->
      parseDollarsToMicroCents (String.append (decimal 12) (String "." "345"))
      = inr TooManyDecimalPlaces).
Proof.
  apply (parseDollarsToMicroCents_rejections 12 "345" "  "). lia.
Defined.

(** The amount parser takes a sign wherever [strconv.ParseInt] does: a
    plus sign before the dollars, a minus sign before a zero dollar part,
    and either sign in place of the first of two digits after the dot.
    With a minus sign after the dot the digit is taken off the dollars,
    and for zero dollars the result is negative. *)
Theorem parseDollarsToMicroCents_signs (D d : Z) :
  0 <= D -> (D * 100 + 99) * 1000 <= int64_max -> 0 <= d <= 9 ->
  parseDollarsToMicroCents (String "+" (decimal D)) = inl (D * 100 * 1000)
  /\ parseDollarsToMicroCents
       (String "-" (String.append "0" (String "." (twoDigits d))))
     = inl (d * 1000)
  /\ parseDollarsToMicroCents
       (String.append (decimal D) (String "." (String "-" (decimal d))))
     = inl ((D * 100 - d) * 1000)
  /\ parseDollarsToMicroCents
       (String.append (decimal D) (String "." (String "+" (decimal d))))
     = inl ((D * 100 + d) * 1000).
Proof.
  intros HD Hb Hd.
  pose proof (decimal_nonempty D HD) as Hne.
  pose proof (decimal_digits D HD) as Hdig.
  pose proof (decimal_amountBytes D HD) as Hbytes.
  pose proof (parseDigits_decimal D HD) as Hpd.
  assert (D < 2 ^ 63) as HD63 by int64_lia.
  destruct (splitDot_digits (decimal D) Hdig) as [Hs1 Hs2].
  pose proof (decimal_one_digit d Hd) as Hlen.
  pose proof (decimal_nonempty d ltac:(lia)) as Hned.
  pose proof (parseDigits_decimal d ltac:(lia)) as Hpdd.
  pose proof (decimal_amountBytes d ltac:(lia)) as Hbd.
  split_and!.
  - unfold parseDollarsToMicroCents.
    destruct (TrimSpace_amount_nonempty (String "+" (decimal D))) as [-> ->];
      [done|cbn [allChars]; by rewrite Hbytes|].
    destruct (splitDot_signed "+" (decimal D) eq_refl Hdig) as [-> _].
    rewrite (ParseInt_plus _ D Hne Hpd).
    destruct (Z.ltb_spec D (2 ^ 63)); [|lia].
    destruct (Z.ltb_spec D 0); [lia|].
    f_equal. rewrite parse_cents_exact by lia. lia.
  - destruct (twoDigits_parse d ltac:(lia)) as (Hl2 & Hp2 & Hall2).
    unfold parseDollarsToMicroCents.
    change (String.append "0" (String "." (twoDigits d)))
      with (String "0" (String "." (twoDigits d))).
    destruct (TrimSpace_amount_nonempty
                (String "-" (String "0" (String "." (twoDigits d))))) as [-> ->].
    { done. }
    { cbn [allChars]. change (amountByte "-") with true.
      change (amountByte "0") with true. change (amountByte ".") with true.
      cbn [andb]. eapply allChars_impl; [|exact Hall2]. intros b Hb'.
      unfold amountByte. by rewrite Hb'. }
    destruct (splitDot_signed "-" "0" eq_refl eq_refl) as [_ Hsd].
    specialize (Hsd (twoDigits d)).
    change (String.append "0" (String "." (twoDigits d)))
      with (String "0" (String "." (twoDigits d))) in Hsd.
    rewrite Hsd. change (ParseInt "-0") with (Some 0).
    cbn [Z.ltb Z.compare]. rewrite Hl2. cbn [Nat.ltb Nat.leb Nat.eqb].
    rewrite (ParseInt_digits _ d); [|by destruct (twoDigits d)|done|lia].
    f_equal. rewrite (parse_cents_exact 0 d) by int64_lia. lia.
  - unfold parseDollarsToMicroCents.
    destruct (TrimSpace_amount_nonempty
                (String.append (decimal D) (String "." (String "-" (decimal d)))))
      as [-> ->].
    { by destruct (decimal D). }
    { rewrite allChars_app, Hbytes. cbn [allChars].
      change (amountByte ".") with true. change (amountByte "-") with true.
      cbn [andb]. exact Hbd. }
    rewrite Hs2, ParseInt_decimal by lia.
    destruct (Z.ltb_spec D 0); [lia|].
    cbn [String.length]. rewrite Hlen. cbn [Nat.ltb Nat.leb Nat.eqb].
    rewrite (ParseInt_minus _ d Hned Hpdd).
    destruct (Z.leb_spec d (2 ^ 63)); [|lia].
    f_equal. rewrite parse_cents_exact by lia. lia.
  - unfold parseDollarsToMicroCents.
    destruct (TrimSpace_amount_nonempty
                (String.append (decimal D) (String "." (String "+" (decimal d)))))
      as [-> ->].
    { by destruct (decimal D). }
    { rewrite allChars_app, Hbytes. cbn [allChars].
      change (amountByte ".") with true. change (amountByte "+") with true.
      cbn [andb]. exact Hbd. }
    rewrite Hs2, ParseInt_decimal by lia.
    destruct (Z.ltb_spec D 0); [lia|].
    cbn [String.length]. rewrite Hlen. cbn [Nat.ltb Nat.leb Nat.eqb].
    rewrite (ParseInt_plus _ d Hned Hpdd).
    destruct (Z.ltb_spec d (2 ^ 63)); [|lia].
    f_equal. rewrite parse_cents_exact by lia. lia.
Qed.

Lemma parseDollarsToMicroCents_signs_witness :
  parseDollarsToMicroCents "+0" = inl 0
  /\ parseDollarsToMicroCents "-0.05" = inl 5000
  /\ parseDollarsToMicroCents "0.-5" = inl (-5000)
  /\ parseDollarsToMicroCents "0.+5" = inl 5000.
Proof.
  destruct (parseDollarsToMicroCents_signs 0 5) as (H1 & H2 & H3 & H4);
    [lia|vm_compute; discriminate|lia|].
  split_and!; [exact H1|exact H2|exact H3|exact H4].
Defined.


(** ** Rounding to nearest, with error bounds *)

Lemma digits2_pos_unique p d :
  2 ^ (d - 1) <= Z.pos p < 2 ^ d -> Z.pos (digits2_pos p) = d.
Proof.
  intros [Hlo Hhi].
  pose proof (digits2_pos_bounds p) as [Hlo' Hhi'].
  set (d' := Z.pos (digits2_pos p)) in *.
  assert (0 < d') as Hd' by (unfold d'; lia).
  assert (0 <= d) as Hd.
  { destruct (Z.lt_ge_cases d 0) as [Hneg|?]; [|done].
    rewrite (Z.pow_neg_r 2 d) in Hhi by done. lia. }
  destruct (Z.lt_trichotomy d' d) as [Hlt|[Heq|Hgt]]; [|done|].
  - pose proof (Z.pow_le_mono_r 2 d' (d - 1) ltac:(lia) ltac:(lia)). lia.
  - pose proof (Z.pow_le_mono_r 2 d (d' - 1) ltac:(lia) ltac:(lia)). lia.
Qed.

Lemma round_nearest_even_le m l : round_nearest_even m l <= m + 1.
Proof. destruct l as [|[]]; simpl; try lia. destruct (Z.even m); lia. Qed.

(** A mantissa of exactly 53 bits at an exponent in range is kept. *)
Lemma binary_round_aux_exact s m e :
  Z.pos (digits2_pos m) = 53 -> -1074 <= e <= 971 ->
  binary_round_aux prec emax s (Z.pos m) e loc_Exact = S754_finite s m e.
Proof.
  intros Hd He. unfold binary_round_aux.
  assert (shr_fexp prec emax (Z.pos m) e loc_Exact
          = (shr_record_of_loc (Z.pos m) loc_Exact, e)) as Hs.
  { unfold shr_fexp. cbn [Zdigits2]. rewrite Hd, fexp_eq.
    replace (Z.max (53 + e - 53) (-1074) - e) with 0 by lia. reflexivity. }
  rewrite Hs. cbn [shr_record_of_loc shr_m loc_of_shr_record round_nearest_even].
  rewrite Hs. cbn [shr_record_of_loc shr_m].
  destruct (Z.leb_spec e (emax - prec)) as [_|Hgt]; [done|].
  change (emax - prec) with 971 in Hgt. lia.
Qed.

(** Rounding a mantissa [q] of at least 53 bits: the result is a finite
    number whose exponent is [k] above the one given, and whose mantissa,
    scaled back, is within [2^k] of [q]. *)
Lemma binary_round_aux_near s q e l (d : Z) :
  0 < q -> Zdigits2 q = d -> 53 <= d -> -1074 <= e -> d + e <= 1023 ->
  exists m' k,
    binary_round_aux prec emax s q e l = S754_finite s m' (e + k)
    /\ d - 53 <= k <= d - 52
    /\ q - 2 ^ k < Z.pos m' * 2 ^ k <= q + 2 ^ k.
Proof.
  intros Hq Hd Hd53 He Hmax. unfold binary_round_aux.
  destruct q as [|p|p]; try lia. cbn [Zdigits2] in Hd.
  pose proof (digits2_pos_bounds p) as [Hlo Hhi]. rewrite Hd in Hlo, Hhi.
  destruct (shr_fexp_spec (Z.pos p) e l ltac:(lia)) as [Hm1 He1].
  cbn [Zdigits2] in Hm1, He1. rewrite Hd, fexp_eq in Hm1, He1.
  replace (Z.max (d + e - 53) (-1074) - e) with (d - 53) in Hm1, He1 by lia.
  destruct (shr_fexp prec emax (Z.pos p) e l) as [mrs1 e1]. cbn [fst snd] in *.
  set (n := d - 53) in *.
  assert (0 < 2 ^ n) as Hpn by (apply Z.pow_pos_nonneg; lia).
  assert (shr_m mrs1 = Z.pos p / 2 ^ n) as Hm1'.
  { rewrite Hm1. destruct (Z.ltb_spec 0 n); [done|].
    assert (n = 0) as -> by lia. by rewrite Z.pow_0_r, Z.div_1_r. }
  assert (e1 = e + n) as He1'.
  { rewrite He1. destruct (Z.ltb_spec 0 n); [done|]. lia. }
  clear Hm1 He1. subst e1.
  set (q1 := shr_m mrs1) in *.
  assert (2 ^ 52 <= q1 < 2 ^ 53) as Hq1.
  { rewrite Hm1'. split.
    - apply Z.div_le_lower_bound; [done|].
      rewrite <- Z.pow_add_r by lia. replace (n + 52) with (d - 1) by lia. done.
    - apply Z.div_lt_upper_bound; [done|].
      rewrite <- Z.pow_add_r by lia. replace (n + 53) with d by lia. done. }
  assert (q1 * 2 ^ n <= Z.pos p < q1 * 2 ^ n + 2 ^ n) as Hq1v.
  { rewrite Hm1'. pose proof (Z.div_mod (Z.pos p) (2 ^ n) ltac:(lia)).
    pose proof (Z.mod_pos_bound (Z.pos p) (2 ^ n) Hpn). lia. }
  pose proof (round_nearest_even_ge q1 (loc_of_shr_record mrs1)) as Hr1.
  pose proof (round_nearest_even_le q1 (loc_of_shr_record mrs1)) as Hr2.
  set (r := round_nearest_even q1 (loc_of_shr_record mrs1)) in *.
  destruct r as [|pr|pr] eqn:Er; try lia.
  destruct (Z.lt_ge_cases (Z.pos pr) (2 ^ 53)) as [Hsmall|Hbig].
  - (* the rounded mantissa still has 53 bits *)
    assert (Z.pos (digits2_pos pr) = 53) as Hdr
      by (apply digits2_pos_unique; change (53 - 1) with 52; lia).
    assert (shr_fexp prec emax (Z.pos pr) (e + n) loc_Exact
            = (shr_record_of_loc (Z.pos pr) loc_Exact, e + n)) as Hs.
    { unfold shr_fexp. cbn [Zdigits2]. rewrite Hdr, fexp_eq.
      replace (Z.max (53 + (e + n) - 53) (-1074) - (e + n)) with 0 by lia.
      reflexivity. }
    rewrite Hs. cbn [shr_record_of_loc shr_m].
    destruct (Z.leb_spec (e + n) (emax - prec)) as [_|Hgt].
    2:{ change (emax - prec) with 971 in Hgt. lia. }
    exists pr, n. split_and!; [done|lia|lia|nia|nia].
  - (* the rounded mantissa is [2^53], which is shifted once more *)
    assert (Z.pos pr = 2 ^ 53) as Hpr by lia.
    assert (Z.pos (digits2_pos pr) = 54) as Hdr.
    { apply digits2_pos_unique. change (54 - 1) with 53.
      rewrite Hpr. split; [lia|]. apply Z.pow_lt_mono_r; lia. }
    destruct (shr_fexp_spec (Z.pos pr) (e + n) loc_Exact ltac:(lia)) as [Hm2 He2].
    cbn [Zdigits2] in Hm2, He2. rewrite Hdr, fexp_eq in Hm2, He2.
    replace (Z.max (54 + (e + n) - 53) (-1074) - (e + n)) with 1 in Hm2, He2 by lia.
    change (0 <? 1) with true in Hm2, He2. cbn iota in Hm2, He2.
    destruct (shr_fexp prec emax (Z.pos pr) (e + n) loc_Exact) as [mrs2 e2].
    cbn [fst snd] in *. subst e2.
    rewrite Hm2, Hpr. change (2 ^ 53 / 2 ^ 1) with (2 ^ 52).
    change (2 ^ 52) with (Z.pos 4503599627370496).
    destruct (Z.leb_spec (e + n + 1) (emax - prec)) as [_|Hgt].
    2:{ change (emax - prec) with 971 in Hgt. lia. }
    exists 4503599627370496%positive, (n + 1).
    replace (e + (n + 1)) with (e + n + 1) by lia.
    split_and!; [done|lia|lia| |].
    + rewrite Z.pow_add_r, Z.pow_1_r by lia.
      change (Z.pos 4503599627370496) with (2 ^ 52).
      assert (q1 + 1 = 2 ^ 53) as Hq1' by lia.
      change (2 ^ 53) with (2 * 2 ^ 52) in Hq1'. nia.
    + rewrite Z.pow_add_r, Z.pow_1_r by lia.
      change (Z.pos 4503599627370496) with (2 ^ 52).
      assert (q1 + 1 = 2 ^ 53) as Hq1' by lia.
      change (2 ^ 53) with (2 * 2 ^ 52) in Hq1'. nia.
Qed.

(** The quotient of two normal numbers: with [q] the integer quotient of
    the mantissas, the first shifted by 53 bits, the result is a finite
    number [k] exponents above [e1 - e2 - 53] whose mantissa, scaled
    back, is within [2^k] of [q]. *)
Lemma SFdiv_near m1 e1 m2 e2 :
  Z.pos (digits2_pos m1) = 53 -> Z.pos (digits2_pos m2) = 53 ->
  -1074 <= e1 - e2 - 53 -> e1 - e2 <= 900 ->
  exists m' k,
    SFdiv prec emax (S754_finite false m1 e1) (S754_finite false m2 e2)
    = S754_finite false m' (e1 - e2 - 53 + k)
    /\ 0 <= k <= 2
    /\ Z.pos m1 * 2 ^ 53 / Z.pos m2 - 2 ^ k < Z.pos m' * 2 ^ k
       <= Z.pos m1 * 2 ^ 53 / Z.pos m2 + 2 ^ k.
Proof.
  intros Hd1 Hd2 Hlo Hhi. cbn [SFdiv]. unfold SFdiv_core_binary. cbv zeta.
  cbn [Zdigits2]. rewrite Hd1, Hd2, fexp_eq.
  replace (Z.min (Z.max (53 + e1 - (53 + e2) - 53) (-1074)) (e1 - e2))
    with (e1 - e2 - 53) by lia.
  replace (e1 - e2 - (e1 - e2 - 53)) with 53 by lia.
  destruct (Z.div_eucl (Z.shiftl (Z.pos m1) 53) (Z.pos m2)) as [q r] eqn:E.
  assert (q = Z.pos m1 * 2 ^ 53 / Z.pos m2) as Hq.
  { rewrite <- Z.shiftl_mul_pow2 by lia. unfold Z.div. by rewrite E. }
  pose proof (digits2_pos_bounds m1) as [Hlo1 Hhi1].
  pose proof (digits2_pos_bounds m2) as [Hlo2 Hhi2].
  rewrite Hd1 in Hlo1, Hhi1. rewrite Hd2 in Hlo2, Hhi2.
  change (53 - 1) with 52 in *.
  assert (2 ^ 52 <= q < 2 ^ 54) as Hqb.
  { rewrite Hq. split.
    - apply Z.div_le_lower_bound; [lia|].
      change (2 ^ 53) with (2 * 2 ^ 52) in *. nia.
    - apply Z.div_lt_upper_bound; [lia|].
      change (2 ^ 54) with (2 * 2 ^ 53). change (2 ^ 53) with (2 * 2 ^ 52) in *.
      nia. }
  destruct q as [|pq|pq]; try lia.
  set (d := Z.pos (digits2_pos pq)).
  assert (53 <= d <= 54) as Hd.
  { pose proof (digits2_pos_bounds pq) as [Hl Hh]. fold d in Hl, Hh.
    split.
    - destruct (Z.lt_ge_cases d 53) as [Hlt|?]; [|done].
      pose proof (Z.pow_le_mono_r 2 d 52 ltac:(lia) ltac:(lia)). lia.
    - destruct (Z.lt_ge_cases 54 d) as [Hgt|?]; [|lia].
      pose proof (Z.pow_le_mono_r 2 54 (d - 1) ltac:(lia) ltac:(lia)). lia. }
  match goal with
  | |- context [binary_round_aux _ _ _ _ _ ?l] =>
      destruct (binary_round_aux_near (xorb false false) (Z.pos pq)
                  (e1 - e2 - 53) l d)
        as (m' & k & Heq & Hk & Hv); [lia|done|lia|lia|lia|]
  end.
  exists m', k. rewrite Heq. rewrite <- Hq. split_and!; [done|lia|lia|lia|lia].
Qed.

(** ** The float of a number of cents *)

Lemma iter_xO_value m d : Z.pos (PosDef.Pos.iter xO m d) = Z.pos m * 2 ^ Z.pos d.
Proof.
  induction d as [|d IH] using Pos.peano_ind.
  - cbn. lia.
  - change (PosDef.Pos.iter xO m (Pos.succ d)) with (Pos.iter xO m (Pos.succ d)).
    rewrite Pos.iter_succ.
    change (Pos.iter xO m d) with (PosDef.Pos.iter xO m d).
    rewrite Pos2Z.inj_xO, IH, Pos2Z.inj_succ, Z.pow_succ_r by lia. lia.
Qed.

(** The float of [0 < n < 2^53] is [n] itself, on a mantissa of 53 bits. *)
Lemma float64_of_int64_exact n :
  0 < n < 2 ^ 53 ->
  exists m e,
    Prim2SF (float64_of_int64 n) = S754_finite false m e
    /\ Z.pos (digits2_pos m) = 53
    /\ -52 <= e <= 0
    /\ Z.pos m = n * 2 ^ (- e)
    /\ 2 ^ (52 + e) <= n < 2 ^ (53 + e).
Proof.
  intros Hn. unfold float64_of_int64.
  destruct (Z.eqb_spec n int64_min) as [->|_]; [unfold int64_min in Hn; lia|].
  destruct (Z.ltb_spec n 0) as [?|_]; [lia|].
  rewrite of_uint63_spec, to_Z_of_Z by (unfold int64_max; lia).
  destruct n as [|p|p]; try lia. cbn [binary_normalize].
  unfold binary_round. rewrite Z.add_0_r, fexp_eq.
  pose proof (digits2_pos_bounds p) as [Hlo Hhi].
  set (d := Z.pos (digits2_pos p)) in *.
  assert (1 <= d <= 53) as Hd.
  { split; [unfold d; lia|].
    destruct (Z.lt_ge_cases 53 d) as [Hgt|?]; [|lia].
    pose proof (Z.pow_le_mono_r 2 53 (d - 1) ltac:(lia) ltac:(lia)). lia. }
  replace (Z.max (d - 53) (-1074)) with (d - 53) by lia.
  unfold shl_align. rewrite Z.sub_0_r.
  destruct (d - 53) as [|k|k] eqn:Ek; try lia.
  - (* 53 bits already *)
    assert (d = 53) as Hd53 by lia.
    rewrite binary_round_aux_exact by (done || lia).
    exists p, 0. rewrite Hd53 in Hlo, Hhi. change (53 - 1) with 52 in Hlo.
    split_and!; try done; try lia.
  - (* shifted left by [53 - d] bits *)
    assert (Z.pos (PosDef.Pos.iter xO p k) = Z.pos p * 2 ^ Z.pos k) as Hv
      by apply iter_xO_value.
    assert (Z.pos k = 53 - d) as Hk by lia.
    assert (Z.pos (digits2_pos (PosDef.Pos.iter xO p k)) = 53) as Hd'.
    { apply digits2_pos_unique. rewrite Hv, Hk. change (53 - 1) with 52. split.
      - replace 52 with (d - 1 + (53 - d)) by lia.
        rewrite Z.pow_add_r by lia.
        apply Z.mul_le_mono_nonneg_r; [apply Z.pow_nonneg; lia|done].
      - replace 53 with (d + (53 - d)) at 2 by lia.
        rewrite Z.pow_add_r by lia.
        apply Z.mul_lt_mono_pos_r; [apply Z.pow_pos_nonneg; lia|done]. }
    rewrite binary_round_aux_exact by (done || lia).
    exists (PosDef.Pos.iter xO p k), (Z.neg k).
    split_and!; try done; try lia.
    + replace (52 + Z.neg k) with (d - 1) by lia. done.
    + replace (53 + Z.neg k) with d by lia. done.
Qed.

(** ** Two decimals *)

Lemma roundHalfEven_near a b n :
  0 < b -> 2 * Z.abs (a - n * b) < b -> roundHalfEven a b = n.
Proof.
  intros Hb Hnear. unfold roundHalfEven.
  pose proof (Z.div_mod a b ltac:(lia)) as Hdm.
  pose proof (Z.mod_pos_bound a b Hb) as Hr.
  destruct (Z.le_gt_cases (n * b) a) as [Hge|Hlt].
  - assert (a / b = n) as Hq.
    { symmetry. apply (Z.div_unique a b n (a - n * b)); lia. }
    assert (a mod b = a - n * b) as Hm by (rewrite Hq in Hdm; lia).
    rewrite Hq, Hm.
    destruct (Z.compare_spec (2 * (a - n * b)) b); [lia|done|lia].
  - assert (a / b = n - 1) as Hq.
    { symmetry. apply (Z.div_unique a b (n - 1) (a - (n - 1) * b)); lia. }
    assert (a mod b = a - (n - 1) * b) as Hm by (rewrite Hq in Hdm; lia).
    rewrite Hq, Hm.
    destruct (Z.compare_spec (2 * (a - (n - 1) * b)) b); [lia|lia|lia].
Qed.

(** The hundredths of [float64(n) / 100.0] are [n]. *)
Lemma cents_hundredths n :
  0 < n < 2 ^ 50 ->
  exists m e,
    Prim2SF (PrimFloat.div (float64_of_int64 n) 100%float) = S754_finite false m e
    /\ hundredths m e = n.
Proof.
  intros Hn.
  destruct (float64_of_int64_exact n) as (m1 & e1 & Hf & Hd1 & He1 & Hv1 & Hrange);
    [split; [lia|]; etransitivity; [apply Hn|]; apply Z.pow_lt_mono_r; lia|].
  assert (e1 <= -3) as He3.
  { destruct (Z.le_gt_cases e1 (-3)) as [?|Hgt]; [done|].
    pose proof (Z.pow_le_mono_r 2 50 (52 + e1) ltac:(lia) ltac:(lia)). lia. }
  rewrite FloatAxioms.div_spec, Hf, SF_of_100.
  destruct (SFdiv_near m1 e1 7036874417766400 (-46))
    as (m' & k & Heq & Hk & Hv); [done|reflexivity|lia|lia|].
  exists m', (e1 - -46 - 53 + k). split; [exact Heq|].
  unfold hundredths.
  destruct (Z.leb_spec 0 (e1 - -46 - 53 + k)) as [?|_]; [lia|].
  replace (- (e1 - -46 - 53 + k)) with (7 - e1 - k) by lia.
  apply roundHalfEven_near; [apply Z.pow_pos_nonneg; lia|].
  (* the integer quotient, in terms of [n] *)
  set (N := n * 2 ^ (7 - e1)).
  assert (Z.pos m1 * 2 ^ 53 / 7036874417766400 = N / 100) as Hq.
  { change (Z.pos 7036874417766400) with (100 * 2 ^ 46).
    change (2 ^ 53) with (2 ^ 7 * 2 ^ 46).
    rewrite Z.mul_assoc, Z.div_mul_cancel_r by lia.
    f_equal. unfold N. rewrite Hv1.
    replace (7 - e1) with (- e1 + 7) by lia. rewrite Z.pow_add_r by lia. lia. }
  change (Z.pos 7036874417766400) with 7036874417766400 in Hv.
  rewrite Hq in Hv.
  pose proof (Z.div_mod N 100 ltac:(lia)) as Hdm.
  pose proof (Z.mod_pos_bound N 100 ltac:(lia)) as Hmod.
  assert (N = n * 2 ^ (7 - e1 - k) * 2 ^ k) as HN.
  { unfold N. rewrite <- Z.mul_assoc, <- Z.pow_add_r by lia. do 2 f_equal. lia. }
  assert (0 < 2 ^ k <= 4) as Hpk.
  { split; [apply Z.pow_pos_nonneg; lia|].
    change 4 with (2 ^ 2). apply Z.pow_le_mono_r; lia. }
  assert (1024 <= 2 ^ (7 - e1 - k) * 2 ^ k) as Hbig.
  { rewrite <- Z.pow_add_r by lia. change 1024 with (2 ^ 10).
    apply Z.pow_le_mono_r; lia. }
  set (B := 2 ^ (7 - e1 - k)) in *. set (P := 2 ^ k) in *.
  set (M := Z.pos m') in *.
  (* | M * 100 - n * B | * P <= 100 * P + 100 <= 500 < B * P / 2 *)
  assert (- (100 * P + 100) <= (M * 100 - n * B) * P <= 100 * P) as Hdiff by nia.
  destruct (Z.abs_spec (M * 100 - n * B)) as [[? ->]|[? ->]]; nia.
Qed.


(** ** The label of an aggregate *)

Lemma formatFixed2_cents n :
  0 <= n < 2 ^ 50 ->
  formatFixed2 (PrimFloat.div (float64_of_int64 n) 100%float) = dollarsText n.
Proof.
  intros Hn. destruct (Z.eq_dec n 0) as [->|Hne]; [vm_compute; reflexivity|].
  destruct (cents_hundredths n ltac:(lia)) as (m & e & Hsf & Hh).
  unfold formatFixed2. rewrite Hsf, Hh. cbn iota.
  unfold dollarsText, twoDigits.
  change (String.append "" ?x) with x.
  do 3 f_equal.
  - rewrite <- (Z.mod_mod_divide n 100 10) by (by exists 10).
    reflexivity.
Qed.

(** For an aggregate of at least zero and below [2^50] cents, the label
    [formatMicroCentsAsDollars] prints is the dollar sign followed by the
    cents, rounded half up from the micro-cents, written as dollars, a
    dot and two digits; the float division and [%.2f] lose nothing.
    The amount parser reads the text after the dollar sign back as the
    rounded micro-cents. *)
Theorem formatMicroCentsAsDollars_decimal (micro : Z) :
  0 <= micro -> micro + 500 < 1000 * 2 ^ 50 ->
  let cents := (micro + 500) / 1000 in
  formatMicroCentsAsDollars micro = String.append "$" (dollarsText cents)
  /\ parseDollarsToMicroCents (dollarsText cents) = inl (cents * 1000)
  /\ 1000 * cents - 500 <= micro < 1000 * cents + 500.
Proof.
  intros Hm Hb. cbv zeta.
  assert (1000 * 2 ^ 50 < int64_max) as Hmax by (vm_compute; reflexivity).
  destruct (roundedCents_half_up micro ltac:(lia)) as [Hc Hr].
  cbv zeta in Hc, Hr.
  assert (0 <= (micro + 500) / 1000 < 2 ^ 50) as Hcents.
  { split; [apply Z.div_pos; lia|apply Z.div_lt_upper_bound; lia]. }
  split; [|split].
  - unfold formatMicroCentsAsDollars. rewrite Hc. f_equal.
    by apply formatFixed2_cents.
  - apply parse_dollarsText; [lia|].
    pose proof (Z.div_mod ((micro + 500) / 1000) 100 ltac:(lia)) as Hdm.
    pose proof (Z.mod_pos_bound ((micro + 500) / 1000) 100 ltac:(lia)).
    assert (2 ^ 50 * 1000 + 99000 <= int64_max) by (vm_compute; discriminate).
    lia.
  - rewrite <- Hc. exact Hr.
Qed.

Lemma formatMicroCentsAsDollars_decimal_witness :
  let cents := (3333333 + 500) / 1000 in
  formatMicroCentsAsDollars 3333333 = String.append "$" (dollarsText cents)
  /\ parseDollarsToMicroCents (dollarsText cents) = inl (cents * 1000)
  /\ 1000 * cents - 500 <= 3333333 < 1000 * cents + 500.
Proof.
  apply (formatMicroCentsAsDollars_decimal 3333333); [lia|vm_compute; reflexivity].
Defined.

(** ** Names in the exported graph *)

Lemma quoteBody_plain s : allChars plainByte s = true -> quoteBody s = s.
Proof.
  induction s as [|c s IH]; cbn [allChars quoteBody]; [done|].
  intros [Hc Hs]%andb_true_iff. rewrite (IH Hs).
  assert (quoteByte c = String c EmptyString) as ->; [|done].
  revert Hc. clear. each_ascii c; intros H; try discriminate H; reflexivity.
Qed.

Lemma personNamePattern_plain d :
  personNamePattern d = true -> allChars plainByte d = true.
Proof.
  destruct d as [|c rest]; [done|]. cbn [personNamePattern allChars].
  rewrite !andb_true_iff. intros [[Hc Hrest] _]. split.
  - revert Hc. clear. each_ascii c; done.
  - eapply allChars_impl; [|exact Hrest]. clear. intros c. each_ascii c; done.
Qed.

Lemma groupNamePattern_plain d :
  groupNamePattern d = true -> allChars plainByte d = true.
Proof.
  destruct d as [|c rest]; [done|]. cbn [groupNamePattern allChars].
  rewrite !andb_true_iff. intros [[Hc Hrest] _]. split.
  - revert Hc. clear. each_ascii c; done.
  - eapply allChars_impl; [|exact Hrest]. clear. intros c. each_ascii c; done.
Qed.

Lemma ToLower_plain s : allChars plainByte s = true -> allChars plainByte (ToLower s) = true.
Proof.
  induction s as [|c s IH]; cbn [allChars ToLower]; [done|].
  intros [Hc Hs]%andb_true_iff. rewrite (IH Hs), andb_true_r.
  revert Hc. clear. each_ascii c; done.
Qed.

(** In a group built through the operations the names need no escaping:
    [%q] only puts the name of the group, the key of a member and its
    display name between double quotes, so that the header and the node
    declarations of the exported graph carry them as they are. *)
Theorem GetGraphDOT_names_verbatim g key p :
  reachable g ->
  people g !! key = Some p ->
  quote (group_Name g)
  = String.append dquote (String.append (group_Name g) dquote)
  /\ quote key = String.append dquote (String.append key dquote)
  /\ quote (displayName g key)
     = String.append dquote (String.append (person_Name p) dquote)
  /\ nodeDecl key (displayName g key)
     = String.append "  "
         (String.append dquote
            (String.append key
               (String.append dquote
                  (String.append " [label="
                     (String.append dquote
                        (String.append (person_Name p)
                           (String.append dquote
                              (String.append "];" newline)))))))).
Proof.
  intros Hr Hp.
  destruct (reachable_inv g Hr) as (_ & Hcan & _ & _ & Hgp).
  destruct (Hcan key p Hp) as (Hkey & Htrim & Hpat).
  assert (quote (group_Name g)
          = String.append dquote (String.append (group_Name g) dquote)) as Hq1.
  { unfold quote. by rewrite quoteBody_plain by by apply groupNamePattern_plain. }
  assert (quote key = String.append dquote (String.append key dquote)) as Hq2.
  { unfold quote. rewrite quoteBody_plain; [done|]. rewrite <- Hkey.
    unfold normalizeName. rewrite Htrim.
    by apply ToLower_plain, personNamePattern_plain. }
  assert (quote (displayName g key)
          = String.append dquote (String.append (person_Name p) dquote)) as Hq3.
  { unfold displayName. rewrite Hp. unfold quote.
    by rewrite quoteBody_plain by by apply personNamePattern_plain. }
  split_and!; try done.
  unfold nodeDecl. rewrite Hq2, Hq3.
  assert (forall a b c, String.append (String.append a b) c
                        = String.append a (String.append b c)) as Hassoc.
  { clear. intros a b c. induction a as [|x a IH]; [done|].
    rewrite !append_String. by rewrite IH. }
  by rewrite !Hassoc.
Qed.

Lemma GetGraphDOT_names_verbatim_witness :
  quote (group_Name tripGroup)
  = String.append dquote (String.append (group_Name tripGroup) dquote)
  /\ quote "alice" = String.append dquote (String.append "alice" dquote)
  /\ quote (displayName tripGroup "alice")
     = String.append dquote (String.append "Alice" dquote)
  /\ nodeDecl "alice" (displayName tripGroup "alice")
     = String.append "  "
         (String.append dquote
            (String.append "alice"
               (String.append dquote
                  (String.append " [label="
                     (String.append dquote
                        (String.append "Alice"
                           (String.append dquote
                              (String.append "];" newline)))))))).
Proof.
  apply (GetGraphDOT_names_verbatim tripGroup "alice" (mkPerson "Alice")).
  - apply reachable_tripGroup.
  - vm_compute. reflexivity.
Defined.


(** ** The settlements map *)

Lemma GetExpenseDetails_fold_inv g entries (acc : gmap string float) k amount :
  fold_left
    (fun result entry =>
       <[settlementKey g (fst (fst entry)) (snd (fst entry)) := snd entry]> result)
    entries acc !! k = Some amount ->
  (exists entry, entry ∈ entries
                 /\ settlementKey g (fst (fst entry)) (snd (fst entry)) = k
                 /\ snd entry = amount)
  \/ acc !! k = Some amount.
Proof.
  revert acc. induction entries as [|en entries IH]; intros acc; simpl; [by right|].
  intros [(entry & Hin & Hk & Hv)|Hacc]%IH.
  - left. exists entry. split_and!; [by right|done..].
  - rewrite lookup_insert in Hacc. case_decide as Hk.
    + injection Hacc as <-. left. exists en. split_and!; [by left|done..].
    + by right.
Qed.

(** Every entry of the map [GetExpenseDetails] returns is the amount of
    an ordered pair of distinct nodes whose net balance is at least one
    cent, under the key made of the two display names; the amount is
    positive. *)
Theorem GetExpenseDetails_sound g key amount :
  GetExpenseDetails g !! key = Some amount ->
  exists from to,
    key = settlementKey g from to
    /\ amount = getMoneyTobePaid g from to
    /\ is_Some (nodes (group_graph g) !! from)
    /\ is_Some (nodes (group_graph g) !! to)
    /\ from <> to
    /\ 1000 <= netBalance g from to
    /\ PrimFloat.ltb 0%float amount = true.
Proof.
  unfold GetExpenseDetails.
  intros [([[from to] a] & Hin & Hk & Hv)|Hacc]%GetExpenseDetails_fold_inv;
    [|by rewrite lookup_empty in Hacc].
  cbn [fst snd] in Hk, Hv. subst a.
  apply settlementEntries_elem_of in Hin as (Hf & Ht & Hne & -> & Hge).
  exists from, to. split_and!; try done.
  by apply getMoneyTobePaid_positive.
Qed.

Lemma GetExpenseDetails_sound_witness :
  let g := fst (fst tripAfterEqual) in
  exists from to,
    String.append "Bob to pay " "Alice" = settlementKey g from to
    /\ getMoneyTobePaid g "bob" "alice" = getMoneyTobePaid g from to
    /\ is_Some (nodes (group_graph g) !! from)
    /\ is_Some (nodes (group_graph g) !! to)
    /\ from <> to
    /\ 1000 <= netBalance g from to
    /\ PrimFloat.ltb 0%float (getMoneyTobePaid g "bob" "alice") = true.
Proof.
  cbv zeta.
  apply (GetExpenseDetails_sound (fst (fst tripAfterEqual))
           (String.append "Bob to pay " "Alice")
           (getMoneyTobePaid (fst (fst tripAfterEqual)) "bob" "alice")).
  vm_compute. reflexivity.
Defined.

(** A group built through the operations that has logged no expense has
    no edge: no pair has a balance, [GetExpenseDetails] returns the empty
    map, and the exported graph consists of the header, the node
    declarations and the footer. *)
Theorem no_expense_no_debt g :
  reachable g ->
  expenses g = ∅ ->
  (forall k, edgesOf (group_graph g) k = [])
  /\ (forall from to, netBalance g from to = 0)
  /\ GetExpenseDetails g = ∅
  /\ GetGraphDOT g
     = String.append (dotHeader g)
         (String.append
            (concatStrings
               (map (fun key => nodeDecl key (displayName g key))
                    (sortStrings (keysOf (people g)))))
            dotFooter).
Proof.
  intros Hr Hexp.
  destruct (reachable_ids g Hr) as (_ & _ & Hids).
  { rewrite Hexp, map_size_empty. unfold int64_max. lia. }
  assert (forall k es, nodes (group_graph g) !! k = Some es -> es = []) as Hnil.
  { intros k es Hes. pose proof (Hids k es Hes) as Hall. cbn beta in Hall.
    destruct es as [|ed es]; [done|].
    apply Forall_cons in Hall as [[? Hed] _]. by rewrite Hexp, lookup_empty in Hed. }
  assert (forall k, edgesOf (group_graph g) k = []) as Hedges.
  { intros k. unfold edgesOf.
    destruct (nodes (group_graph g) !! k) as [es|] eqn:Hes; [|done].
    cbn. by eapply Hnil. }
  assert (forall from to, netBalance g from to = 0) as Hnet.
  { intros from to. unfold netBalance. by rewrite !Hedges. }
  assert (settlementEntries g = []) as Hent.
  { destruct (settlementEntries g) as [|[[from to] a] l] eqn:E; [done|].
    assert ((from, to, a) ∈ settlementEntries g) as Hin by (rewrite E; left).
    apply settlementEntries_elem_of in Hin as (_ & _ & _ & _ & Hge).
    rewrite Hnet in Hge. lia. }
  split_and!; try done.
  - unfold GetExpenseDetails. by rewrite Hent.
  - unfold GetGraphDOT. cbv zeta.
    assert (edgeSumsOf (group_graph g) = ∅) as ->.
    { unfold edgeSumsOf.
      assert (forall (l : list (string * list edge)) acc,
                Forall (fun kv => snd kv = []) l ->
                fold_left (fun sums kv => addEdgeSums (fst kv) (snd kv) sums) l acc
                = acc) as Hfold.
      { clear. induction l as [|[k es] l IH]; intros acc Hall; [done|].
        apply Forall_cons in Hall as [Hes Hall]. cbn in Hes. subst es.
        cbn. by apply IH. }
      apply Hfold, Forall_forall. intros [k es] Hin%elem_of_map_to_list.
      cbn. by eapply Hnil. }
    rewrite map_to_list_empty. reflexivity.
Qed.

Lemma no_expense_no_debt_witness :
  (forall k, edgesOf (group_graph tripGroup) k = [])
  /\ (forall from to, netBalance tripGroup from to = 0)
  /\ GetExpenseDetails tripGroup = ∅
  /\ GetGraphDOT tripGroup
     = String.append (dotHeader tripGroup)
         (String.append
            (concatStrings
               (map (fun key => nodeDecl key (displayName tripGroup key))
                    (sortStrings (keysOf (people tripGroup)))))
            dotFooter).
Proof.
  apply (no_expense_no_debt tripGroup).
  - apply reachable_tripGroup.
  - vm_compute. reflexivity.
Defined.


(** ** How the leftover units are distributed *)

Lemma extraUnits_succ len x j :
  0 < len -> 0 <= x -> 0 <= j < len ->
  extraUnits (x + 1) len j
  = extraUnits x len j + (if x mod len =? j then 1 else 0).
Proof.
  intros Hlen Hx Hj. unfold extraUnits.
  pose proof (Z.div_mod x len ltac:(lia)) as Hdm.
  pose proof (Z.mod_pos_bound x len Hlen) as Hr.
  set (q := x / len) in *. set (r := x mod len) in *.
  destruct (Z.lt_ge_cases (r + 1) len) as [Hlt|Hge].
  - assert ((x + 1) / len = q) as ->
      by (symmetry; apply (Z.div_unique (x + 1) len q (r + 1)); lia).
    assert ((x + 1) mod len = r + 1) as ->
      by (symmetry; apply (Z.mod_unique (x + 1) len q (r + 1)); lia).
    destruct (Z.ltb_spec j (r + 1)), (Z.ltb_spec j r), (Z.eqb_spec r j); lia.
  - assert ((x + 1) / len = q + 1) as ->
      by (symmetry; apply (Z.div_unique (x + 1) len (q + 1) 0); lia).
    assert ((x + 1) mod len = 0) as ->
      by (symmetry; apply (Z.mod_unique (x + 1) len (q + 1) 0); lia).
    destruct (Z.ltb_spec j 0), (Z.ltb_spec j r), (Z.eqb_spec r j); lia.
Qed.

Lemma hits_extraUnits len (n : nat) j : forall i,
  0 < len -> 0 <= i -> 0 <= j < len ->
  hits len i n j = extraUnits (i + Z.of_nat n) len j - extraUnits i len j.
Proof.
  induction n as [|n IH]; intros i Hlen Hi Hj.
  - cbn [hits]. rewrite Z.add_0_r. lia.
  - cbn [hits]. rewrite IH by lia.
    rewrite (extraUnits_succ len i j) by lia.
    replace (i + 1 + Z.of_nat n) with (i + Z.of_nat (S n)) by lia. lia.
Qed.

Lemma hits_nonneg len (n : nat) j : forall i, 0 <= hits len i n j.
Proof.
  induction n as [|n IH]; intros i; cbn [hits]; [done|].
  specialize (IH (i + 1)). destruct (i mod len =? j); lia.
Qed.

Lemma NoDup_names_lookup (items : list item) (j j' : nat) a b :
  NoDup (map item_name items) ->
  items !! j = Some a -> items !! j' = Some b ->
  item_name a = item_name b -> j = j'.
Proof.
  intros Hnd Ha Hb Hn.
  apply (NoDup_lookup (map item_name items) j j' (item_name a)); [done| |].
  - by rewrite list_lookup_fmap, Ha.
  - by rewrite list_lookup_fmap, Hb, Hn.
Qed.

(** The distribution loop, share by share. *)
Lemma distribute_lookup items (n : nat) : forall i shares,
  items <> [] -> NoDup (map item_name items) -> 0 <= i ->
  (forall it, it ∈ items -> is_Some (shares !! item_name it)) ->
  nonnegShares shares ->
  sumShares shares + Z.of_nat n <= int64_max ->
  exists shares',
    distribute items n i shares = Ok shares'
    /\ forall (j : nat) it,
         items !! j = Some it ->
         shares' !! item_name it
         = Some (default 0 (shares !! item_name it)
                 + hits (Z.of_nat (length items)) i n (Z.of_nat j)).
Proof.
  induction n as [|n IH]; intros i shares Hne Hnd Hi Hin Hnn Hmax.
  - exists shares. split; [done|]. intros j it Hj. cbn [hits].
    destruct (Hin it) as [v Hv]; [by eapply list_elem_of_lookup_2|].
    rewrite Hv. cbn. f_equal. lia.
  - cbn [distribute].
    destruct items as [|d items'] eqn:Hitems; [done|]. rewrite <- Hitems in *.
    assert (0 < Z.of_nat (length items)) as Hlen by (rewrite Hitems; cbn; lia).
    assert (rem64 i (Z.of_nat (length items)) = i mod Z.of_nat (length items))
      as Hrem by (unfold rem64; apply Z.rem_mod_nonneg; lia).
    pose proof (Z.mod_pos_bound i (Z.of_nat (length items)) Hlen) as Hidx.
    set (idx := Z.to_nat (rem64 i (Z.of_nat (length items)))).
    assert (Z.of_nat idx = i mod Z.of_nat (length items)) as Hidx'
      by (unfold idx; rewrite Hrem; lia).
    assert (items !! idx = Some (nth idx items d)) as Hnth.
    { destruct (nth_lookup_or_length items idx d) as [?|?]; [done|lia]. }
    assert (nth idx items d ∈ items) as Hmem by by eapply list_elem_of_lookup_2.
    destruct (Hin _ Hmem) as [v Hv]. rewrite Hv. cbn [default from_option id].
    pose proof (Hnn _ _ Hv) as Hv0. cbn beta in Hv0.
    pose proof (sumShares_lookup_le _ _ _ Hnn Hv) as Hvle.
    assert (add64 v 1 = v + 1) as ->.
    { apply wrap64_small. unfold in_int64, int64_min, int64_max in *. lia. }
    destruct (IH (i + 1) (<[item_name (nth idx items d) := v + 1]> shares))
      as (shares' & Heq & Hl); [done|done|lia| | | |].
    + intros it Hit. rewrite lookup_insert. case_decide; [eauto|by apply Hin].
    + apply map_Forall_insert_2; [lia|done].
    + rewrite (sumShares_insert_Some _ _ _ v) by done. lia.
    + exists shares'. split; [done|]. intros j it Hj.
      rewrite (Hl j it Hj). f_equal. cbn [hits]. rewrite <- Hidx'.
      destruct (decide (idx = j)) as [->|Hd].
      * assert (it = nth j items d) as -> by congruence.
        rewrite lookup_insert_eq, Hv. cbn. rewrite Z.eqb_refl. lia.
      * rewrite lookup_insert_ne.
        2:{ intros Hn. apply Hd. by eapply NoDup_names_lookup. }
        destruct (Z.eqb_spec (Z.of_nat idx) (Z.of_nat j)); lia.
Qed.

(** The shares of the largest-remainder distribution: the item at
    position [j] of the sorted slice receives its floor and
    [extraUnits rem len j] more, where [rem] is what the floors leave of
    the total. *)
Lemma largestRemainder_lookup T items :
  in_int64 T -> items <> [] ->
  NoDup (map item_name items) ->
  Forall (fun it => 0 <= item_base it) items ->
  sumBases items <= T ->
  exists shares,
    largestRemainder T items = Ok shares
    /\ forall (j : nat) it,
         sortSlice itemLess items !! j = Some it ->
         shares !! item_name it
         = Some (item_base it
                 + extraUnits (T - sumBases items) (Z.of_nat (length items))
                              (Z.of_nat j)).
Proof.
  intros HT Hne Hnd Hnn Hle. unfold largestRemainder.
  pose proof (sortSlice_perm itemLess items) as Hp.
  set (sorted := sortSlice itemLess items) in *.
  assert (NoDup (map item_name sorted)) as Hnd' by by rewrite Hp.
  assert (Forall (fun it => 0 <= item_base it) sorted) as Hnn' by by rewrite Hp.
  assert (sorted <> []) as Hne'.
  { intros E. rewrite E in Hp. by apply Permutation_nil_l in Hp. }
  assert (0 <= sumBases items) as H0 by by apply sumBases_nonneg.
  rewrite usedOf_exact by (done || int64_lia).
  assert (sub64 T (sumBases items) = T - sumBases items) as ->.
  { apply wrap64_small. unfold in_int64, int64_min, int64_max in *. lia. }
  destruct (baseShares_spec sorted Hnd') as (Hd & Hs & Hl).
  destruct (distribute_lookup sorted (Z.to_nat (T - sumBases items)) 0
              (baseShares sorted)) as (shares & Heq & Hlook);
    [done|done|lia| |by apply baseShares_nonneg| |].
  - intros it Hit. rewrite (Hl _ Hit). eauto.
  - rewrite Hs, (sumBases_perm _ _ Hp). unfold in_int64 in HT. lia.
  - exists shares. split; [done|]. intros j it Hj.
    rewrite (Hlook j it Hj), (Hl it) by by eapply list_elem_of_lookup_2.
    cbn [default from_option id]. f_equal. f_equal.
    assert (length sorted = length items) as Hlen by by rewrite Hp.
    assert (0 < length sorted)%nat as Hpos by (destruct sorted; [done|cbn; lia]).
    assert (j < length sorted)%nat as Hjlt by by eapply lookup_lt_Some.
    rewrite hits_extraUnits by lia. rewrite Hlen.
    rewrite Z.add_0_l, Z2Nat.id by lia.
    unfold extraUnits at 2. rewrite Z.div_0_l, Z.mod_0_l by lia.
    destruct (Z.ltb_spec (Z.of_nat j) 0); lia.
Qed.


(** ** The order of the floats *)

Lemma SFcompare_rank f1 f2 :
  notNaN f1 -> notNaN f2 ->
  SFcompare f1 f2 = Some (rankCompare (floatRank f1) (floatRank f2)).
Proof.
  destruct f1 as [[]|[]| |[] m1 e1], f2 as [[]|[]| |[] m2 e2];
    cbn [notNaN]; intros H1 H2; try done; unfold SFcompare, floatRank, rankCompare;
    cbn [fst snd]; try reflexivity.
  - (* both negative *)
    change (-1 ?= -1) with Eq. cbn iota. f_equal.
    rewrite !Z.compare_opp, (Z.compare_antisym e1 e2).
    destruct (e1 ?= e2) eqn:E; cbn [CompOpp]; try reflexivity.
    rewrite Pos.compare_cont_spec. cbn [Pos.switch_Eq].
    change (Z.pos m2 ?= Z.pos m1) with (m2 ?= m1)%positive.
    rewrite (Pos.compare_antisym m1 m2). by destruct (m1 ?= m2)%positive.
Qed.

Lemma rankCompare_Eq a b : rankCompare a b = Eq <-> a = b.
Proof.
  destruct a as [[a1 a2] a3], b as [[b1 b2] b3]. unfold rankCompare. cbn [fst snd].
  destruct (Z.compare_spec a1 b1); [|split; [done|intros [= ? ? ?]; lia]..].
  destruct (Z.compare_spec a2 b2); [|split; [done|intros [= ? ? ?]; lia]..].
  destruct (Z.compare_spec a3 b3); split; try done; try (intros [= ? ? ?]; lia).
  intros _. by subst.
Qed.

Lemma rankCompare_Lt a b : rankCompare a b = Lt <-> rankLt a b.
Proof.
  destruct a as [[a1 a2] a3], b as [[b1 b2] b3]. unfold rankCompare, rankLt.
  cbn [fst snd].
  destruct (Z.compare_spec a1 b1); [|split; [lia|done]|split; [done|lia]].
  destruct (Z.compare_spec a2 b2); [|split; [lia|done]|split; [done|lia]].
  destruct (Z.compare_spec a3 b3); split; try done; lia.
Qed.

Lemma rankLt_trans a b c : rankLt a b -> rankLt b c -> rankLt a c.
Proof. unfold rankLt. lia. Qed.

Lemma rankLt_irrefl a : ~ rankLt a a.
Proof. unfold rankLt. lia. Qed.

Lemma rankLt_total a b : a <> b -> rankLt a b \/ rankLt b a.
Proof.
  destruct a as [[a1 a2] a3], b as [[b1 b2] b3]. unfold rankLt. cbn [fst snd].
  intros Hne.
  destruct (Z.eq_dec a1 b1), (Z.eq_dec a2 b2), (Z.eq_dec a3 b3);
    try lia. subst. done.
Qed.

Lemma fracIsNumber_notNaN it : fracIsNumber it <-> notNaN (Prim2SF (item_frac it)).
Proof.
  unfold fracIsNumber. rewrite FloatAxioms.eqb_spec. unfold SFeqb.
  destruct (Prim2SF (item_frac it)) as [s|s| |s m e]; cbn [notNaN];
    [| |split; [cbn; done|done]|];
    (split; [done|intros _]; rewrite SFcompare_rank by exact I;
     by rewrite (proj2 (rankCompare_Eq _ _) eq_refl)).
Qed.

Lemma itemLess_rank a b :
  fracIsNumber a -> fracIsNumber b ->
  itemLess a b = true
  <-> rankLt (fracRank b) (fracRank a)
      \/ (fracRank a = fracRank b /\ String.ltb (item_name a) (item_name b) = true).
Proof.
  intros Ha%fracIsNumber_notNaN Hb%fracIsNumber_notNaN. unfold itemLess, fracRank.
  rewrite FloatAxioms.eqb_spec, FloatAxioms.ltb_spec. unfold SFeqb, SFltb.
  rewrite !SFcompare_rank by done.
  generalize (floatRank (Prim2SF (item_frac a))) as ra.
  generalize (floatRank (Prim2SF (item_frac b))) as rb. intros rb ra.
  destruct (rankCompare ra rb) eqn:E.
  - apply rankCompare_Eq in E. rewrite E. split; [by right|].
    intros [Hlt|[_ ?]]; [by apply rankLt_irrefl in Hlt|done].
  - apply rankCompare_Lt in E.
    destruct (rankCompare rb ra) eqn:E'.
    + apply rankCompare_Eq in E'. subst. by apply rankLt_irrefl in E.
    + apply rankCompare_Lt in E'. exfalso.
      apply (rankLt_irrefl ra). by eapply rankLt_trans.
    + split; [done|]. intros [Hlt|[Heq _]].
      * exfalso. apply (rankLt_irrefl ra). by eapply rankLt_trans.
      * rewrite Heq in E. by apply rankLt_irrefl in E.
  - destruct (rankCompare rb ra) eqn:E'.
    + apply rankCompare_Eq in E'. rewrite E' in E.
      rewrite (proj2 (rankCompare_Eq ra ra) eq_refl) in E. done.
    + apply rankCompare_Lt in E'. split; [by left|done].
    + exfalso.
      destruct (rankLt_total ra rb) as [H|H].
      * intros Heq. rewrite Heq, (proj2 (rankCompare_Eq rb rb) eq_refl) in E. done.
      * apply rankCompare_Lt in H. congruence.
      * apply rankCompare_Lt in H. congruence.
Qed.

Lemma itemLess_trans a b c :
  fracIsNumber a -> fracIsNumber b -> fracIsNumber c ->
  itemLess a b = true -> itemLess b c = true -> itemLess a c = true.
Proof.
  intros Ha Hb Hc. rewrite !itemLess_rank by done.
  intros [H1|[E1 N1]] [H2|[E2 N2]].
  - left. by eapply rankLt_trans.
  - left. by rewrite <- E2.
  - left. by rewrite E1.
  - right. split; [congruence|]. by eapply string_ltb_trans.
Qed.

Lemma itemLess_total a b :
  fracIsNumber a -> fracIsNumber b -> item_name a <> item_name b ->
  itemLess a b = true \/ itemLess b a = true.
Proof.
  intros Ha Hb Hne. rewrite !itemLess_rank by done.
  destruct (decide (fracRank a = fracRank b)) as [E|E].
  - destruct (string_ltb_total _ _ Hne); [left|right]; right; done.
  - destruct (rankLt_total _ _ E); [right|left]; by left.
Qed.

(** ** Sorting a slice whose elements the comparison orders *)

Section SortedOn.
Context {A : Type} (less : A -> A -> bool).

Lemma insertSorted_sorted_on x l :
  (forall a b c, a ∈ x :: l -> b ∈ x :: l -> c ∈ x :: l ->
     less a b = true -> less b c = true -> less a c = true) ->
  (forall a b, a ∈ x :: l -> b ∈ x :: l -> a <> b ->
     less a b = true \/ less b a = true) ->
  x ∉ l ->
  StronglySorted (fun a b => less a b = true) l ->
  StronglySorted (fun a b => less a b = true) (insertSorted less x l).
Proof.
  intros Htr Htot Hx Hs. induction Hs as [|y l Hs IH Hy]; simpl.
  - repeat constructor.
  - destruct (less x y) eqn:Hxy.
    + constructor; [by constructor|].
      constructor; [done|].
      rewrite Forall_forall in Hy. apply Forall_forall. intros z Hz.
      apply (Htr x y z); [left|right; left|right; by right|done|by apply Hy].
    + assert (less y x = true) as Hyx.
      { destruct (Htot x y) as [?|?]; [left|right; left|set_solver|congruence|done]. }
      constructor.
      * apply IH.
        -- intros a b c Ha Hb Hc. apply Htr; set_solver.
        -- intros a b Ha Hb. apply Htot; set_solver.
        -- set_solver.
      * rewrite insertSorted_perm. by constructor.
Qed.

Lemma sortSlice_sorted_on l :
  (forall a b c, a ∈ l -> b ∈ l -> c ∈ l ->
     less a b = true -> less b c = true -> less a c = true) ->
  (forall a b, a ∈ l -> b ∈ l -> a <> b -> less a b = true \/ less b a = true) ->
  NoDup l ->
  StronglySorted (fun a b => less a b = true) (sortSlice less l).
Proof.
  intros Htr Htot Hnd. induction Hnd as [|x l Hx Hl IH]; simpl; [constructor|].
  assert (forall a, a ∈ x :: sortSlice less l -> a ∈ x :: l) as Hin.
  { intros a. by rewrite (sortSlice_perm less l). }
  apply insertSorted_sorted_on.
  - intros a b c Ha%Hin Hb%Hin Hc%Hin. by apply Htr.
  - intros a b Ha%Hin Hb%Hin. by apply Htot.
  - by rewrite sortSlice_perm.
  - apply IH.
    + intros a b c Ha Hb Hc. apply Htr; by right.
    + intros a b Ha Hb. apply Htot; by right.
Qed.
End SortedOn.

Lemma sortSlice_items_sorted items :
  NoDup (map item_name items) ->
  Forall fracIsNumber items ->
  StronglySorted itemBefore (sortSlice itemLess items).
Proof.
  intros Hnd Hnum. rewrite Forall_forall in Hnum.
  apply sortSlice_sorted_on.
  - intros a b c Ha Hb Hc. apply itemLess_trans; by apply Hnum.
  - intros a b Ha Hb Hne. apply itemLess_total; [by apply Hnum..|].
    intros Hn. apply Hne.
    apply list_elem_of_lookup in Ha as [i Hi], Hb as [j Hj].
    assert (i = j) as -> by by eapply NoDup_names_lookup.
    congruence.
  - by eapply NoDup_fmap_1.
Qed.


(** ** The fractional parts are numbers *)

Lemma has_sign_notNaN s f : has_sign s f -> notNaN f.
Proof. by destruct f. Qed.

Lemma binary_normalize_notNaN m e sz : notNaN (binary_normalize prec emax m e sz).
Proof.
  unfold binary_normalize. destruct m as [|p|p]; [done| |];
    unfold binary_round; destruct (shl_align _ _ _) as [mz ez];
    eapply has_sign_notNaN, binary_round_aux_sign; lia.
Qed.

(** A difference is NaN only when an operand is NaN or both are
    infinities. *)
Lemma SFsub_notNaN x y :
  notNaN x -> notNaN y -> (forall s, x <> S754_infinity s) ->
  notNaN (SFsub prec emax x y).
Proof.
  intros Hx Hy Hinf.
  destruct x as [sx|sx| |sx mx ex]; [|by destruct (Hinf sx)|done|];
    destruct y as [sy|sy| |sy my ey]; try done; cbn [SFsub].
  - by destruct sx, sy.
  - apply binary_normalize_notNaN.
Qed.

Lemma float64_of_int64_notNaN z :
  0 <= z <= int64_max -> notNaN (Prim2SF (float64_of_int64 z)).
Proof.
  intros Hz. unfold float64_of_int64.
  destruct (Z.eqb_spec z int64_min) as [E|_]; [unfold int64_min in E; lia|].
  destruct (Z.ltb_spec z 0) as [?|_]; [lia|].
  rewrite FloatAxioms.of_uint63_spec. apply binary_normalize_notNaN.
Qed.

(** An item whose floor is not negative has a raw share that is a finite
    number, and so a fractional part that is a number. *)
Lemma newItem_fracIsNumber name raw :
  0 <= item_base (newItem name raw) -> fracIsNumber (newItem name raw).
Proof.
  intros Hb. apply fracIsNumber_notNaN. unfold newItem in *. cbn [item_base item_frac] in *.
  rewrite FloatAxioms.sub_spec.
  assert (int64_of_floor raw <= int64_max) as Hmax.
  { unfold int64_of_floor. destruct (floorZ raw) as [z|]; [|done].
    destruct (Z.leb_spec int64_min z), (Z.leb_spec z int64_max); cbn [andb]; done. }
  unfold int64_of_floor, floorZ in Hb.
  apply SFsub_notNaN.
  - by destruct (Prim2SF raw).
  - by apply float64_of_int64_notNaN.
  - intros s E. by rewrite E in Hb.
Qed.

Lemma percentItems_fracIsNumber T perc :
  Forall (fun it => 0 <= item_base it) (percentItems T perc) ->
  Forall fracIsNumber (percentItems T perc).
Proof.
  unfold percentItems. rewrite !Forall_map. intros H.
  eapply Forall_impl; [exact H|]. intros kv. apply newItem_fracIsNumber.
Qed.

Lemma weightItems_fracIsNumber T sumW w :
  Forall (fun it => 0 <= item_base it) (weightItems T sumW w) ->
  Forall fracIsNumber (weightItems T sumW w).
Proof.
  unfold weightItems. rewrite !Forall_map. intros H.
  eapply Forall_impl; [exact H|]. intros kv. apply newItem_fracIsNumber.
Qed.

(** The largest-remainder distribution, share by share, in the order of
    the sorted slice. *)
Lemma largestRemainder_order T items :
  in_int64 T -> items <> [] ->
  NoDup (map item_name items) ->
  Forall fracIsNumber items ->
  floorsWithin T items ->
  exists shares,
    largestRemainder T items = Ok shares
    /\ sortSlice itemLess items ≡ₚ items
    /\ StronglySorted itemBefore (sortSlice itemLess items)
    /\ forall (j : nat) it,
         sortSlice itemLess items !! j = Some it ->
         shares !! item_name it
         = Some (item_base it
                 + extraUnits (T - sumBases items) (Z.of_nat (length items))
                              (Z.of_nat j)).
Proof.
  intros HT Hne Hnd Hnum [Hnn Hle].
  destruct (largestRemainder_lookup T items) as (shares & Heq & Hl); try done.
  exists shares. split; [done|]. split; [apply sortSlice_perm|].
  split; [by apply sortSlice_items_sorted|done].
Qed.

(** The shares of a percentage split, one by one.  When no floored raw
    share is negative and the floors stay within the total, the
    participants, taken by descending fractional part of the raw share
    and by ascending name among equal fractional parts, receive their
    floors and the units the floors leave of the total: each one
    [rem / n] of them, and the first [rem mod n] one more. *)
Theorem splitByPercent_largest_remainder (T : Z) (perc : list (string * float)) :
  in_int64 T -> NoDup (map fst perc) ->
  percentSumOff perc = false ->
  floorsWithin T (percentItems T perc) ->
  exists shares,
    splitByPercent T perc = Ok shares
    /\ sortSlice itemLess (percentItems T perc) ≡ₚ percentItems T perc
    /\ StronglySorted itemBefore (sortSlice itemLess (percentItems T perc))
    /\ forall (j : nat) it,
         sortSlice itemLess (percentItems T perc) !! j = Some it ->
         shares !! item_name it
         = Some (item_base it
                 + extraUnits (T - sumBases (percentItems T perc))
                              (Z.of_nat (length perc)) (Z.of_nat j)).
Proof.
  intros HT Hnd Hoff Hfl. unfold splitByPercent.
  fold (percentSumOff perc). rewrite Hoff.
  replace (length perc) with (length (percentItems T perc))
    by (unfold percentItems; apply length_map).
  apply largestRemainder_order; [done|by apply percentItems_nonempty| | |done].
  - by rewrite percentItems_names.
  - apply percentItems_fracIsNumber, Hfl.
Qed.

Lemma splitByPercent_largest_remainder_witness :
  exists shares,
    splitByPercent 1001
      [("alice", 50%float); ("bob", 25%float); ("charlie", 25%float)]
    = Ok shares
    /\ shares !! "alice" = Some 501
    /\ shares !! "bob" = Some 250
    /\ shares !! "charlie" = Some 250.
Proof.
  destruct (splitByPercent_largest_remainder 1001
              [("alice", 50%float); ("bob", 25%float); ("charlie", 25%float)])
    as (shares & Heq & _ & _ & Hl).
  - unfold in_int64, int64_min, int64_max. lia.
  - compute_done.
  - reflexivity.
  - split; [|vm_compute; discriminate].
    vm_compute. repeat constructor; discriminate.
  - exists shares. split; [exact Heq|].
    split; [|split].
    + exact (Hl 0%nat _ eq_refl).
    + exact (Hl 1%nat _ eq_refl).
    + exact (Hl 2%nat _ eq_refl).
Defined.

(** The shares of a split by weights, one by one.  When no weight is
    negative, their sum is positive, no floored raw share is negative and
    the floors stay within the total, the participants of non-zero
    weight, taken by descending fractional part of the raw share and by
    ascending name among equal fractional parts, receive their floors and
    the units the floors leave of the total: each one [rem / n] of them,
    and the first [rem mod n] one more, [n] being the number of non-zero
    weights. *)
Theorem splitByWeights_largest_remainder (T : Z) (w : list (string * float)) :
  in_int64 T -> NoDup (map fst w) ->
  Forall (fun kv => ~ negativeWeight kv) w ->
  PrimFloat.leb (sumValues w) 0%float = false ->
  floorsWithin T (weightItems T (sumValues w) w) ->
  exists shares,
    splitByWeights T w = Ok shares
    /\ sortSlice itemLess (weightItems T (sumValues w) w)
       ≡ₚ weightItems T (sumValues w) w
    /\ StronglySorted itemBefore
         (sortSlice itemLess (weightItems T (sumValues w) w))
    /\ forall (j : nat) it,
         sortSlice itemLess (weightItems T (sumValues w) w) !! j = Some it ->
         shares !! item_name it
         = Some (item_base it
                 + extraUnits (T - sumBases (weightItems T (sumValues w) w))
                     (Z.of_nat (length (weightItems T (sumValues w) w)))
                     (Z.of_nat j)).
Proof.
  intros HT Hnd Hnn Hle Hfl. unfold splitByWeights.
  rewrite sumWeights_nonnegative by done. fold (sumValues w). rewrite Hle.
  apply largestRemainder_order; [done|by apply weightItems_nonempty| | |done].
  - rewrite weightItems_names. by apply NoDup_map_fst_filter.
  - apply weightItems_fracIsNumber, Hfl.
Qed.

Lemma splitByWeights_largest_remainder_witness :
  exists shares,
    splitByWeights 10000000
      [("alice", 1%float); ("bob", 1%float); ("charlie", 1%float); ("dave", 0%float)]
    = Ok shares
    /\ shares !! "alice" = Some 3333334
    /\ shares !! "bob" = Some 3333333
    /\ shares !! "charlie" = Some 3333333.
Proof.
  destruct (splitByWeights_largest_remainder 10000000
              [("alice", 1%float); ("bob", 1%float); ("charlie", 1%float);
               ("dave", 0%float)])
    as (shares & Heq & _ & _ & Hl).
  - unfold in_int64, int64_min, int64_max. lia.
  - compute_done.
  - repeat constructor; unfold negativeWeight; simpl; discriminate.
  - reflexivity.
  - split; [|vm_compute; discriminate].
    vm_compute. repeat constructor; discriminate.
  - exists shares. split; [exact Heq|].
    split; [|split].
    + exact (Hl 0%nat _ eq_refl).
    + exact (Hl 1%nat _ eq_refl).
    + exact (Hl 2%nat _ eq_refl).
Defined.


(** ** The settlements map, pair by pair *)

Lemma orderedPairs_elem_of g from to :
  (from, to) ∈ orderedPairs g
  <-> is_Some (nodes (group_graph g) !! from)
      /\ is_Some (nodes (group_graph g) !! to)
      /\ from <> to.
Proof.
  unfold orderedPairs. cbv zeta.
  rewrite list_elem_of_In, in_flat_map. split.
  - intros (f & Hf & Hin). apply in_flat_map in Hin as (t & Ht & Hin).
    destruct (String.eqb_spec f t) as [|Hne]; [done|].
    destruct Hin as [[= -> ->]|[]].
    apply list_elem_of_In, keysOf_elem_of in Hf, Ht. done.
  - intros (Hf & Ht & Hne).
    exists from. split; [by apply list_elem_of_In, keysOf_elem_of|].
    apply in_flat_map. exists to. split; [by apply list_elem_of_In, keysOf_elem_of|].
    destruct (String.eqb_spec from to) as [|_]; [done|]. by left.
Qed.

Lemma NoDup_fmap_inj_on {A B} (f : A -> B) (l : list A) x y :
  NoDup (map f l) -> x ∈ l -> y ∈ l -> f x = f y -> x = y.
Proof.
  intros Hnd [i Hi]%list_elem_of_lookup [j Hj]%list_elem_of_lookup Hf.
  assert (i = j) as ->.
  { apply (NoDup_lookup (map f l) i j (f x)); [done| |].
    - by rewrite list_lookup_fmap, Hi.
    - by rewrite list_lookup_fmap, Hj, Hf. }
  congruence.
Qed.

(** With distinct keys, two pairs of the same key are the same pair. *)
Lemma settlementKeysDistinct_inj g a b c d :
  settlementKeysDistinct g ->
  (a, b) ∈ orderedPairs g -> (c, d) ∈ orderedPairs g ->
  settlementKey g a b = settlementKey g c d -> a = c /\ b = d.
Proof.
  intros Hnd Hab Hcd Hk.
  assert ((a, b) = (c, d)) as [= -> ->]; [|done].
  by apply (NoDup_fmap_inj_on
              (fun p => settlementKey g (fst p) (snd p)) (orderedPairs g)).
Qed.

(** When every assignment to key [k] writes [v] and there is one, the map
    holds [v] at [k]. *)
Lemma GetExpenseDetails_fold_value g entries (acc : gmap string float) k v :
  (forall entry, entry ∈ entries ->
     settlementKey g (fst (fst entry)) (snd (fst entry)) = k -> snd entry = v) ->
  (exists entry, entry ∈ entries
                 /\ settlementKey g (fst (fst entry)) (snd (fst entry)) = k)
  \/ acc !! k = Some v ->
  fold_left
    (fun result entry =>
       <[settlementKey g (fst (fst entry)) (snd (fst entry)) := snd entry]> result)
    entries acc !! k = Some v.
Proof.
  revert acc. induction entries as [|en entries IH]; intros acc Hall H; simpl.
  - destruct H as [(entry & Hin & _)|H]; [by apply elem_of_nil in Hin|done].
  - apply IH; [intros entry Hin; apply Hall; by right|].
    destruct (decide (settlementKey g (fst (fst en)) (snd (fst en)) = k)) as [Hk|Hk].
    + right. rewrite Hk, lookup_insert_eq. f_equal. apply Hall; [by left|done].
    + destruct H as [(entry & Hin & Hke)|H].
      * apply elem_of_cons in Hin as [->|Hin]; [done|]. left. eauto.
      * right. by rewrite lookup_insert_ne.
Qed.

(** With distinct keys the map holds, under the key of a pair, the amount
    of that pair, and it holds it exactly when the net balance of the pair
    reaches one cent. *)
Lemma GetExpenseDetails_lookup g a b x :
  settlementKeysDistinct g ->
  is_Some (nodes (group_graph g) !! a) ->
  is_Some (nodes (group_graph g) !! b) ->
  a <> b ->
  GetExpenseDetails g !! settlementKey g a b = Some x
  <-> x = getMoneyTobePaid g a b /\ 1000 <= netBalance g a b.
Proof.
  intros Hnd Ha Hb Hne.
  assert ((a, b) ∈ orderedPairs g) as Hab by by apply orderedPairs_elem_of.
  split.
  - unfold GetExpenseDetails.
    intros [([[from to] y] & Hin & Hk & Hv)|Hacc]%GetExpenseDetails_fold_inv;
      [|by rewrite lookup_empty in Hacc].
    cbn [fst snd] in Hk, Hv. subst y.
    apply settlementEntries_elem_of in Hin as (Hf & Ht & Hft & -> & Hge).
    destruct (settlementKeysDistinct_inj g from to a b) as [-> ->]; try done.
    by apply orderedPairs_elem_of.
  - intros [-> Hge]. unfold GetExpenseDetails.
    apply GetExpenseDetails_fold_value.
    + intros [[from to] y] Hin Hk. cbn [fst snd] in *.
      apply settlementEntries_elem_of in Hin as (Hf & Ht & Hft & -> & _).
      destruct (settlementKeysDistinct_inj g from to a b) as [-> ->]; try done.
      by apply orderedPairs_elem_of.
    + left. exists (a, b, getMoneyTobePaid g a b). split; [|done].
      by apply settlementEntries_elem_of.
Qed.

(** C7, as amended: the net balance of an ordered pair [(a, b)] is the sum
    of the amounts of the edges [a -> b] minus the sum of the amounts of
    the edges [b -> a], taken in [int64] arithmetic, and it is exactly
    that difference when the difference is an [int64].  In a group in
    which no two ordered pairs of distinct nodes have the same key
    ["<from> to pay <to>"], the map [GetExpenseDetails] returns holds
    under the key of [(a, b)] the amount of [(a, b)], it holds an entry
    there only when the net balance of [(a, b)] is positive (at least one
    cent), and it never holds entries under both the key of [(a, b)] and
    the key of [(b, a)]. *)
Theorem settlement_antisymmetry g a b :
  settlementKeysDistinct g ->
  is_Some (nodes (group_graph g) !! a) ->
  is_Some (nodes (group_graph g) !! b) ->
  a <> b ->
  netBalance g a b
  = wrap64 (pairTotal (group_graph g) a b - pairTotal (group_graph g) b a)
  /\ (in_int64 (pairTotal (group_graph g) a b - pairTotal (group_graph g) b a) ->
      netBalance g a b
      = pairTotal (group_graph g) a b - pairTotal (group_graph g) b a)
  /\ (forall x,
        GetExpenseDetails g !! settlementKey g a b = Some x
        <-> x = getMoneyTobePaid g a b /\ 1000 <= netBalance g a b)
  /\ (forall x,
        GetExpenseDetails g !! settlementKey g a b = Some x ->
        PrimFloat.ltb 0%float x = true /\ 0 < netBalance g a b)
  /\ ~ (is_Some (GetExpenseDetails g !! settlementKey g a b)
        /\ is_Some (GetExpenseDetails g !! settlementKey g b a)).
Proof.
  intros Hnd Ha Hb Hne. split; [apply netBalance_wrap|].
  split; [intros Hr; rewrite netBalance_wrap; by apply wrap64_small|].
  split; [intros x; by apply GetExpenseDetails_lookup|].
  split.
  - intros x [-> Hge]%GetExpenseDetails_lookup; try done.
    split; [by apply getMoneyTobePaid_positive|lia].
  - intros [[x Hx] [y Hy]].
    apply GetExpenseDetails_lookup in Hx as [_ Hab]; try done.
    apply GetExpenseDetails_lookup in Hy as [_ Hba]; try done.
    pose proof (netBalance_antisym g a b). lia.
Qed.

Lemma settlement_antisymmetry_witness :
  netBalance (fst (fst tripAfterEqual)) "bob" "alice" = 3333333
  /\ GetExpenseDetails (fst (fst tripAfterEqual))
       !! settlementKey (fst (fst tripAfterEqual)) "bob" "alice"
     = Some (getMoneyTobePaid (fst (fst tripAfterEqual)) "bob" "alice")
  /\ GetExpenseDetails (fst (fst tripAfterEqual))
       !! settlementKey (fst (fst tripAfterEqual)) "alice" "bob"
     = None.
Proof.
  destruct (settlement_antisymmetry (fst (fst tripAfterEqual)) "bob" "alice")
    as (_ & Hnet & Hiff & _ & Hnot).
  - compute_done.
  - compute_done.
  - compute_done.
  - done.
  - split; [rewrite Hnet; [reflexivity|vm_compute; split; discriminate]|].
    assert (GetExpenseDetails (fst (fst tripAfterEqual))
              !! settlementKey (fst (fst tripAfterEqual)) "bob" "alice"
            = Some (getMoneyTobePaid (fst (fst tripAfterEqual)) "bob" "alice"))
      as Hbob.
    { apply Hiff. split; [reflexivity|vm_compute; discriminate]. }
    split; [exact Hbob|].
    destruct (GetExpenseDetails (fst (fst tripAfterEqual))
                !! settlementKey (fst (fst tripAfterEqual)) "alice" "bob")
      as [y|] eqn:E; [|reflexivity].
    exfalso. apply Hnot. split; [rewrite Hbob; eauto|eauto].
Defined.

(** C7 as stated fails in two ways.  The sums of the edges are [int64]
    sums: after two expenses of [math.MaxInt64] micro-cents paid by [b]
    and split equally between [a] and [b], the edges [a -> b] amount to
    [2^63] and there is no edge [b -> a], but the net balance of [(a, b)]
    is [-2^63] and nothing is reported.  And the keys of two pairs can
    coincide: with the members [x], [y to pay z], [x to pay y] and [z],
    once [x] owes [y to pay z] 50 dollars and [z] owes [x to pay y] 30
    dollars, the map holds positive amounts under the keys of both
    [(x to pay y, z)] and [(z, x to pay y)]. *)
Lemma settlement_antisymmetry_fails :
  (snd hugeAfterFirst = None /\ snd hugeAfterSecond = None
   /\ pairTotal (group_graph (fst (fst hugeAfterSecond))) "a" "b"
      - pairTotal (group_graph (fst (fst hugeAfterSecond))) "b" "a" = 2 ^ 63
   /\ netBalance (fst (fst hugeAfterSecond)) "a" "b" = - 2 ^ 63
   /\ GetExpenseDetails (fst (fst hugeAfterSecond)) = ∅)
  /\ (snd pairsAfterFirst = None /\ snd pairsAfterSecond = None
      /\ netBalance (fst (fst pairsAfterSecond)) "x to pay y" "z" = -3000000
      /\ GetExpenseDetails (fst (fst pairsAfterSecond))
           !! settlementKey (fst (fst pairsAfterSecond)) "x to pay y" "z"
         = Some 50%float
      /\ GetExpenseDetails (fst (fst pairsAfterSecond))
           !! settlementKey (fst (fst pairsAfterSecond)) "z" "x to pay y"
         = Some 30%float).
Proof. vm_compute. repeat split; reflexivity. Qed.

(** C8 fails on the map that is returned.  With the members [x],
    [y to pay z], [x to pay y] and [z], after one expense of 100 dollars
    paid by [y to pay z] and shared with [x], the pair [(x to pay y, z)]
    has net balance zero and amount zero, and yet the map holds 50
    dollars under its key: the key of [(x, y to pay z)] is the same
    text. *)
Theorem settlement_key_collision :
  snd pairsAfterFirst = None
  /\ is_Some (people (fst (fst pairsAfterFirst)) !! "x to pay y")
  /\ is_Some (people (fst (fst pairsAfterFirst)) !! "z")
  /\ netBalance (fst (fst pairsAfterFirst)) "x to pay y" "z" = 0
  /\ getMoneyTobePaid (fst (fst pairsAfterFirst)) "x to pay y" "z" = 0%float
  /\ settlementKey (fst (fst pairsAfterFirst)) "x to pay y" "z"
     = settlementKey (fst (fst pairsAfterFirst)) "x" "y to pay z"
  /\ GetExpenseDetails (fst (fst pairsAfterFirst))
       !! settlementKey (fst (fst pairsAfterFirst)) "x to pay y" "z"
     = Some 50%float.
Proof. vm_compute. repeat split; eauto. Qed.
